(** * go-websocket-benchmark: the traffic generators of mwsbench

    A shallow embedding of the two benchmark sessions of the repository,
    [benchrate.BenchRate] (open-loop, fixed send rate) and
    [benchecho.BenchEcho] (closed-loop, echo round trips), and the
    properties of their counters, checks and run ordering.

    Conventions.
    - Go's [int64], and [int] on the 64-bit targets the benchmark runs on,
      are integers in [Z] with two's-complement wrap-around written out
      ([wrap64]); [uint32] likewise ([wrapu32]).
    - A byte slice is a [list byte]; [bytes.Equal] is list equality.
    - What the transport, the random source and the scheduler decide is an
      explicit argument (an oracle), never a hidden choice. *)

From Stdlib Require Import ZArith Lia String.
From Stdlib Require Import Init.Byte.
From stdpp Require Import base numbers list.

Open Scope Z_scope.

#[local] Instance byte_eq_dec : EqDecision byte := Byte.byte_eq_dec.

(** ** Machine integers *)

Module Int.

Definition int64_min : Z := - 2 ^ 63.
Definition int64_max : Z := 2 ^ 63 - 1.

(** The value an [int64] holds after an operation whose exact result is [z]. *)
Definition wrap64 (z : Z) : Z := (z + 2 ^ 63) mod 2 ^ 64 - 2 ^ 63.

Definition add64 (a b : Z) : Z := wrap64 (a + b).
Definition sub64 (a b : Z) : Z := wrap64 (a - b).
Definition mul64 (a b : Z) : Z := wrap64 (a * b).

Definition in_int64 (z : Z) : Prop := int64_min <= z <= int64_max.

(** [uint32(x)] of an [int] *)
Definition wrapu32 (z : Z) : Z := z mod 2 ^ 32.

End Int.
Import Int.

(** ** Shared vocabulary *)

(** Go's [error] values are compared with [nil] only; their text is kept. *)
Definition error := string.

(** [websocket.MessageType] (nbio) and the [int] message type (gorilla):
    both libraries use the RFC 6455 opcodes. *)
Definition TextMessage : Z := 1.
Definition BinaryMessage : Z := 2.

(** [bytes.Equal] *)
Definition bytes_Equal (a b : list byte) : bool := bool_decide (a = b).

(** [time.Second], a [time.Duration] in nanoseconds *)
Definition Second : Z := 1000000000.

(** How a setup function ends. [logging.Fatalf] ends the process, [panic]
    unwinds it; both abort the run. *)
Inductive FatalError :=
  | WrongBatch (tickRate len : Z)   (* "... get wrong tickRate: %v, or batchBuffer: %v" *)
  | PidLookupFailed (e : error).    (* "... GetFrameworkPid(%v) failed: %v" *)

Inductive Result (A : Type) :=
  | Ok (a : A)
  | Fatalf (f : FatalError)
  | Panic (e : error).
Arguments Ok {A} a.
Arguments Fatalf {A} f.
Arguments Panic {A} e.

(** [rand.Read(buf)]: the random source is a stream of bytes, [off] of which
    have been consumed; a buffer of [n] bytes takes the next [n]. *)
Definition rand_Read (stream : nat -> byte) (off n : nat) : list byte :=
  map stream (seq off n).

(** What the process environment answers during [init]. *)
Record Env := mkEnv {
  NumCPU : Z;                           (* runtime.NumCPU() *)
  rand_stream : nat -> byte;            (* crypto/rand, math/rand *)
  GetFrameworkPid : error + Z;          (* config.GetFrameworkPid(Framework, Ip) *)
  NewPSCounter : Z -> option error      (* the error of perf.NewPSCounter(pid) *)
}.

(** ** The send limiter *)

Module Limiter.

(** The channels of [Run] that are closed as signals. *)
Inductive chan := chCounterStart | done.

(** [context.Context] as far as a limiter wait looks at it.
    [context.Background()] is never cancelled: its [Done()] channel is nil.
    [WithDone c] is a context cancelled when [c] is closed; the source
    builds none, it is here to say what a cancellable wait would be. *)
Inductive Context :=
  | Background
  | WithDone (c : chan).

(** The closure stored in the field [limitFn]. *)
Inductive LimitFn :=
  | NoLimit                                 (* func() {} *)
  | LimiterWait (ctx : Context) (burst : Z).
      (* a wait on rate.NewLimiter(rate.Every(1*time.Second), burst) under ctx *)

(** The instant each channel is closed, if it ever is. *)
Definition closings := chan -> option Z.

Definition ctx_done_at (cl : closings) (ctx : Context) : option Z :=
  match ctx with
  | Background => None
  | WithDone c => cl c
  end.

(** [limiter.WaitN(ctx, n)] called at instant [now] when the limiter can
    grant the [n] tokens [delay >= 0] later: the instant the call returns.
    More tokens than the burst are refused at once; otherwise the call sleeps
    until the grant or until [ctx] is done, whichever comes first. *)
Definition WaitN_returns_at (cl : closings) (ctx : Context)
    (burst n now delay : Z) : Z :=
  if n >? burst then now
  else
    match ctx_done_at cl ctx with
    | Some t => if t <? now + delay then Z.max now t else now + delay
    | None => now + delay
    end.

(** A call [limitFn()] that asks for [n] tokens. *)
Definition call_limitFn (f : LimitFn) (n : Z) (cl : closings)
    (now delay : Z) : Z :=
  match f with
  | NoLimit => now
  | LimiterWait ctx burst => WaitN_returns_at cl ctx burst n now delay
  end.

End Limiter.
Import Limiter.

(** ** Open-loop mode: package benchrate *)

Module BenchRate.

(** [type BenchRate struct]: the configuration, what [init] derives from it
    and the four session counters. [ConnsMap] lists the connections in the
    order the map iteration yields them; the sampler handle is external. *)
Record BenchRate := mkBenchRate {
  Duration : Z;
  Concurrency : Z;
  SendRate : Z;
  Payload : Z;
  SendLimit : Z;
  PsInterval : Z;
  ServerPid : Z;
  ConnsMap : list nat;
  wbuffer : list byte;
  chConns : list nat;
  limitFn : LimitFn;
  batch : Z;
  batchBuffer : list byte;
  tickRate : Z;
  sendTimes : Z;
  sendBytes : Z;
  recvTimes : Z;
  recvBytes : Z
}.

(** [type Conn struct]: the embedded [net.Conn] is identified by [conn_id];
    what its [Write] returns is given by the write oracle below. *)
Record Conn := mkConn {
  conn_id : nat;
  sendCnt : Z;
  recvCnt : Z
}.

Definition set_sendCnt (c : Conn) (v : Z) : Conn :=
  mkConn (conn_id c) v (recvCnt c).
Definition set_recvCnt (c : Conn) (v : Z) : Conn :=
  mkConn (conn_id c) (sendCnt c) v.

Definition set_send (br : BenchRate) (times bytes : Z) : BenchRate :=
  mkBenchRate (Duration br) (Concurrency br) (SendRate br) (Payload br)
    (SendLimit br) (PsInterval br) (ServerPid br) (ConnsMap br) (wbuffer br)
    (chConns br) (limitFn br) (batch br) (batchBuffer br) (tickRate br)
    times bytes (recvTimes br) (recvBytes br).
Definition set_recv (br : BenchRate) (times bytes : Z) : BenchRate :=
  mkBenchRate (Duration br) (Concurrency br) (SendRate br) (Payload br)
    (SendLimit br) (PsInterval br) (ServerPid br) (ConnsMap br) (wbuffer br)
    (chConns br) (limitFn br) (batch br) (batchBuffer br) (tickRate br)
    (sendTimes br) (sendBytes br) times bytes.

(** [func New(framework, ip, connsMap)]: every other field is Go's zero
    value until the caller sets the configuration. *)
Definition New (connsMap : list nat) : BenchRate :=
  mkBenchRate 0 0 0 0 0 0 0 connsMap [] [] NoLimit 0 [] 0 0 0 0 0.

Section Init.

(** The package [mwsbench/protocol] is not among the sources at hand: its two
    functions are parameters. *)
Variable EncodeClientMessage : Z -> list byte -> list byte.
Variable BatchBuffers : list byte -> Z -> Z -> list byte * Z * Z.

(** [func (br *BenchRate) init()] *)
Definition init (env : Env) (br : BenchRate) : Result BenchRate :=
  let nconns := Z.of_nat (length (ConnsMap br)) in
  let duration := if Duration br <=? 0 then mul64 Second 10 else Duration br in
  let concurrency := if Concurrency br <=? 0 then 50000 else Concurrency br in
  let concurrency := if concurrency >? nconns then nconns else concurrency in
  let sendRate := if SendRate br <=? 0 then 1 else SendRate br in
  let payload := if Payload br <=? 0 then 1024 else Payload br in
  let wbuf := rand_Read (rand_stream env) 0 (Z.to_nat payload) in
  let message := EncodeClientMessage BinaryMessage wbuf in
  let '(bbuf, b, rate) := BatchBuffers message sendRate (1024 * 8) in
  if (rate <=? 0) || (Z.of_nat (length bbuf) =? 0) then
    Fatalf (WrongBatch rate (Z.of_nat (length bbuf)))
  else
    let psInterval := if PsInterval br <=? 0 then Second else PsInterval br in
    let limit :=
      if SendLimit br >? 0 then LimiterWait Background (SendLimit br)
      else limitFn br in
    let ch := concat (replicate (Z.to_nat sendRate) (ConnsMap br)) in
    match GetFrameworkPid env with
    | inl e => Fatalf (PidLookupFailed e)
    | inr serverPid =>
        match NewPSCounter env serverPid with
        | Some e => Panic e
        | None =>
            Ok (mkBenchRate duration concurrency sendRate payload
                  (SendLimit br) psInterval serverPid (ConnsMap br) wbuf ch
                  limit b bbuf rate
                  (sendTimes br) (sendBytes br) (recvTimes br) (recvBytes br))
        end
    end.

(** What [init] passes to and gets from [protocol.BatchBuffers]. *)
Definition init_batch (env : Env) (br : BenchRate) : list byte * Z * Z :=
  let sendRate := if SendRate br <=? 0 then 1 else SendRate br in
  let payload := if Payload br <=? 0 then 1024 else Payload br in
  let wbuf := rand_Read (rand_stream env) 0 (Z.to_nat payload) in
  BatchBuffers (EncodeClientMessage BinaryMessage wbuf) sendRate (1024 * 8).

End Init.

(** The tokens one call of [limitFn] asks for:
    [len(br.batchBuffer)/br.Payload]. *)
Definition limit_tokens (br : BenchRate) : Z :=
  Z.quot (Z.of_nat (length (batchBuffer br))) (Payload br).

(** The result of [conn.Write(p)] on connection [id]: [None] is a nil error. *)
Definition write_oracle := nat -> list byte -> option error.

(** One [conn.Write] the worker issued. *)
Record WriteCall := mkWrite { w_conn : nat; w_bytes : list byte }.

(** The guard of [doOnce]:
    [sendCnt - recvCnt + int64(br.batch) < int64(br.batch*5)]. *)
Definition below_threshold (br : BenchRate) (conn : Conn) : bool :=
  add64 (sub64 (sendCnt conn) (recvCnt conn)) (batch br) <? mul64 (batch br) 5.

(** The body of the [for _, conn := range conns] loop of [doOnce]. The call of
    [br.limitFn()] delays the write and changes no counter. *)
Definition doOnce_conn (wr : write_oracle) (br : BenchRate) (conn : Conn)
  : BenchRate * Conn * list WriteCall :=
  if below_threshold br conn then
    let call := mkWrite (conn_id conn) (batchBuffer br) in
    match wr (conn_id conn) (batchBuffer br) with
    | None =>
        (set_send br (add64 (sendTimes br) (batch br))
                     (add64 (sendBytes br) (mul64 (batch br) (Payload br))),
         set_sendCnt conn (add64 (sendCnt conn) (batch br)),
         [call])
    | Some _ => (br, conn, [call])
    end
  else (br, conn, []).

(** [func (br *BenchRate) doOnce(conns []*Conn)]: one tick of one worker over
    its team. It returns nothing; the model returns the updated session and
    team and the writes issued, in order. *)
Fixpoint doOnce (wr : write_oracle) (br : BenchRate) (conns : list Conn)
  : BenchRate * list Conn * list WriteCall :=
  match conns with
  | [] => (br, [], [])
  | conn :: rest =>
      let '(br1, conn1, log1) := doOnce_conn wr br conn in
      let '(br2, rest2, log2) := doOnce wr br1 rest in
      (br2, conn1 :: rest2, log1 ++ log2)
  end.

(** [func (br *BenchRate) getWriteBuffer() []byte] *)
Definition getWriteBuffer (br : BenchRate) : list byte := wbuffer br.

(** [func (br *BenchRate) onMessage(c, mt, b)]: [conn] is the session value
    of [c]. *)
Definition onMessage (br : BenchRate) (conn : Conn) (mt : Z) (b : list byte)
  : BenchRate * Conn :=
  if (mt =? BinaryMessage) && bytes_Equal b (getWriteBuffer br) then
    (set_recv br (add64 (recvTimes br) 1)
                 (add64 (recvBytes br) (Z.of_nat (length b))),
     set_recvCnt conn (add64 (recvCnt conn) 1))
  else (br, conn).

(** *** The connection counters under interleaving

    [doOnce] and [onMessage] run concurrently on one connection: the worker
    reads [sendCnt] and [recvCnt] with two separate atomic loads, and the
    transport's dispatch adds to [recvCnt] at any moment. The machine below
    takes one atomic operation per step. Each connection belongs to one team
    and each team to one worker, so one worker program counter per connection
    suffices. *)

Inductive pc :=
  | Idle                 (* outside the loop body for this connection *)
  | LoadedSend (s : Z)   (* after atomic.LoadInt64(&conn.sendCnt) *)
  | Passed               (* the guard held: limitFn, then Write *)
  | Wrote                (* Write returned nil *)
  | AddedTimes           (* after AddInt64(&br.sendTimes, ...) *)
  | AddedBytes.          (* after AddInt64(&br.sendBytes, ...) *)

Inductive event :=
  | WLoadSend                   (* worker: load sendCnt *)
  | WLoadRecv                   (* worker: load recvCnt, evaluate the guard *)
  | WWrite (e : option error)   (* worker: conn.Write returns e *)
  | WAddTimes                   (* worker: add to br.sendTimes *)
  | WAddBytes                   (* worker: add to br.sendBytes *)
  | WAddCnt                     (* worker: add batch to conn.sendCnt *)
  | RAddCnt.                    (* onMessage: add 1 to conn.recvCnt *)

Record cstate := mkC { c_conn : Conn; c_pc : pc }.

(** The guard on the loaded values. *)
Definition guard (b s r : Z) : bool := add64 (sub64 s r) b <? mul64 b 5.

(** One atomic step; [None] when the event is not the next operation of the
    worker. [b] is [br.batch], constant after [init]. *)
Definition step (b : Z) (st : cstate) (ev : event) : option cstate :=
  let c := c_conn st in
  match ev, c_pc st with
  | WLoadSend, Idle => Some (mkC c (LoadedSend (sendCnt c)))
  | WLoadRecv, LoadedSend s =>
      Some (mkC c (if guard b s (recvCnt c) then Passed else Idle))
  | WWrite None, Passed => Some (mkC c Wrote)
  | WWrite (Some _), Passed => Some (mkC c Idle)
  | WAddTimes, Wrote => Some (mkC c AddedTimes)
  | WAddBytes, AddedTimes => Some (mkC c AddedBytes)
  | WAddCnt, AddedBytes => Some (mkC (set_sendCnt c (add64 (sendCnt c) b)) Idle)
  | RAddCnt, p => Some (mkC (set_recvCnt c (add64 (recvCnt c) 1)) p)
  | _, _ => None
  end.

Fixpoint run (b : Z) (st : cstate) (tr : list event) : option cstate :=
  match tr with
  | [] => Some st
  | ev :: rest =>
      match step b st ev with
      | Some st' => run b st' rest
      | None => None
      end
  end.

(** The invariant of the machine. After at most [k] steps neither counter
    has wrapped, the outstanding count is at most five batches, the value the
    worker loaded is still [sendCnt] (no one else writes it), and once the
    guard has held there is room for one more batch. *)
Definition Inv (b k : Z) (st : cstate) : Prop :=
  let c := c_conn st in
  0 <= sendCnt c <= b * k /\
  0 <= recvCnt c <= k /\
  sendCnt c - recvCnt c <= 5 * b /\
  match c_pc st with
  | Idle => True
  | LoadedSend s => s = sendCnt c
  | Passed | Wrote | AddedTimes | AddedBytes =>
      sendCnt c - recvCnt c + b < 5 * b
  end.

(** The oracle of a transport whose every write succeeds. *)
Definition always_ok : write_oracle := fun _ _ => None.

(** A connection as [Run] creates it: [&Conn{Conn: wsc.Conn}]. *)
Definition new_conn (id : nat) : Conn := mkConn id 0 0.

(** The events of one loop body of the worker when nothing interleaves. *)
Definition body_events (b : Z) (c : Conn) (e : option error) : list event :=
  if guard b (sendCnt c) (recvCnt c) then
    match e with
    | None => [WLoadSend; WLoadRecv; WWrite None; WAddTimes; WAddBytes; WAddCnt]
    | Some _ => [WLoadSend; WLoadRecv; WWrite e]
    end
  else [WLoadSend; WLoadRecv].

(** Successive ticks of one worker on one connection with no message
    received in between; [wrs] gives the write oracle of each tick. *)
Fixpoint ticks (wrs : list write_oracle) (br : BenchRate) (conn : Conn)
  : BenchRate * Conn * list WriteCall :=
  match wrs with
  | [] => (br, conn, [])
  | wr :: rest =>
      let '(br1, conn1, log1) := doOnce_conn wr br conn in
      let '(br2, conn2, log2) := ticks rest br1 conn1 in
      (br2, conn2, log1 ++ log2)
  end.

(** The team assignment of [Run]: [cnt++; idx := cnt % len(connTeams);
    connTeams[idx] = append(connTeams[idx], conn)], over the connections in
    the order the map iteration yields them. *)
Fixpoint assign_teams (cnt : nat) (conns : list Conn)
    (connTeams : list (list Conn)) : list (list Conn) :=
  match conns with
  | [] => connTeams
  | conn :: rest =>
      let cnt' := S cnt in
      let idx := (cnt' mod length connTeams)%nat in
      assign_teams cnt' rest (alter (fun team => team ++ [conn]) idx connTeams)
  end.

Definition connTeams (concurrency : nat) (conns : list Conn) : list (list Conn) :=
  assign_teams 0 conns (replicate concurrency []).

End BenchRate.

(** ** Closed-loop mode: package benchecho *)

Module BenchEcho.

Section Session.

(** Go's [float64]: the session only carries such values from the calculator
    and the sampler to the report. *)
Variable float64 : Type.

(** [perf.Calculator] (an external library) as [Report] reads it: four
    counters, a rate and the percentile function [TPN]. *)
Record Calculator := mkCalculator {
  Success : Z;
  Failed : Z;
  Used : Z;
  Min : Z;
  Avg : Z;
  Max : Z;
  TPS : float64;
  TPN : Z -> Z
}.

(** [perf.PSCounter] (external) as [Report] reads it. *)
Record PSCounter := mkPSCounter {
  CPUMin : float64;
  CPUAvg : float64;
  CPUMax : float64;
  MEMRSSMin : Z;
  MEMRSSAvg : Z;
  MEMRSSMax : Z
}.

(** [type BenchEcho struct]. [ConnsMap] and [chConns] hold connection
    identifiers; [chConns] is the buffered channel, oldest first. *)
Record BenchEcho := mkBenchEcho {
  WarmupTimes : Z;
  Total : Z;
  Concurrency : Z;
  Payload : Z;
  Limit : Z;
  Percents : list Z;
  PsInterval : Z;
  ServerPid : Z;
  ConnsMap : list nat;
  pbuffers : list (list byte);
  wbuffers : list (list byte);
  bufferIdx : Z;
  chConns : list nat;
  limitFn : LimitFn
}.

(** [func New(framework, benchmarkTimes, ip, connsMap)] *)
Definition New (benchmarkTimes : Z) (connsMap : list nat) : BenchEcho :=
  mkBenchEcho 0 benchmarkTimes 0 0 0 [] 0 0 connsMap [] [] 0 [] NoLimit.

Definition set_chConns (bm : BenchEcho) (ch : list nat) : BenchEcho :=
  mkBenchEcho (WarmupTimes bm) (Total bm) (Concurrency bm) (Payload bm)
    (Limit bm) (Percents bm) (PsInterval bm) (ServerPid bm) (ConnsMap bm)
    (pbuffers bm) (wbuffers bm) (bufferIdx bm) ch (limitFn bm).

(** The package [mwsbench/protocol] is not among the sources at hand. *)
Variable EncodeClientMessage : Z -> list byte -> list byte.

(** The loop of [init] that fills the two buffer tables, from index [i] on,
    for [n] more rounds: [buffer := make([]byte, bm.Payload);
    rand.Read(buffer); bm.pbuffers[i] = buffer;
    bm.wbuffers[i] = protocol.EncodeClientMessage(websocket.BinaryMessage, buffer)].
    An assignment past the end of a table would panic; the loop runs to
    [len(bm.pbuffers)] and both tables have that length. *)
Fixpoint fill_buffers (stream : nat -> byte) (payload : nat) (n i : nat)
    (pb wb : list (list byte)) : list (list byte) * list (list byte) :=
  match n with
  | O => (pb, wb)
  | S n' =>
      let buffer := rand_Read stream (i * payload) payload in
      fill_buffers stream payload n' (S i)
        (<[i := buffer]> pb)
        (<[i := EncodeClientMessage BinaryMessage buffer]> wb)
  end.

(** [func (bm *BenchEcho) init()] *)
Definition init (env : Env) (bm : BenchEcho) : Result BenchEcho :=
  let nconns := Z.of_nat (length (ConnsMap bm)) in
  let warmupTimes :=
    if WarmupTimes bm <=? 0 then
      let w := mul64 nconns 5 in
      if w >? 2000000 then 2000000 else w
    else WarmupTimes bm in
  let concurrency :=
    if Concurrency bm <=? 0 then mul64 (NumCPU env) 1000 else Concurrency bm in
  let concurrency := if concurrency >? nconns then nconns else concurrency in
  let payload := if Payload bm <=? 0 then 1024 else Payload bm in
  let psInterval := if PsInterval bm <=? 0 then Second else PsInterval bm in
  let percents :=
    if (length (Percents bm) =? 0)%nat then [50; 75; 90; 95; 99]
    else Percents bm in
  let limit :=
    if Limit bm >? 0 then LimiterWait Background (Limit bm) else limitFn bm in
  let '(pb, wb) :=
    fill_buffers (rand_stream env) (Z.to_nat payload) 1024 0
      (replicate 1024 []) (replicate 1024 []) in
  let ch := ConnsMap bm in
  match GetFrameworkPid env with
  | inl e => Fatalf (PidLookupFailed e)
  | inr serverPid =>
      match NewPSCounter env serverPid with
      | Some e => Panic e
      | None =>
          Ok (mkBenchEcho warmupTimes (Total bm) concurrency payload
                (Limit bm) percents psInterval serverPid (ConnsMap bm)
                pb wb (bufferIdx bm) ch limit)
      end
  end.

(** [func (bm *BenchEcho) clean()] *)
Definition clean (bm : BenchEcho) : BenchEcho :=
  mkBenchEcho (WarmupTimes bm) (Total bm) (Concurrency bm) (Payload bm)
    (Limit bm) (Percents bm) (PsInterval bm) (ServerPid bm) (ConnsMap bm)
    (pbuffers bm) [] 0 [] NoLimit.

(** [func (bm *BenchEcho) getBuffers() ([]byte, []byte)]; [r] is what
    [rand.Intn(len(bm.wbuffers))] returns. [None] is a run-time panic: an
    empty table ([Intn] of 0, division by 0) or an index past [pbuffers]. *)
Definition getBuffers (bm : BenchEcho) (r : Z) : option (list byte * list byte) :=
  let n := wrapu32 (Z.of_nat (length (wbuffers bm))) in
  if n =? 0 then None
  else
    let idx := Z.to_nat (wrapu32 r mod n) in
    match pbuffers bm !! idx, wbuffers bm !! idx with
    | Some p, Some w => Some (p, w)
    | _, _ => None
    end.

(** *** The transport seen from one call *)

(** The error of one [Read]: nil, [io.EOF], or another error. *)
Inductive ReadErr :=
  | RNil
  | REOF
  | RErr (e : error).

(** The reader [NextReader] hands out hands over the message in fragments,
    each with the error that comes with its last byte. A reader whose
    fragments are used up answers [0, io.EOF]. *)
Definition Reader := list (list byte * ReadErr).

(** [reader.Read(p)] with [len(p) = space]: at most [space] bytes of the
    first fragment; what does not fit stays for the next call. *)
Definition Read (reader : Reader) (space : nat) : list byte * ReadErr * Reader :=
  match reader with
  | [] => ([], REOF, [])
  | (data, err) :: rest =>
      if (length data <=? space)%nat then (data, err, rest)
      else (take space data, RNil, (drop space data, err) :: rest)
  end.

(** The bytes a reader hands over up to its end or its first error, and
    that error: what [doOnce] is to find in [readBuffer[:nread]]. *)
Fixpoint received (reader : Reader) : list byte :=
  match reader with
  | [] => []
  | (data, RNil) :: rest => data ++ received rest
  | (data, _) :: _ => data
  end.

Fixpoint read_error (reader : Reader) : option error :=
  match reader with
  | [] => None
  | (_, RNil) :: rest => read_error rest
  | (_, REOF) :: _ => None
  | (_, RErr e) :: _ => Some e
  end.

(** Two byte strings of one length that differ at exactly one index. *)
Definition differ_in_one_byte (x y : list byte) : Prop :=
  length x = length y /\
  exists i, x !! i <> y !! i /\ forall j, j <> i -> x !! j = y !! j.

(** What one call of [doOnce] meets. *)
Record CallEnv := mkCallEnv {
  Intn : Z;                                  (* rand.Intn(len(bm.wbuffers)) *)
  Write : list byte -> option error;         (* conn.UnderlyingConn().Write *)
  rbuffer : list byte;                       (* bm.rbufferPool.Get() *)
  NextReader : error + (Z * Reader)          (* conn.NextReader() *)
}.

Inductive Outcome :=
  | Returned (err : option error)   (* the call returned err *)
  | Blocked                         (* the call does not return *)
  | Panicked.                       (* a run-time panic *)

(** The [for] loop of [doOnce] that reads the message. [rlen] is
    [len( *rbuffer)]. The pooled slice [*rbuffer] shares its array with
    [readBuffer] until the first [append] copies it, and no read writes below
    [rlen] after that: [*rbuffer] is the first [rlen] bytes of [readBuffer]
    throughout. The result is the error returned from inside the loop, if
    any, with [readBuffer] and [nread]; [None] when [fuel] rounds do not
    reach the end of the loop. *)
Fixpoint read_loop (fuel : nat) (rlen : nat) (reader : Reader)
    (readBuffer : list byte) (nread : nat)
  : option (option error * list byte * nat) :=
  match fuel with
  | O => None
  | S fuel' =>
      let readBuffer :=
        if (nread =? length readBuffer)%nat
        then readBuffer ++ take rlen readBuffer
        else readBuffer in
      let '(data, err, reader') := Read reader (length readBuffer - nread) in
      let readBuffer :=
        take nread readBuffer ++ data
          ++ drop (nread + length data) readBuffer in
      let nread := (nread + length data)%nat in
      match err with
      | REOF => Some (None, readBuffer, nread)
      | RErr e => Some (Some e, readBuffer, nread)
      | RNil => read_loop fuel' rlen reader' readBuffer nread
      end
  end.

(** Rounds after which the loop has ended on any reader, when [rlen > 0]. *)
Fixpoint reader_size (reader : Reader) : nat :=
  match reader with
  | [] => 0
  | (data, _) :: rest => S (length data + reader_size rest)
  end.

(** [func (bm *BenchEcho) doOnce() error]. The result is the outcome, the
    frames written to the connection and the session afterwards. The
    connection goes back to [chConns] on every return ([defer]); the read
    buffer goes back to the pool, which is part of [CallEnv]. *)
Definition doOnce (bm : BenchEcho) (env : CallEnv)
  : Outcome * list (list byte) * BenchEcho :=
  match chConns bm with
  | [] => (Blocked, [], bm)
  | conn :: waiting =>
      let back := set_chConns bm (waiting ++ [conn]) in
      (* bm.limitFn() *)
      match getBuffers bm (Intn env) with
      | None => (Panicked, [], back)
      | Some (pbuffer, wbuffer) =>
          match Write env wbuffer with
          | Some e => (Returned (Some e), [wbuffer], back)
          | None =>
              match NextReader env with
              | inl e => (Returned (Some e), [wbuffer], back)
              | inr (mt, reader) =>
                  let rlen := length (rbuffer env) in
                  match read_loop (S (reader_size reader)) rlen reader
                          (rbuffer env) 0 with
                  | None => (Blocked, [wbuffer], set_chConns bm waiting)
                  | Some (Some e, _, _) => (Returned (Some e), [wbuffer], back)
                  | Some (None, readBuffer, nread) =>
                      if negb (mt =? BinaryMessage) then
                        (Returned (Some "invalid message type"%string),
                         [wbuffer], back)
                      else if negb (bytes_Equal pbuffer (take nread readBuffer)) then
                        (Returned (Some "respons data is not equal to origin"%string),
                         [wbuffer], back)
                      else (Returned None, [wbuffer], back)
                  end
              end
          end
      end
  end.

(** The four ways a call fails, for the payload [p] and the frame [w] it
    picked: the write fails; or the read fails, in [NextReader] or in a
    [Read]; or the message is not binary; or its bytes are not [p]. *)
Definition call_fails (p w : list byte) (env : CallEnv) : Prop :=
  Write env w <> None \/
  match NextReader env with
  | inl _ => True
  | inr (mt, reader) =>
      read_error reader <> None \/ mt <> BinaryMessage \/ received reader <> p
  end.

(** The error of a call that gets through [getBuffers] with [p] and [w],
    stated on what the reader hands over instead of on the read buffer. *)
Definition call_result (p w : list byte) (env : CallEnv) : option error :=
  match Write env w with
  | Some e => Some e
  | None =>
      match NextReader env with
      | inl e => Some e
      | inr (mt, reader) =>
          match read_error reader with
          | Some e => Some e
          | None =>
              if negb (mt =? BinaryMessage)
              then Some "invalid message type"%string
              else if negb (bytes_Equal p (received reader))
              then Some "respons data is not equal to origin"%string
              else None
          end
      end
  end.

(** [report.BenchEchoReport], as the struct literal in [Report] fills it. *)
Record BenchEchoReport := mkReport {
  r_Connections : Z;
  r_Concurrency : Z;
  r_Payload : Z;
  r_Total : Z;
  r_Success : Z;
  r_Failed : Z;
  r_Used : Z;
  r_CPUMin : float64;
  r_CPUAvg : float64;
  r_CPUMax : float64;
  r_MEMRSSMin : Z;
  r_MEMRSSAvg : Z;
  r_MEMRSSMax : Z;
  r_TPS : float64;
  r_Min : Z;
  r_Avg : Z;
  r_Max : Z;
  r_TP50 : Z;
  r_TP75 : Z;
  r_TP90 : Z;
  r_TP95 : Z;
  r_TP99 : Z
}.

(** [func (bm *BenchEcho) Report() report.Report] *)
Definition Report (bm : BenchEcho) (calc : Calculator) (ps : PSCounter)
  : BenchEchoReport :=
  mkReport (Z.of_nat (length (ConnsMap bm))) (Concurrency bm) (Payload bm)
    (Total bm) (Success calc) (Failed calc) (Used calc)
    (CPUMin ps) (CPUAvg ps) (CPUMax ps)
    (MEMRSSMin ps) (MEMRSSAvg ps) (MEMRSSMax ps)
    (TPS calc) (Min calc) (Avg calc) (Max calc)
    (TPN calc 50) (TPN calc 75) (TPN calc 90) (TPN calc 95) (TPN calc 99).

(** The latency percentiles a report holds, each with its rank. *)
Definition report_percentiles (r : BenchEchoReport) : list (Z * Z) :=
  [(50, r_TP50 r); (75, r_TP75 r); (90, r_TP90 r); (95, r_TP95 r);
   (99, r_TP99 r)].

End Session.

End BenchEcho.

(** ** The order of events in [Run] *)

Module Sched.

(** The calls of [Run] whose order matters, as events. [Slept] is the return
    of [time.Sleep(PsInterval)]. *)
Inductive label :=
  | Init              (* bm.init() *)
  | Warmup            (* bm.Calculator.Warmup(...) *)
  | PsStart           (* PsCounter.Start(...) *)
  | Slept             (* time.Sleep(PsInterval) has returned *)
  | Benchmark_begin   (* bm.Calculator.Benchmark(...) is entered *)
  | Benchmark_end     (* bm.Calculator.Benchmark(...) returns *)
  | DoOnce            (* br.doOnce(conns) on a tick *)
  | PsStop            (* PsCounter.Stop() *)
  | Clean.            (* the deferred clean() *)

#[export] Instance label_eq_dec : EqDecision label.
Proof. solve_decision. Defined.
#[export] Instance chan_eq_dec : EqDecision chan.
Proof. solve_decision. Defined.

(** The statements of a goroutine. *)
#[local] Set Warnings "-register-all".
Inductive action :=
  | Call (l : label)                 (* a call that returns; event l *)
  | Sleep                            (* time.Sleep(PsInterval); event Slept *)
  | Close (c : chan)                 (* close(c) *)
  | Recv (c : chan)                  (* <-c, on a channel that is only closed *)
  | Go (body : list action)          (* go func() { body }() *)
  | AfterFunc (body : list action)   (* time.AfterFunc(d, func() { body }) *)
  | WgAdd                            (* wg.Add(1) *)
  | WgDone                           (* wg.Done() *)
  | WgWait                           (* wg.Wait() *)
  | TickLoop (c : chan) (body : list action).
      (* for { select { case <-c: return; case <-ticker.C: body } } *)

(** The goroutines still running, the closed channels, the wait group counter
    and the events so far, oldest first. *)
Record state := mkState {
  threads : list (list action);
  closed : list chan;
  wg : nat;
  trace : list label
}.

(** One step of goroutine [i]. [tick] chooses the branch of a [select] when
    the ticker has fired: [true] takes the tick. [None] when the goroutine
    has ended or cannot move: a receive on an open channel, a wait on a
    non-zero wait group. *)
Definition step (st : state) (i : nat) (tick : bool) : option state :=
  match threads st !! i with
  | Some (a :: rest) =>
      let upd t := <[i := t]> (threads st) in
      match a with
      | Call l =>
          Some (mkState (upd rest) (closed st) (wg st) (trace st ++ [l]))
      | Sleep =>
          Some (mkState (upd rest) (closed st) (wg st) (trace st ++ [Slept]))
      | Close c =>
          Some (mkState (upd rest) (c :: closed st) (wg st) (trace st))
      | Recv c =>
          if bool_decide (c ∈ closed st)
          then Some (mkState (upd rest) (closed st) (wg st) (trace st))
          else None
      | Go body | AfterFunc body =>
          Some (mkState (upd rest ++ [body]) (closed st) (wg st) (trace st))
      | WgAdd => Some (mkState (upd rest) (closed st) (S (wg st)) (trace st))
      | WgDone => Some (mkState (upd rest) (closed st) (pred (wg st)) (trace st))
      | WgWait =>
          if (wg st =? 0)%nat
          then Some (mkState (upd rest) (closed st) (wg st) (trace st))
          else None
      | TickLoop c body =>
          if tick then
            Some (mkState (upd (body ++ TickLoop c body :: rest))
                    (closed st) (wg st) (trace st))
          else if bool_decide (c ∈ closed st)
          then Some (mkState (upd rest) (closed st) (wg st) (trace st))
          else None
      end
  | _ => None
  end.

(** A schedule names the goroutine that moves at each step. *)
Fixpoint exec (st : state) (sched : list (nat * bool)) : option state :=
  match sched with
  | [] => Some st
  | (i, tick) :: rest =>
      match step st i tick with
      | Some st' => exec st' rest
      | None => None
      end
  end.

Definition start (main : list action) : state := mkState [main] [] 0 [].

(** The goroutine both [Run]s start for the sampler. *)
Definition sampler : list action :=
  [Call PsStart; Sleep; Close chCounterStart].

(** [func (bm *BenchEcho) Run()] *)
Definition echo_Run : list action :=
  [Call Init; Call Warmup; Go sampler;
   Call Benchmark_begin; Call Benchmark_end;
   Recv chCounterStart; Call PsStop; Call Clean].

(** The worker goroutine of [BenchRate.Run], with its deferred [wg.Done()]. *)
Definition worker : list action := [TickLoop done [Call DoOnce]; WgDone].

(** [func (br *BenchRate) Run()] with [br.Concurrency = concurrency]. *)
Definition rate_Run (concurrency : nat) : list action :=
  [Call Init; Go sampler; AfterFunc [Close done]]
  ++ concat (replicate concurrency [WgAdd; Go worker])
  ++ [WgWait; Recv chCounterStart; Call PsStop; Call Clean].

(** Every [b] in the trace has an [a] before it. *)
Definition precedes (a b : label) (tr : list label) : Prop :=
  forall t1 t2, tr = t1 ++ b :: t2 -> a ∈ t1.

(** *** A static check for "a before b"

    A goroutine knows that [a] has happened once it has emitted [a] itself
    or received from the channel [c], provided [c] is closed only by
    goroutines that know; a goroutine started by one that knows, knows.
    [okL k p] checks that program [p], run with knowledge [k], emits [b] and
    closes [c] only when it knows. *)
Section Check.
Variables (a b : label) (c : chan).

Definition emits (x : action) : option label :=
  match x with
  | Call l => Some l
  | Sleep => Some Slept
  | _ => None
  end.

Definition gives (x : action) : bool :=
  match x with
  | Call l => bool_decide (l = a)
  | Sleep => bool_decide (Slept = a)
  | Recv c' => bool_decide (c' = c)
  | _ => false
  end.

Fixpoint okA (k : bool) (x : action) {struct x} : bool :=
  match x with
  | Call l => negb (bool_decide (l = b)) || k
  | Sleep => negb (bool_decide (Slept = b)) || k
  | Close c' => negb (bool_decide (c' = c)) || k
  | Go body | AfterFunc body | TickLoop _ body =>
      (fix okL (k : bool) (p : list action) {struct p} : bool :=
         match p with
         | [] => true
         | y :: r => okA k y && okL (k || gives y) r
         end) k body
  | Recv _ | WgAdd | WgDone | WgWait => true
  end.

Fixpoint okL (k : bool) (p : list action) {struct p} : bool :=
  match p with
  | [] => true
  | y :: r => okA k y && okL (k || gives y) r
  end.

(** What the check maintains along a run: whoever closes [c] knows, every
    goroutine passes the check with what the trace tells, and so far every
    [b] came after an [a]. *)
Definition knows (tr : list label) : bool := bool_decide (a ∈ tr).

Definition Safe (st : state) : Prop :=
  (c ∈ closed st -> a ∈ trace st) /\
  Forall (fun t => okL (knows (trace st)) t = true) (threads st) /\
  precedes a b (trace st).

End Check.

End Sched.

(** ** The goroutines of [BenchRate.Run] *)

Module RateRun.
Import Sched.

(** What is left of [Run] once [wg.Wait()] has returned. *)
Definition after_wait : list action :=
  [Recv chCounterStart; Call PsStop; Call Clean].

(** The loop of [Run] that starts the workers, with [m] rounds to go, and
    what follows it. *)
Definition start_workers (m : nat) : list action :=
  concat (replicate m [WgAdd; Go worker]) ++ WgWait :: after_wait.

(** The main goroutine before that loop. *)
Definition prefixes (n : nat) : list (list action) :=
  [ [Call Init; Go sampler; AfterFunc [Close done]] ++ start_workers n;
    [Go sampler; AfterFunc [Close done]] ++ start_workers n;
    [AfterFunc [Close done]] ++ start_workers n ].

(** The main goroutine after [wg.Wait()]. *)
Definition tails : list (list action) :=
  [ after_wait; [Call PsStop; Call Clean]; [Call Clean]; [] ].

(** The sampler goroutine and the function of [time.AfterFunc], at each of
    their statements. *)
Definition helpers : list (list action) :=
  [ sampler; [Sleep; Close chCounterStart]; [Close chCounterStart];
    [Close done]; [] ].

(** A worker that has not yet called [wg.Done()]: in its [select], in
    [doOnce], or after the loop. *)
Definition workers : list (list action) :=
  [ worker; Call DoOnce :: worker; [WgDone] ].

(** A goroutine that still has its [wg.Done()] before it. *)
Definition holds_wg (t : list action) : bool :=
  existsb (fun x => match x with WgDone => true | _ => false end) t.

Definition live_workers (ts : list (list action)) : nat :=
  length (List.filter holds_wg ts).

(** The invariant of [Run]: the wait group counts the workers that have not
    called [wg.Done()], one more between [wg.Add(1)] and the [go] statement;
    once [wg.Wait()] has returned no worker is left. *)
Definition Counted (n : nat) (st : state) : Prop :=
  exists main others,
    threads st = main :: others /\
    Forall (fun t => In t helpers \/ In t workers) others /\
    ((In main (prefixes n) /\ wg st = live_workers others)
     \/ (exists m, main = start_workers m /\ wg st = live_workers others)
     \/ (exists m, main = Go worker :: start_workers m /\
                   wg st = S (live_workers others))
     \/ (In main tails /\ Forall (fun t => In t helpers) others)).

(** [wg.Wait()] has returned and only the sampler and the timer function
    may still run. *)
Definition Waited (st : state) : Prop :=
  exists main others,
    threads st = main :: others /\ In main tails /\
    Forall (fun t => In t helpers) others.

End RateRun.

(** ** Stand-ins for examples

    Concrete values on which the definitions above are run in the examples
    below. The two functions stand in for the package [protocol]; no
    theorem about the sessions depends on them. *)

Module Examples.

(** A small unmasked binary frame: opcode byte, length byte, payload. *)
Definition frame_example (mt : Z) (payload : list byte) : list byte :=
  (if mt =? BinaryMessage then x82 else x81)
    :: nth (length payload) [x00; x01; x02; x03; x04] xff :: payload.

(** As many frames as the rate and the byte ceiling allow, at least one. *)
Definition batch_example (message : list byte) (rate maxBytes : Z)
  : list byte * Z * Z :=
  let n := Z.max 1 (Z.min rate (maxBytes / Z.max 1 (Z.of_nat (length message)))) in
  (concat (replicate (Z.to_nat n) message), n, rate / n).

Definition env_example : Env :=
  mkEnv 8 (fun _ => x2a) (inr 4242) (fun _ => None).



(** The done signal of a run that ends at instant 5. *)
Definition done_at_5 : closings :=
  fun c => match c with done => Some 5 | chCounterStart => None end.

(** An open-loop session after [init] with a batch of two 1-byte frames. *)
Definition br_example : BenchRate.BenchRate :=
  BenchRate.mkBenchRate (10 * Second) 1 100 1 0 Second 4242 [0%nat] [x2a] []
    NoLimit 2 [x82; x01; x2a; x82; x01; x2a] 50 0 0 0 0.

(** An open-loop configuration with one connection, one message of one byte
    per second and a send limit of 10. *)
Definition br_limited : BenchRate.BenchRate :=
  BenchRate.mkBenchRate (10 * Second) 1 1 1 10 Second 0 [0%nat] [] []
    NoLimit 0 [] 0 0 0 0 0.

(** The same with a send limit of 2. *)
Definition br_limit2 : BenchRate.BenchRate :=
  BenchRate.mkBenchRate (10 * Second) 1 1 1 2 Second 0 [0%nat] [] []
    NoLimit 0 [] 0 0 0 0 0.

(** A closed-loop session with one payload and its frame, one idle
    connection. *)
Definition bm_example : BenchEcho.BenchEcho :=
  BenchEcho.mkBenchEcho 5 1000 1 1 0 [50; 75; 90; 95; 99] Second 4242 [0%nat]
    [[x2a]] [[x82; x01; x2a]] 0 [0%nat] NoLimit.

(** The same session with three idle connections. *)
Definition bm_three : BenchEcho.BenchEcho :=
  BenchEcho.mkBenchEcho 5 1000 1 1 0 [50; 75; 90; 95; 99] Second 4242
    [0; 1; 2]%nat [[x2a]] [[x82; x01; x2a]] 0 [0; 1; 2]%nat NoLimit.

(** The peer answers with a binary message of one byte, [x2b] for [x2a]. *)
Definition one_byte_off : BenchEcho.CallEnv :=
  BenchEcho.mkCallEnv 0 (fun _ => None) [x00]
    (inr (BinaryMessage, [([x2b], BenchEcho.REOF)])).

(** A closed-loop configuration with three connections, payloads of two
    bytes and nothing else set; the same with one requested percentile, 10. *)
Definition bm_configured : BenchEcho.BenchEcho :=
  BenchEcho.mkBenchEcho 0 1000 0 2 0 [] 0 0 [0; 1; 2]%nat [] [] 0 []
    NoLimit.

Definition bm_p10 : BenchEcho.BenchEcho :=
  BenchEcho.mkBenchEcho 0 1000 0 2 0 [10] 0 0 [0; 1; 2]%nat [] [] 0 []
    NoLimit.

End Examples.

(** ** The echoing server: frameworks/nbio_std and frameworks/nbio_mixed *)

Module Server.

(** The handler both servers register with [upgrader.OnMessagePtr]:
    [c.WriteMessage(messageType, *pdata)]. The result is the message written
    back on the connection. *)
Definition OnMessage (messageType : Z) (data : list byte) : Z * list byte :=
  (messageType, data).

(** [frameworks.Listen("tcp", addr)] answers with a listener or an error. *)
Definition listen_oracle (listener : Type) := string -> error + listener.

(** How [startServers] of nbio_std ends: the listeners it returns, or the
    fatal "Listen failed" on the first address that cannot be listened on.
    Either way [served] lists the listeners a serving goroutine was started
    for, and [asked] the addresses [Listen] was called on. *)
Record started (listener : Type) := mkStarted {
  result : error + list listener;
  served : list listener;
  asked : list string
}.
Arguments mkStarted {listener} result served asked.
Arguments result {listener} s.
Arguments served {listener} s.
Arguments asked {listener} s.

(** The loop of [startServers]: [lns] are the listeners appended so far. *)
Fixpoint startServers_from {listener : Type} (listen : listen_oracle listener)
    (addrs : list string) (lns : list listener) (asked : list string)
  : started listener :=
  match addrs with
  | [] => mkStarted (inr lns) lns asked
  | addr :: rest =>
      match listen addr with
      | inl err => mkStarted (inl err) lns (asked ++ [addr])
      | inr ln => startServers_from listen rest (lns ++ [ln]) (asked ++ [addr])
      end
  end.

(** [func startServers(addrs []string) []net.Listener] of nbio_std *)
Definition startServers {listener : Type} (listen : listen_oracle listener)
    (addrs : list string) : started listener :=
  startServers_from listen addrs [] [].

End Server.

(** ** More of the open-loop session *)

Module RateMore.
Import BenchRate.

(** [func (br *BenchRate) clean()] *)
Definition clean (br : BenchRate) : BenchRate :=
  mkBenchRate (Duration br) (Concurrency br) (SendRate br) (Payload br)
    (SendLimit br) (PsInterval br) (ServerPid br) (ConnsMap br) (wbuffer br)
    [] NoLimit (batch br) (batchBuffer br) (tickRate br)
    (sendTimes br) (sendBytes br) (recvTimes br) (recvBytes br).

(** The period of a worker's ticker in [Run]:
    [time.Second / time.Duration(br.tickRate)], a truncating division. *)
Definition tick_period (br : BenchRate) : Z := Z.quot Second (tickRate br).

Section Report.
Variable float64 : Type.

(** [report.BenchRateReport], as the struct literal in [Report] fills it. *)
Record BenchRateReport := mkReport {
  r_Duration : Z;
  r_Connections : Z;
  r_SendRate : Z;
  r_Payload : Z;
  r_SendTimes : Z;
  r_SendBytes : Z;
  r_RecvTimes : Z;
  r_RecvBytes : Z;
  r_CPUMin : float64;
  r_CPUAvg : float64;
  r_CPUMax : float64;
  r_MEMRSSMin : Z;
  r_MEMRSSAvg : Z;
  r_MEMRSSMax : Z
}.

(** [func (br *BenchRate) Report() report.Report] *)
Definition Report (br : BenchRate) (ps : BenchEcho.PSCounter float64)
  : BenchRateReport :=
  mkReport (Duration br) (Z.of_nat (length (ConnsMap br))) (SendRate br)
    (Payload br) (sendTimes br) (sendBytes br) (recvTimes br) (recvBytes br)
    (BenchEcho.CPUMin float64 ps) (BenchEcho.CPUAvg float64 ps)
    (BenchEcho.CPUMax float64 ps) (BenchEcho.MEMRSSMin float64 ps)
    (BenchEcho.MEMRSSAvg float64 ps) (BenchEcho.MEMRSSMax float64 ps).

End Report.

(** A counter summed over the connections. *)
Definition total (f : Conn -> Z) (conns : list Conn) : Z :=
  foldr Z.add 0 (f <$> conns).

(** The calls that change the counters of a session with connections
    [conns]: the loop body of [doOnce] on connection number [i], and
    [onMessage] for a message that arrived on it. A number past the end
    names no connection: nothing is called. *)
Inductive call :=
  | Send (i : nat) (wr : write_oracle)
  | Message (i : nat) (mt : Z) (b : list byte).

Definition apply_call (s : BenchRate * list Conn) (c : call)
  : BenchRate * list Conn :=
  let '(br, conns) := s in
  match c with
  | Send i wr =>
      match conns !! i with
      | Some conn =>
          let '(br', conn', _) := doOnce_conn wr br conn in
          (br', <[i := conn']> conns)
      | None => s
      end
  | Message i mt b =>
      match conns !! i with
      | Some conn =>
          let '(br', conn') := onMessage br conn mt b in
          (br', <[i := conn']> conns)
      | None => s
      end
  end.

Definition apply_calls (s : BenchRate * list Conn) (cs : list call)
  : BenchRate * list Conn :=
  fold_left apply_call cs s.

(** One tick on a connection whose peer is the echoing server: the loop body
    of [doOnce], then, when the write went through, [onMessage] for the
    server's reply to each of the [batch] messages of the batch, each a
    binary message carrying [wbuffer]. *)
Definition deliver (br : BenchRate) (conn : Conn) (msgs : list (Z * list byte))
  : BenchRate * Conn :=
  fold_left (fun s m => onMessage s.1 s.2 m.1 m.2) msgs (br, conn).

Definition echo_round (wr : write_oracle) (br : BenchRate) (conn : Conn)
  : BenchRate * Conn :=
  let '(br1, conn1, log) := doOnce_conn wr br conn in
  match wr (conn_id conn) (batchBuffer br) with
  | None =>
      if below_threshold br conn then
        deliver br1 conn1
          (replicate (Z.to_nat (batch br))
             (Server.OnMessage BinaryMessage (wbuffer br)))
      else (br1, conn1)
  | Some _ => (br1, conn1)
  end.

Fixpoint echo_rounds (n : nat) (wr : write_oracle) (br : BenchRate)
    (conn : Conn) : BenchRate * Conn :=
  match n with
  | O => (br, conn)
  | S n' =>
      let '(br1, conn1) := echo_round wr br conn in
      echo_rounds n' wr br1 conn1
  end.

(** The connections among the first [m] after the [cnt]-th that [Run] puts
    into team [i] of [c] teams. *)
Fixpoint hits (c i cnt m : nat) : nat :=
  match m with
  | O => 0
  | S m' =>
      (if (S cnt mod c =? i)%nat then 1 else 0)%nat + hits c i (S cnt) m'
  end.

(** The session counters agree with the connection counters and with each
    other, in [int64] arithmetic. *)
Definition Agree (s : BenchRate * list Conn) : Prop :=
  sendTimes s.1 = wrap64 (total sendCnt s.2) /\
  recvTimes s.1 = wrap64 (total recvCnt s.2) /\
  sendBytes s.1 = wrap64 (Payload s.1 * sendTimes s.1) /\
  recvBytes s.1 = wrap64 (Z.of_nat (length (wbuffer s.1)) * recvTimes s.1).

End RateMore.

(** ** More of the closed-loop session *)

Module EchoMore.
Import BenchEcho.

(** Successive calls of [doOnce], one after the other, each with what it
    meets: the outcomes, and the session after the last call. *)
Fixpoint calls (bm : BenchEcho) (envs : list CallEnv)
  : list Outcome * BenchEcho :=
  match envs with
  | [] => ([], bm)
  | env :: rest =>
      let '(out, _, bm1) := doOnce bm env in
      let '(outs, bm2) := calls bm1 rest in
      (out :: outs, bm2)
  end.

(** A call finds a payload to send and a pooled buffer to read into. *)
Definition ready (bm : BenchEcho) (env : CallEnv) : Prop :=
  is_Some (getBuffers bm (Intn env)) /\ (0 < length (rbuffer env))%nat.

(** A reader that hands over the given chunks one by one, then [io.EOF]. *)
Definition chunked (chunks : list (list byte)) : Reader :=
  ((fun data => (data, RNil)) <$> chunks) ++ [([], REOF)].

(** *** The calculator's tally

    [perf.Calculator] belongs to an external library and is not among the
    sources. By its contract [Benchmark(concurrency, times, executor,
    percents)] calls [executor] [times] times, drops the error each call
    returns and counts the call once: in [Success] when the error is nil, in
    [Failed] otherwise. The latency statistics it derives from the timings
    are left as they are here. *)
Section Counting.
Variable float64 : Type.

(** The accounting of one call that returned [err]. *)
Definition count (calc : Calculator float64) (err : option error)
  : Calculator float64 :=
  match err with
  | None =>
      mkCalculator float64 (add64 (Success float64 calc) 1)
        (Failed float64 calc) (Used float64 calc) (Min float64 calc)
        (Avg float64 calc) (Max float64 calc) (TPS float64 calc)
        (TPN float64 calc)
  | Some _ =>
      mkCalculator float64 (Success float64 calc)
        (add64 (Failed float64 calc) 1) (Used float64 calc)
        (Min float64 calc) (Avg float64 calc) (Max float64 calc)
        (TPS float64 calc) (TPN float64 calc)
  end.

(** [bm.Calculator.Benchmark(bm.Concurrency, bm.Total, bm.doOnce, ...)] with
    the calls of [doOnce] made one after the other, each with what it
    meets. A call that does not return, or panics, ends the tally. *)
Fixpoint Benchmark (calc : Calculator float64) (bm : BenchEcho)
    (envs : list CallEnv) : Calculator float64 * BenchEcho :=
  match envs with
  | [] => (calc, bm)
  | env :: rest =>
      match doOnce bm env with
      | (Returned err, _, bm1) => Benchmark (count calc err) bm1 rest
      | (_, _, bm1) => (calc, bm1)
      end
  end.

End Counting.

(** The call returns an error. *)
Definition fails (bm : BenchEcho) (env : CallEnv) : bool :=
  match (doOnce bm env).1.1 with
  | Returned (Some _) => true
  | _ => false
  end.

(** The calls among [envs] that return an error. *)
Definition failures (bm : BenchEcho) (envs : list CallEnv) : nat :=
  length (List.filter (fails bm) envs).

End EchoMore.

(** ** All the runs of a program of goroutines *)

Module SchedMore.
Import Sched.

Section Returns.

(** The calls of [Run] need not come back: [init] ends the process on a
    failed look-up ([Fatalf]) or panics, [Warmup] and [Benchmark] come back
    only if every [doOnce] does, and the sampler's calls belong to an
    external library. [returns l] says whether the call with event [l]
    comes back; a goroutine at a call that does not stays where it is. *)
Variable returns : label -> bool.

Definition step_ret (st : state) (i : nat) (tick : bool) : option state :=
  match threads st !! i with
  | Some (x :: _) =>
      match emits x with
      | Some l => if returns l then step st i tick else None
      | None => step st i tick
      end
  | _ => None
  end.

Fixpoint exec_ret (st : state) (sched : list (nat * bool)) : option state :=
  match sched with
  | [] => Some st
  | (i, tick) :: rest =>
      match step_ret st i tick with
      | Some st' => exec_ret st' rest
      | None => None
      end
  end.

(** The steps a state can take. The branch of a [select] matters only for a
    goroutine that stands at a tick loop. *)
Definition at_loop (st : state) (i : nat) : bool :=
  match threads st !! i with
  | Some (TickLoop _ _ :: _) => true
  | _ => false
  end.

Definition succs (st : state) : list state :=
  omap (fun i => step_ret st i false) (seq 0 (length (threads st)))
  ++ omap (fun i => if at_loop st i then step_ret st i true else None)
       (seq 0 (length (threads st))).

(** The states [k] steps away. *)
Fixpoint reach (k : nat) (st : state) : list state :=
  match k with
  | O => [st]
  | S k' => flat_map (reach k') (succs st)
  end.

(** Every goroutine has returned. *)
Definition finished (st : state) : bool :=
  forallb (fun t => match t with [] => true | _ => false end) (threads st).

(** A state in which [Run] has returned in good order: all goroutines are
    done and the events are the eight of an echo run, the sampler stopped
    and the session cleaned last. *)
Definition echo_done (st : state) : bool :=
  finished st
  && bool_decide (drop 6 (trace st) = [PsStop; Clean])
  && bool_decide (length (trace st) = 8%nat).

(** Some goroutine stands at a call that does not come back. *)
Definition at_call (st : state) : bool :=
  existsb (fun t => match t with
                    | x :: _ => match emits x with
                                | Some l => negb (returns l)
                                | None => false
                                end
                    | [] => false
                    end) (threads st).

(** Up to [k] steps away, a state that cannot move is at the end of [Run] or
    holds a goroutine at a call that does not come back. *)
Fixpoint all_live (k : nat) (sts : list state) : bool :=
  forallb (fun st => match succs st with
                     | [] => echo_done st || at_call st
                     | _ => true
                     end) sts
  && match k with
     | O => true
     | S k' => all_live k' (flat_map succs sts)
     end.

(** The search of all the runs of [BenchEcho.Run]. *)
Definition check : bool :=
  all_live 11 [start echo_Run]
  && match reach 12 (start echo_Run) with [] => true | _ => false end.

End Returns.

(** The ways the calls can behave, one bit per event. *)
Definition labels : list label :=
  [Init; Warmup; PsStart; Slept; Benchmark_begin; Benchmark_end; DoOnce;
   PsStop; Clean].

Definition index (l : label) : nat :=
  match l with
  | Init => 0 | Warmup => 1 | PsStart => 2 | Slept => 3
  | Benchmark_begin => 4 | Benchmark_end => 5 | DoOnce => 6
  | PsStop => 7 | Clean => 8
  end.

Definition of_bits (bs : list bool) : label -> bool :=
  fun l => nth (index l) bs true.

Fixpoint all_bits (n : nat) : list (list bool) :=
  match n with
  | O => [[]]
  | S n' => flat_map (fun bs => [true :: bs; false :: bs]) (all_bits n')
  end.

End SchedMore.

(** * Properties *)

(** ** Machine integers *)

Lemma wrap64_id z : in_int64 z -> wrap64 z = z.
Proof.
  unfold in_int64, int64_min, int64_max, wrap64. intros Hz.
  rewrite Z.mod_small; lia.
Qed.

Lemma wrap64_range z : in_int64 (wrap64 z).
Proof.
  unfold in_int64, int64_min, int64_max, wrap64.
  pose proof (Z.mod_pos_bound (z + 2 ^ 63) (2 ^ 64)). lia.
Qed.

Lemma add64_exact a b : in_int64 (a + b) -> add64 a b = a + b.
Proof. apply wrap64_id. Qed.

Lemma sub64_exact a b : in_int64 (a - b) -> sub64 a b = a - b.
Proof. apply wrap64_id. Qed.

Lemma mul64_exact a b : in_int64 (a * b) -> mul64 a b = a * b.
Proof. apply wrap64_id. Qed.


Lemma bytes_Equal_true a b : bytes_Equal a b = true <-> a = b.
Proof. unfold bytes_Equal. apply bool_decide_eq_true. Qed.

Lemma bytes_Equal_false a b : bytes_Equal a b = false <-> a <> b.
Proof. unfold bytes_Equal. apply bool_decide_eq_false. Qed.

(** ** Machine integers, continued *)

Lemma wrap64_same a b k : a = b + k * 2 ^ 64 -> wrap64 a = wrap64 b.
Proof.
  intros ->. unfold wrap64.
  replace (b + k * 2 ^ 64 + 2 ^ 63) with (b + 2 ^ 63 + k * 2 ^ 64) by lia.
  by rewrite Z_mod_plus_full.
Qed.

Lemma wrap64_diff z : exists k, wrap64 z = z + k * 2 ^ 64.
Proof.
  exists (- ((z + 2 ^ 63) / 2 ^ 64)). unfold wrap64.
  pose proof (Z.div_mod (z + 2 ^ 63) (2 ^ 64)). lia.
Qed.

Lemma wrap64_idem z : wrap64 (wrap64 z) = wrap64 z.
Proof. apply wrap64_id, wrap64_range. Qed.

Lemma wrap64_add_l a b : wrap64 (wrap64 a + b) = wrap64 (a + b).
Proof.
  destruct (wrap64_diff a) as [k ->]. apply (wrap64_same _ _ k). lia.
Qed.

Lemma wrap64_add_r a b : wrap64 (a + wrap64 b) = wrap64 (a + b).
Proof.
  destruct (wrap64_diff b) as [k ->]. apply (wrap64_same _ _ k). lia.
Qed.

Lemma wrap64_mul_r a b : wrap64 (a * wrap64 b) = wrap64 (a * b).
Proof.
  destruct (wrap64_diff b) as [k ->]. apply (wrap64_same _ _ (a * k)). lia.
Qed.

(** ** Open-loop mode *)

Ltac int_range := unfold in_int64, int64_min, int64_max in *; lia.

Section RateCounters.
Import BenchRate Examples.

(** *** The guard in exact arithmetic *)

(** With counters that have not wrapped, the guard of [doOnce] is the
    comparison of the outstanding count with four batches. *)
Lemma guard_exact b s r :
  0 <= b -> 5 * b <= int64_max ->
  in_int64 (s - r) -> in_int64 (s - r + b) ->
  guard b s r = true <-> s - r + b < 5 * b.
Proof.
  intros Hb H5 Hsr Hsrb. unfold guard.
  rewrite (sub64_exact s r) by done.
  rewrite add64_exact by done.
  rewrite mul64_exact by int_range.
  rewrite Z.ltb_lt. lia.
Qed.

Lemma below_threshold_guard br conn :
  below_threshold br conn = guard (batch br) (sendCnt conn) (recvCnt conn).
Proof. reflexivity. Qed.

(** *** Invariant of the interleaved machine *)

Lemma Inv_init b id : 0 <= b -> Inv b 0 (mkC (new_conn id) Idle).
Proof. intros Hb. unfold Inv; simpl. lia. Qed.

Lemma Inv_step b k st ev st' :
  0 <= b -> 5 * b <= int64_max -> 0 <= k ->
  (k + 1) * Z.max b 1 <= int64_max ->
  Inv b k st -> step b st ev = Some st' -> Inv b (k + 1) st'.
Proof.
  intros Hb H5 Hk Hmax (Hs & Hr & Hout & Hpc) Hstep.
  destruct st as [c p]. simpl in *.
  assert (Hk1 : k + 1 <= int64_max) by nia.
  assert (Hbk : b * (k + 1) <= int64_max) by nia.
  assert (Hbk0 : b * k <= b * (k + 1)) by nia.
  clear Hmax.
  unfold step in Hstep.
  destruct ev as [| |[e|]| | | |]; destruct p; simpl in Hstep;
    try discriminate; simplify_eq; unfold Inv; simpl;
    try (rewrite add64_exact by int_range); try lia.
  (* WLoadRecv: the guard is evaluated on the value loaded earlier *)
  destruct (guard b (sendCnt c) (recvCnt c)) eqn:Hg; simpl; [|lia].
  apply guard_exact in Hg; int_range.
Qed.

Lemma Inv_run b tr : forall k st st',
  0 <= b -> 5 * b <= int64_max -> 0 <= k ->
  (k + Z.of_nat (length tr)) * Z.max b 1 <= int64_max ->
  Inv b k st -> run b st tr = Some st' ->
  Inv b (k + Z.of_nat (length tr)) st'.
Proof.
  induction tr as [|ev tr IH]; intros k st st' Hb H5 Hk Hmax HI Hrun.
  - simpl in *. simplify_eq. by rewrite Z.add_0_r.
  - simpl in Hrun. destruct (step b st ev) as [st1|] eqn:Hstep; [|done].
    replace (k + Z.of_nat (length (ev :: tr)))
      with ((k + 1) + Z.of_nat (length tr)) in *
      by (simpl length; lia).
    eapply IH; eauto; [lia|].
    eapply Inv_step; eauto. nia.
Qed.

(** *** The machine and [doOnce_conn] agree *)

(** Run without interleaving, the atomic steps of one loop body leave the
    connection as [doOnce_conn] does. *)
Lemma body_events_refine wr br conn :
  run (batch br) (mkC conn Idle)
      (body_events (batch br) conn (wr (conn_id conn) (batchBuffer br)))
  = Some (mkC (doOnce_conn wr br conn).1.2 Idle).
Proof.
  unfold body_events, doOnce_conn. rewrite below_threshold_guard.
  destruct (guard (batch br) (sendCnt conn) (recvCnt conn)) eqn:Hg.
  - destruct (wr (conn_id conn) (batchBuffer br)); simpl; by rewrite Hg.
  - simpl. by rewrite Hg.
Qed.

Lemma doOnce_conn_batch wr br conn :
  batch (doOnce_conn wr br conn).1.1 = batch br.
Proof.
  unfold doOnce_conn.
  destruct (below_threshold br conn); [|done].
  by destruct (wr (conn_id conn) (batchBuffer br)).
Qed.

(** *** A connection at the threshold gets no send *)

Lemma doOnce_conn_blocked wr br conn :
  0 <= batch br -> 5 * batch br <= int64_max ->
  0 <= recvCnt conn -> sendCnt conn + batch br <= int64_max ->
  4 * batch br <= sendCnt conn - recvCnt conn ->
  doOnce_conn wr br conn = (br, conn, []).
Proof.
  intros Hb H5 Hr Hs Hout. unfold doOnce_conn.
  destruct (below_threshold br conn) eqn:Hg; [|done].
  rewrite below_threshold_guard in Hg.
  apply guard_exact in Hg; int_range.
Qed.

Lemma ticks_blocked wrs br conn :
  0 <= batch br -> 5 * batch br <= int64_max ->
  0 <= recvCnt conn -> sendCnt conn + batch br <= int64_max ->
  4 * batch br <= sendCnt conn - recvCnt conn ->
  ticks wrs br conn = (br, conn, []).
Proof.
  intros Hb H5 Hr Hs Hout.
  induction wrs as [|wr wrs IH]; [done|].
  simpl. rewrite doOnce_conn_blocked by done. by rewrite IH.
Qed.

(** *** No response: the send count plateaus *)

(** With no message received, the send count after any number of ticks is a
    whole number [j <= 4] of batches. *)
Lemma ticks_no_response wrs : forall br conn j,
  0 <= batch br -> 5 * batch br <= int64_max ->
  recvCnt conn = 0 -> sendCnt conn = batch br * j -> 0 <= j <= 4 ->
  exists j', j <= j' <= 4 /\
    sendCnt (ticks wrs br conn).1.2 = batch br * j' /\
    recvCnt (ticks wrs br conn).1.2 = 0.
Proof.
  induction wrs as [|wr wrs IH]; intros br conn j Hb H5 Hr Hs Hj.
  - exists j. simpl. auto with lia.
  - simpl.
    assert (Hbj : 0 <= batch br * j <= 4 * batch br) by nia.
    pose proof (doOnce_conn_batch wr br conn) as Hbatch.
    destruct (doOnce_conn wr br conn) as [[br1 conn1] log1] eqn:Hd.
    simpl in Hbatch.
    assert (exists j1, j <= j1 <= 4 /\ sendCnt conn1 = batch br * j1
                       /\ recvCnt conn1 = 0) as (j1 & Hj1 & Hs1 & Hr1).
    { unfold doOnce_conn in Hd. rewrite below_threshold_guard in Hd.
      destruct (guard (batch br) (sendCnt conn) (recvCnt conn)) eqn:Hg.
      - apply guard_exact in Hg; [|done|done|int_range|int_range].
        destruct (wr (conn_id conn) (batchBuffer br)); simplify_eq; simpl.
        + exists j. auto with lia.
        + exists (j + 1). rewrite add64_exact by int_range.
          split; [nia|]. split; [lia|done].
      - simplify_eq. exists j. auto with lia. }
    destruct (IH br1 conn1 j1) as (j' & Hj' & Hs' & Hr');
      try rewrite Hbatch; try done; try lia.
    destruct (ticks wrs br1 conn1) as [[br2 conn2] log2]. simpl in *.
    exists j'. rewrite Hbatch in Hs'. auto with lia.
Qed.

Lemma ticks_always_ok k : forall br conn j,
  0 <= batch br -> 5 * batch br <= int64_max ->
  recvCnt conn = 0 -> sendCnt conn = batch br * j -> 0 <= j <= 4 ->
  sendCnt (ticks (replicate k always_ok) br conn).1.2
  = batch br * Z.min (j + Z.of_nat k) 4.
Proof.
  induction k as [|k IH]; intros br conn j Hb H5 Hr Hs Hj.
  - simpl. rewrite Hs. f_equal. lia.
  - simpl.
    assert (Hbj : 0 <= batch br * j <= 4 * batch br) by nia.
    pose proof (doOnce_conn_batch always_ok br conn) as Hbatch.
    destruct (doOnce_conn always_ok br conn) as [[br1 conn1] log1] eqn:Hd.
    simpl in Hbatch. unfold doOnce_conn in Hd.
    rewrite below_threshold_guard in Hd.
    destruct (guard (batch br) (sendCnt conn) (recvCnt conn)) eqn:Hg.
    + apply guard_exact in Hg; [|done|done|int_range|int_range].
      unfold always_ok in Hd. simplify_eq.
      specialize (IH (set_send br (add64 (sendTimes br) (batch br))
                        (add64 (sendBytes br) (mul64 (batch br) (Payload br))))
                     (set_sendCnt conn (add64 (sendCnt conn) (batch br)))
                     (j + 1)).
      simpl in IH.
      destruct (ticks _ _ _) as [[br2 conn2] log2]. simpl in *.
      rewrite IH; try done.
      * f_equal. lia.
      * rewrite add64_exact by int_range. lia.
      * nia.
    + inversion Hd; subst br1 conn1 log1; clear Hd.
      assert (Hno : ~ (sendCnt conn - recvCnt conn + batch br < 5 * batch br)).
      { intros Hlt. apply guard_exact in Hlt; [congruence|done|done| |];
          int_range. }
      specialize (IH br conn j Hb H5 Hr Hs Hj).
      destruct (ticks _ _ _) as [[br2 conn2] log2]. simpl in *.
      rewrite IH.
      destruct (decide (batch br = 0)) as [Hz|Hnz]; [rewrite Hz; lia|].
      f_equal. nia.
Qed.

(** *** Every connection has exactly one worker *)

Lemma concat_alter_snoc (teams : list (list Conn)) (i : nat) (c : Conn) :
  (i < length teams)%nat ->
  concat (alter (fun team => team ++ [c]) i teams) ≡ₚ concat teams ++ [c].
Proof.
  revert i. induction teams as [|t teams IH]; intros i Hi; simpl in *; [lia|].
  destruct i as [|i]; simpl.
  - rewrite <- !(assoc_L (++)). f_equiv. apply Permutation_app_comm.
  - change (list_alter ?f i teams) with (alter f i teams).
    rewrite IH by lia. by rewrite (assoc_L (++)).
Qed.

(** The teams of [Run] hold every connection once: no connection is
    dropped and none is given to two workers. *)
Lemma connTeams_partition (concurrency : nat) (conns : list Conn) :
  (0 < concurrency)%nat ->
  concat (connTeams concurrency conns) ≡ₚ conns.
Proof.
  intros Hc. unfold connTeams.
  assert (Hgen : forall cs cnt teams, (0 < length teams)%nat ->
            concat (assign_teams cnt cs teams) ≡ₚ concat teams ++ cs).
  { induction cs as [|c cs IH]; intros cnt teams Hlen; simpl.
    - by rewrite (right_id_L [] (++)).
    - rewrite IH by (by rewrite length_alter).
      rewrite concat_alter_snoc by (apply Nat.mod_upper_bound; lia).
      by rewrite <- (assoc_L (++)). }
  rewrite Hgen by (rewrite length_replicate; lia).
  assert (Hnil : forall n, concat (replicate n ([] : list Conn)) = []).
  { induction n; simpl; auto. }
  by rewrite Hnil.
Qed.

(** *** The claims on the open-loop counters *)

(** C1. In open-loop mode the outstanding count [sendCnt - recvCnt] of a
    connection never exceeds five batches, at any point of any interleaving
    of the worker's atomic steps with the receive path (first part); a
    connection that has reached the threshold gets no send from any number of
    ticks while its receive count stands still (second part); and with no
    response at all the send count never passes four batches, which it
    reaches after four ticks when every write succeeds (third and fourth
    part). Counters are taken before any of them wraps. *)
Theorem outstanding_never_exceeds_threshold (br : BenchRate) (id : nat) :
  0 <= batch br -> 5 * batch br <= int64_max ->
  (forall tr st,
      Z.of_nat (length tr) * Z.max (batch br) 1 <= int64_max ->
      run (batch br) (mkC (new_conn id) Idle) tr = Some st ->
      sendCnt (c_conn st) - recvCnt (c_conn st) <= 5 * batch br)
  /\ (forall conn wrs,
      0 <= recvCnt conn -> sendCnt conn + batch br <= int64_max ->
      5 * batch br <= sendCnt conn - recvCnt conn ->
      ticks wrs br conn = (br, conn, []))
  /\ (forall wrs,
      sendCnt (ticks wrs br (new_conn id)).1.2 <= 4 * batch br /\
      recvCnt (ticks wrs br (new_conn id)).1.2 = 0)
  /\ (forall k,
      sendCnt (ticks (replicate k always_ok) br (new_conn id)).1.2
      = batch br * Z.min (Z.of_nat k) 4).
Proof.
  intros Hb H5. repeat split.
  - intros tr st Hlen Hrun.
    pose proof (Inv_run (batch br) tr 0 _ _ Hb H5 (Z.le_refl 0) Hlen
                  (Inv_init _ id Hb) Hrun) as (_ & _ & Hout & _).
    exact Hout.
  - intros conn wrs Hr Hs Hout. apply ticks_blocked; try done. lia.
  - destruct (ticks_no_response wrs br (new_conn id) 0) as (j' & Hj & Hs & _);
      simpl; try done; try lia.
    rewrite Hs. nia.
  - destruct (ticks_no_response wrs br (new_conn id) 0) as (j' & Hj & _ & Hr);
      simpl; try done; lia.
  - intros k.
    rewrite (ticks_always_ok k br (new_conn id) 0); simpl; try done; lia.
Qed.

Lemma outstanding_never_exceeds_threshold_witness :
  0 <= batch br_example /\ 5 * batch br_example <= int64_max /\
  sendCnt (ticks (replicate 7 always_ok) br_example (new_conn 0)).1.2 = 8.
Proof.
  assert (H0 : 0 <= batch br_example) by (simpl; lia).
  assert (H5 : 5 * batch br_example <= int64_max)
    by (unfold int64_max; simpl; lia).
  split; [exact H0|]. split; [exact H5|].
  exact (proj2 (proj2 (proj2
    (outstanding_never_exceeds_threshold br_example 0 H0 H5))) 7%nat).
Defined.

(** C3, as the claim states it, fails. With a batch of two the threshold of
    five batches is 10; a connection with 8 messages outstanding is below
    it and every write would go through, yet the tick issues no write and
    increments nothing. *)
Lemma doOnce_skips_below_five_batches :
  sendCnt (mkConn 0 8 0) - recvCnt (mkConn 0 8 0) < 5 * batch br_example /\
  always_ok 0%nat (batchBuffer br_example) = None /\
  (doOnce_conn always_ok br_example (mkConn 0 8 0)).2 = [] /\
  sendCnt (doOnce_conn always_ok br_example (mkConn 0 8 0)).1.2 = 8 /\
  sendTimes (doOnce_conn always_ok br_example (mkConn 0 8 0)).1.1
    = sendTimes br_example /\
  sendBytes (doOnce_conn always_ok br_example (mkConn 0 8 0)).1.1
    = sendBytes br_example.
Proof. split_and!; reflexivity. Qed.

(** C3, amended. One loop body of [doOnce] issues a write of the batch buffer
    exactly when the guard holds, that is when fewer than four batches are
    outstanding (for counters that have not wrapped), and then exactly one.
    When that write returns no error the connection's sent counter and the
    session's send-count and send-byte counters grow by [batch], [batch]
    and [batch*Payload] (in [int64] arithmetic) and nothing else changes;
    when it returns an error the session and the connection are left as
    they were, the write is not repeated, and the loop goes on with the rest
    of the team. A connection the guard holds back is left as it is and
    nothing is written. *)
Theorem doOnce_counts_only_successful_write
    (wr : write_oracle) (br : BenchRate) (conn : Conn) (rest : list Conn) :
  (0 <= batch br -> 5 * batch br <= int64_max ->
   in_int64 (sendCnt conn - recvCnt conn) ->
   in_int64 (sendCnt conn - recvCnt conn + batch br) ->
     (below_threshold br conn = true
        <-> sendCnt conn - recvCnt conn < 4 * batch br))
  /\ (below_threshold br conn = true ->
      wr (conn_id conn) (batchBuffer br) = None ->
      sendCnt (doOnce_conn wr br conn).1.2 = add64 (sendCnt conn) (batch br) /\
      sendTimes (doOnce_conn wr br conn).1.1
        = add64 (sendTimes br) (batch br) /\
      sendBytes (doOnce_conn wr br conn).1.1
        = add64 (sendBytes br) (mul64 (batch br) (Payload br)) /\
      (doOnce_conn wr br conn).2 = [mkWrite (conn_id conn) (batchBuffer br)] /\
      doOnce_conn wr br conn =
        (mkBenchRate (Duration br) (Concurrency br) (SendRate br) (Payload br)
           (SendLimit br) (PsInterval br) (ServerPid br) (ConnsMap br)
           (wbuffer br) (chConns br) (limitFn br) (batch br) (batchBuffer br)
           (tickRate br)
           (add64 (sendTimes br) (batch br))
           (add64 (sendBytes br) (mul64 (batch br) (Payload br)))
           (recvTimes br) (recvBytes br),
         mkConn (conn_id conn) (add64 (sendCnt conn) (batch br)) (recvCnt conn),
         [mkWrite (conn_id conn) (batchBuffer br)]))
  /\ (below_threshold br conn = true ->
      forall e, wr (conn_id conn) (batchBuffer br) = Some e ->
      doOnce_conn wr br conn = (br, conn, [mkWrite (conn_id conn) (batchBuffer br)])
      /\ doOnce wr br (conn :: rest) =
           ((doOnce wr br rest).1.1, conn :: (doOnce wr br rest).1.2,
            mkWrite (conn_id conn) (batchBuffer br) :: (doOnce wr br rest).2))
  /\ (below_threshold br conn = false ->
      doOnce_conn wr br conn = (br, conn, [])
      /\ doOnce wr br (conn :: rest) =
           ((doOnce wr br rest).1.1, conn :: (doOnce wr br rest).1.2,
            (doOnce wr br rest).2)).
Proof.
  split_and!.
  - intros Hb H5 H1 H2. rewrite below_threshold_guard.
    rewrite (guard_exact (batch br) (sendCnt conn) (recvCnt conn) Hb H5 H1 H2).
    lia.
  - intros Hg Hw. unfold doOnce_conn. rewrite Hg, Hw. by split_and!.
  - intros Hg e Hw.
    assert (Hd : doOnce_conn wr br conn
                 = (br, conn, [mkWrite (conn_id conn) (batchBuffer br)])).
    { unfold doOnce_conn. by rewrite Hg, Hw. }
    split; [exact Hd|].
    simpl. rewrite Hd.
    by destruct (doOnce wr br rest) as [[br2 rest2] log2].
  - intros Hg.
    assert (Hd : doOnce_conn wr br conn = (br, conn, [])).
    { unfold doOnce_conn. by rewrite Hg. }
    split; [exact Hd|].
    simpl. rewrite Hd.
    by destruct (doOnce wr br rest) as [[br2 rest2] log2].
Qed.

Lemma doOnce_counts_only_successful_write_witness :
  below_threshold br_example (new_conn 0) = true /\
  sendCnt (doOnce_conn always_ok br_example (new_conn 0)).1.2 = 2 /\
  sendTimes (doOnce_conn always_ok br_example (new_conn 0)).1.1 = 2 /\
  sendBytes (doOnce_conn always_ok br_example (new_conn 0)).1.1 = 2 /\
  (doOnce_conn always_ok br_example (new_conn 0)).2
    = [mkWrite 0 (batchBuffer br_example)].
Proof.
  split; [reflexivity|].
  pose proof (proj1 (proj2 (doOnce_counts_only_successful_write always_ok
                              br_example (new_conn 0) []))
                eq_refl eq_refl) as (H1 & H2 & H3 & H4 & _).
  exact (conj H1 (conj H2 (conj H3 H4))).
Defined.

(** C4, as the claim states it, fails: a text message carrying exactly the
    send buffer is delivered and nothing is counted. *)
Lemma onMessage_text_payload_not_counted :
  [x2a] = getWriteBuffer br_example /\
  onMessage br_example (new_conn 0) TextMessage [x2a]
  = (br_example, new_conn 0).
Proof. split; reflexivity. Qed.

(** C4, amended. [onMessage] adds one to the connection's receive counter and
    to the session's receive count, and the message length to the session's
    receive bytes, exactly when the message is binary and its payload equals
    the send buffer built at [init]; any other message changes nothing. *)
Theorem onMessage_counts_binary_match
    (br : BenchRate) (conn : Conn) (mt : Z) (b : list byte) :
  (mt = BinaryMessage /\ b = getWriteBuffer br ->
     onMessage br conn mt b =
       (set_recv br (add64 (recvTimes br) 1)
                    (add64 (recvBytes br) (Z.of_nat (length b))),
        set_recvCnt conn (add64 (recvCnt conn) 1)))
  /\ (~ (mt = BinaryMessage /\ b = getWriteBuffer br) ->
     onMessage br conn mt b = (br, conn))
  /\ (mt = BinaryMessage /\ b = getWriteBuffer br ->
     recvCnt (onMessage br conn mt b).2 = add64 (recvCnt conn) 1 /\
     recvTimes (onMessage br conn mt b).1 = add64 (recvTimes br) 1 /\
     recvBytes (onMessage br conn mt b).1
       = add64 (recvBytes br) (Z.of_nat (length b)) /\
     onMessage br conn mt b =
       (mkBenchRate (Duration br) (Concurrency br) (SendRate br) (Payload br)
          (SendLimit br) (PsInterval br) (ServerPid br) (ConnsMap br)
          (wbuffer br) (chConns br) (limitFn br) (batch br) (batchBuffer br)
          (tickRate br) (sendTimes br) (sendBytes br)
          (add64 (recvTimes br) 1)
          (add64 (recvBytes br) (Z.of_nat (length b))),
        mkConn (conn_id conn) (sendCnt conn) (add64 (recvCnt conn) 1))).
Proof.
  unfold onMessage. split_and!.
  - intros [-> ->]. rewrite Z.eqb_refl. simpl.
    by rewrite (proj2 (bytes_Equal_true _ _) eq_refl).
  - intros Hn. destruct (mt =? BinaryMessage) eqn:Hmt; [|done].
    apply Z.eqb_eq in Hmt. simpl.
    destruct (bytes_Equal b (getWriteBuffer br)) eqn:Hb; [|done].
    apply bytes_Equal_true in Hb. tauto.
  - intros [-> ->]. rewrite Z.eqb_refl. simpl.
    rewrite (proj2 (bytes_Equal_true _ _) eq_refl). by split_and!.
Qed.

End RateCounters.

(** ** The order of events in [Run] *)

Section RunOrder.
Import Sched.

(** Induction on actions that reaches into the bodies. *)
Lemma action_nested_ind (P : action -> Prop) :
  (forall l, P (Call l)) -> P Sleep ->
  (forall c, P (Close c)) -> (forall c, P (Recv c)) ->
  (forall body, Forall P body -> P (Go body)) ->
  (forall body, Forall P body -> P (AfterFunc body)) ->
  P WgAdd -> P WgDone -> P WgWait ->
  (forall c body, Forall P body -> P (TickLoop c body)) ->
  forall x, P x.
Proof.
  intros HCall HSleep HClose HRecv HGo HAfter HAdd HDone HWait HLoop.
  refine (fix IH (x : action) : P x :=
    let all :=
      fix all (body : list action) : Forall P body :=
        match body with
        | [] => ListDef.Forall_nil P
        | y :: r => ListDef.Forall_cons P y r (IH y) (all r)
        end in
    match x with
    | Call l => HCall l
    | Sleep => HSleep
    | Close c => HClose c
    | Recv c => HRecv c
    | Go body => HGo body (all body)
    | AfterFunc body => HAfter body (all body)
    | WgAdd => HAdd
    | WgDone => HDone
    | WgWait => HWait
    | TickLoop c body => HLoop c body (all body)
    end).
Qed.

Section CheckSound.
Variables (a b : label) (c : chan).

Abbreviation knows := (Sched.knows a).
Abbreviation Safe := (Sched.Safe a b c).

Lemma okA_body k x body :
  x = Go body \/ x = AfterFunc body \/ (exists c', x = TickLoop c' body) ->
  okA a b c k x = okL a b c k body.
Proof.
  by intros [-> | [-> | [c' ->]]].
Qed.

(** Knowing more never hurts. *)
Lemma okA_mono x : okA a b c false x = true -> okA a b c true x = true.
Proof.
  induction x as [l| |c'|c'|body IH|body IH| | | |c' body IH]
    using action_nested_ind; simpl; try done;
    try (by rewrite orb_true_r).
  all: rewrite <- !(okA_body _ (Go body) body) by auto;
    change (okA a b c ?k (Go body)) with (okL a b c k body).
  all: assert (Hgen : forall k, okL a b c k body = true ->
                                okL a b c true body = true);
    [|by apply Hgen].
  all: induction IH as [|y r Hy Hr IHr]; intros k; simpl; [done|];
    rewrite !andb_true_iff; intros [H1 H2]; split;
    [destruct k; auto | eapply IHr, H2].
Qed.

Lemma okL_mono p k : okL a b c k p = true -> okL a b c true p = true.
Proof.
  revert k. induction p as [|y r IH]; intros k; simpl; [done|].
  rewrite !andb_true_iff. intros [H1 H2]. split.
  - destruct k; [done|]. by apply okA_mono.
  - eapply IH, H2.
Qed.

Lemma okL_le p k k' :
  (k = true -> k' = true) -> okL a b c k p = true -> okL a b c k' p = true.
Proof.
  intros Hle Hp. destruct k'; [by eapply okL_mono|].
  destruct k; [by discriminate Hle|done].
Qed.

Lemma okL_app p q k :
  okL a b c k p = true -> okL a b c k q = true ->
  okL a b c k (p ++ q) = true.
Proof.
  revert k. induction p as [|y r IH]; intros k; simpl; [done|].
  rewrite !andb_true_iff. intros [H1 H2] Hq. split; [done|].
  apply IH; [done|]. eapply okL_le, Hq. by intros ->.
Qed.

Lemma precedes_snoc tr l :
  precedes a b tr -> (l = b -> a ∈ tr) -> precedes a b (tr ++ [l]).
Proof.
  intros Hp Hl t1 t2 Heq.
  destruct t2 as [|x t2 _] using rev_ind.
  - apply app_inj_tail in Heq as [-> ->]. by apply Hl.
  - rewrite app_comm_cons, (assoc_L (++)) in Heq.
    apply app_inj_tail in Heq as [-> _]. by eapply Hp.
Qed.

Lemma knows_snoc tr l :
  knows (tr ++ [l]) = knows tr || bool_decide (l = a).
Proof.
  unfold knows. apply eq_true_iff_eq.
  rewrite orb_true_iff, !bool_decide_eq_true.
  rewrite elem_of_app, list_elem_of_singleton.
  split; (intros [?|?]; [by left | by right]).
Qed.

Lemma Safe_emit st i x rest l :
  Safe st -> threads st !! i = Some (x :: rest) -> emits x = Some l ->
  Safe (mkState (<[i := rest]> (threads st)) (closed st) (wg st)
          (trace st ++ [l])).
Proof.
  intros (Hc & Hth & Hp) Hi Hx. unfold Safe; simpl.
  pose proof (Forall_lookup_1 _ _ _ _ Hth Hi) as Hok. simpl in Hok.
  apply andb_true_iff in Hok as [HokA Hrest].
  assert (Hb : l = b -> a ∈ trace st).
  { intros Hlb. unfold knows in HokA.
    destruct x as [l0| | | | | | | | |]; simpl in Hx; try discriminate.
    - assert (Hl0 : l0 = b) by congruence. simpl in HokA.
      rewrite (bool_decide_eq_true_2 _ Hl0) in HokA.
      by apply bool_decide_eq_true in HokA.
    - assert (Hl0 : Slept = b) by congruence. simpl in HokA.
      rewrite (bool_decide_eq_true_2 _ Hl0) in HokA.
      by apply bool_decide_eq_true in HokA. }
  assert (Hg : gives a c x = bool_decide (l = a)).
  { destruct x; simpl in Hx; try discriminate; simpl;
      apply bool_decide_ext; split; congruence. }
  split; [intros Hcl; apply elem_of_app; auto|].
  split; [|by apply precedes_snoc].
  rewrite knows_snoc. apply Forall_insert.
  - eapply Forall_impl; [exact Hth|]. intros t Ht. simpl in Ht.
    eapply okL_le, Ht. intros ->. done.
  - by rewrite <- Hg.
Qed.

Lemma Safe_step st i tick st' :
  Safe st -> step st i tick = Some st' -> Safe st'.
Proof.
  intros HS Hstep. unfold step in Hstep.
  destruct (threads st !! i) as [[|x rest]|] eqn:Hi; try done.
  destruct HS as (Hc & Hth & Hp).
  pose proof (Forall_lookup_1 _ _ _ _ Hth Hi) as Hok. simpl in Hok.
  apply andb_true_iff in Hok as [HokA Hrest].
  destruct x as [l| |c'|c'|body|body| | | |c' body]; simpl in Hstep;
    simpl in Hrest; rewrite ?orb_false_r in Hrest.
  - simplify_eq. by eapply Safe_emit.
  - simplify_eq. by eapply (Safe_emit _ _ Sleep).
  - (* Close *)
    simplify_eq. unfold Safe; simpl. split_and!; [|by apply Forall_insert; auto|done].
    intros [->|Hin]%elem_of_cons; [|auto].
    simpl in HokA. rewrite bool_decide_eq_true_2 in HokA by done.
    simpl in HokA. by apply bool_decide_eq_true in HokA.
  - (* Recv *)
    destruct (bool_decide (c' ∈ closed st)) eqn:Hcl; simplify_eq.
    apply bool_decide_eq_true in Hcl. unfold Safe; simpl.
    split_and!; [done| |done]. apply Forall_insert; [done|].
    destruct (bool_decide (c' = c)) eqn:Hcc;
      rewrite ?orb_false_r in Hrest; [|exact Hrest].
    apply bool_decide_eq_true in Hcc. subst c'.
    rewrite orb_true_r in Hrest.
    unfold knows. by rewrite bool_decide_eq_true_2 by auto.
  - (* Go *)
    simplify_eq. unfold Safe; simpl. split_and!; [done| |done].
    apply Forall_app. split; [apply Forall_insert; auto|].
    apply Forall_singleton. exact HokA.
  - (* AfterFunc *)
    simplify_eq. unfold Safe; simpl. split_and!; [done| |done].
    apply Forall_app. split; [apply Forall_insert; auto|].
    apply Forall_singleton. exact HokA.
  - simplify_eq. unfold Safe; simpl. split_and!; [done| |done].
    apply Forall_insert; auto.
  - simplify_eq. unfold Safe; simpl. split_and!; [done| |done].
    apply Forall_insert; auto.
  - destruct (wg st =? 0)%nat; simplify_eq. unfold Safe; simpl.
    split_and!; [done| |done]. apply Forall_insert; auto.
  - (* TickLoop *)
    destruct tick.
    + simplify_eq. unfold Safe; simpl. split_and!; [done| |done].
      apply Forall_insert; [done|]. apply okL_app.
      * exact HokA.
      * apply andb_true_iff. split; [exact HokA|].
        simpl. by rewrite orb_false_r.
    + destruct (bool_decide (c' ∈ closed st)); simplify_eq.
      unfold Safe; simpl.
      split_and!; [done| |done]. apply Forall_insert; auto.
Qed.

(** A program that passes the check emits [b] only after [a], on every
    schedule. *)
Lemma check_sound main sched st :
  okL a b c false main = true ->
  exec (start main) sched = Some st ->
  precedes a b (trace st).
Proof.
  intros Hmain Hexec.
  assert (HS : Safe (start main)).
  { unfold Safe, start; simpl. split_and!.
    - by intros ?%elem_of_nil.
    - by apply Forall_singleton.
    - by intros [|??] ? ?. }
  assert (Hgen : forall sched st0, Safe st0 -> exec st0 sched = Some st ->
                                   Safe st).
  { clear. induction sched as [|[i tick] sched IH]; intros st0 HS He; simpl in *.
    - by simplify_eq.
    - destruct (step st0 i tick) as [st1|] eqn:Hs; [|done].
      eapply IH; [|done]. by eapply Safe_step. }
  by destruct (Hgen _ _ HS Hexec) as (_ & _ & ?).
Qed.

Lemma okL_repeat p q k n :
  okL a b c k p = true -> okL a b c k q = true ->
  okL a b c k (concat (replicate n p) ++ q) = true.
Proof.
  intros Hp Hq. induction n as [|n IH]; simpl; [done|].
  rewrite <- (assoc_L (++)). by apply okL_app.
Qed.

End CheckSound.

(** Both [Run]s pass the check for "the sampler starts, then the interval
    elapses" and for "the interval elapses, then the sampler stops". *)
Lemma rate_Run_checks a b c n :
  okL a b c false [Call Init; Go sampler; AfterFunc [Close done]] = true ->
  okL a b c false [WgAdd; Go worker] = true ->
  okL a b c false [WgWait; Recv chCounterStart; Call PsStop; Call Clean] = true ->
  okL a b c false (rate_Run n) = true.
Proof.
  intros H1 H2 H3. unfold rate_Run.
  apply okL_app; [done|]. by apply okL_repeat.
Qed.

(** *** The workers and the wait group of [BenchRate.Run] *)

Lemma live_workers_app ts t :
  RateRun.live_workers (ts ++ [t])
  = (RateRun.live_workers ts + if RateRun.holds_wg t then 1 else 0)%nat.
Proof.
  unfold RateRun.live_workers. rewrite List.filter_app, length_app. simpl.
  destruct (RateRun.holds_wg t); simpl; lia.
Qed.

Lemma live_workers_insert ts : forall j t t',
  ts !! j = Some t ->
  (RateRun.live_workers (<[j := t']> ts)
     + (if RateRun.holds_wg t then 1 else 0)
   = RateRun.live_workers ts + (if RateRun.holds_wg t' then 1 else 0))%nat.
Proof.
  unfold RateRun.live_workers.
  induction ts as [|t0 ts IH]; intros [|j] t t' Hj; simpl in *; try done.
  - injection Hj as ->.
    destruct (RateRun.holds_wg t), (RateRun.holds_wg t'); simpl; lia.
  - specialize (IH j t t' Hj).
    destruct (RateRun.holds_wg t0); simpl; lia.
Qed.

Lemma no_live_workers others :
  Forall (fun t => In t RateRun.helpers \/ In t RateRun.workers) others ->
  RateRun.live_workers others = 0%nat ->
  Forall (fun t => In t RateRun.helpers) others.
Proof.
  unfold RateRun.live_workers.
  induction 1 as [|t ts Ht Hts IH]; intros Hlive; [done|].
  simpl in Hlive. destruct Ht as [Ht|Ht].
  - apply Forall_cons. split; [done|]. apply IH.
    destruct (RateRun.holds_wg t); [done|]. exact Hlive.
  - exfalso. simpl in Ht.
    destruct Ht as [<- | [<- | [<- | []]]]; discriminate Hlive.
Qed.

Lemma start_workers_S m :
  RateRun.start_workers (S m) = WgAdd :: Go worker :: RateRun.start_workers m.
Proof. reflexivity. Qed.

Lemma start_workers_0 :
  RateRun.start_workers 0 = WgWait :: RateRun.after_wait.
Proof. reflexivity. Qed.

Lemma Counted_start n : RateRun.Counted n (start (rate_Run n)).
Proof.
  exists (rate_Run n), []. split_and!; [done | done |].
  left. split; [by left | done].
Qed.

(** A step of the sampler or of the timer function. *)
Lemma helper_step st j t tick st' main others :
  threads st = main :: others -> others !! j = Some t ->
  In t RateRun.helpers ->
  step st (S j) tick = Some st' ->
  exists t' l,
    In t' RateRun.helpers /\ threads st' = main :: <[j := t']> others /\
    wg st' = wg st /\ trace st' = trace st ++ l /\ DoOnce ∉ l.
Proof.
  intros Hth Hj Ht Hstep. unfold step in Hstep. rewrite Hth in Hstep.
  simpl in Hstep. rewrite Hj in Hstep. simpl in Ht.
  destruct Ht as [<- | [<- | [<- | [<- | [<- | []]]]]]; simpl in Hstep;
    try done; injection Hstep as <-; simpl.
  - exists [Sleep; Close chCounterStart], [PsStart].
    split_and!; try done; [simpl; tauto|].
    by intros [=]%list_elem_of_singleton.
  - exists [Close chCounterStart], [Slept].
    split_and!; try done; [simpl; tauto|].
    by intros [=]%list_elem_of_singleton.
  - exists [], []. rewrite (right_id_L [] (++)).
    split_and!; try done; [simpl; tauto|]. by intros ?%elem_of_nil.
  - exists [], []. rewrite (right_id_L [] (++)).
    split_and!; try done; [simpl; tauto|]. by intros ?%elem_of_nil.
Qed.

(** The invariant holds along every run. *)
Lemma Counted_step n st i tick st' :
  RateRun.Counted n st -> step st i tick = Some st' -> RateRun.Counted n st'.
Proof.
  intros (main & others & Hth & Hall & Hcase) Hstep.
  destruct i as [|j].
  - (* the main goroutine *)
    unfold step in Hstep. rewrite Hth in Hstep. simpl in Hstep.
    destruct Hcase as [[Hin Hwg] | [(m & -> & Hwg) | [(m & -> & Hwg)
                                                     | [Hin Hhelp]]]].
    + simpl in Hin. destruct Hin as [<- | [<- | [<- | []]]];
        simpl in Hstep; injection Hstep as <-.
      * exists ([Go sampler; AfterFunc [Close done]] ++ RateRun.start_workers n),
          others.
        split_and!; [done | done |]. left. split; [simpl; tauto | done].
      * exists ([AfterFunc [Close done]] ++ RateRun.start_workers n),
          (others ++ [sampler]).
        split_and!; [done | |].
        -- apply Forall_app. split; [done|]. apply Forall_singleton.
           left. simpl. tauto.
        -- left. split; [simpl; tauto|]. simpl.
           rewrite live_workers_app. simpl. lia.
      * exists (RateRun.start_workers n), (others ++ [[Close done]]).
        split_and!; [done | |].
        -- apply Forall_app. split; [done|]. apply Forall_singleton.
           left. simpl. tauto.
        -- right. left. exists n. split; [done|]. simpl.
           rewrite live_workers_app. simpl. lia.
    + destruct m as [|m].
      * rewrite start_workers_0 in Hstep. simpl in Hstep.
        destruct (wg st =? 0)%nat eqn:Hz; [|done]. apply Nat.eqb_eq in Hz.
        injection Hstep as <-.
        exists RateRun.after_wait, others. split_and!; [done | done |].
        right. right. right. split; [simpl; tauto|].
        apply no_live_workers; [done | lia].
      * rewrite start_workers_S in Hstep. simpl in Hstep.
        injection Hstep as <-.
        exists (Go worker :: RateRun.start_workers m), others.
        split_and!; [done | done |].
        right. right. left. exists m. split; [done|]. simpl. lia.
    + simpl in Hstep. injection Hstep as <-.
      exists (RateRun.start_workers m), (others ++ [worker]).
      split_and!; [done | |].
      * apply Forall_app. split; [done|]. apply Forall_singleton.
        right. simpl. tauto.
      * right. left. exists m. split; [done|]. simpl.
        rewrite live_workers_app. simpl. lia.
    + simpl in Hin. destruct Hin as [<- | [<- | [<- | [<- | []]]]];
        simpl in Hstep; try done.
      * destruct (bool_decide (chCounterStart ∈ closed st)); [|done].
        injection Hstep as <-.
        exists [Call PsStop; Call Clean], others. split_and!; [done | done |].
        right. right. right. split; [simpl; tauto | done].
      * injection Hstep as <-.
        exists [Call Clean], others. split_and!; [done | done |].
        right. right. right. split; [simpl; tauto | done].
      * injection Hstep as <-.
        exists [], others. split_and!; [done | done |].
        right. right. right. split; [simpl; tauto | done].
  - (* another goroutine *)
    assert (Hj : exists t, others !! j = Some t).
    { unfold step in Hstep. rewrite Hth in Hstep. simpl in Hstep.
      destruct (others !! j) as [t|]; [by exists t | done]. }
    destruct Hj as [t Hj].
    pose proof (proj1 (Forall_lookup _ _) Hall j t Hj) as [Ht|Ht].
    + (* the sampler or the timer function *)
      destruct (helper_step st j t tick st' main others Hth Hj Ht Hstep)
        as (t' & l & Ht' & Hth' & Hwg' & _).
      pose proof (live_workers_insert others j t t' Hj) as Hlive.
      assert (H0 : RateRun.holds_wg t = false /\ RateRun.holds_wg t' = false).
      { clear -Ht Ht'. simpl in Ht, Ht'.
        destruct Ht as [<- | [<- | [<- | [<- | [<- | []]]]]];
          destruct Ht' as [<- | [<- | [<- | [<- | [<- | []]]]]]; done. }
      destruct H0 as [H0 H0']. rewrite H0, H0' in Hlive.
      exists main, (<[j := t']> others). split_and!; [done | |].
      * apply Forall_insert; [done | by left].
      * rewrite Hwg'.
        destruct Hcase as [[Hin Hwg] | [(m & -> & Hwg) | [(m & -> & Hwg)
                                                         | [Hin Hhelp]]]].
        -- left. split; [done | lia].
        -- right. left. exists m. split; [done | lia].
        -- right. right. left. exists m. split; [done | lia].
        -- right. right. right. split; [done|]. by apply Forall_insert.
    + (* a worker *)
      assert (Hnot : ~ Forall (fun t => In t RateRun.helpers) others).
      { intros Hhelp.
        pose proof (proj1 (Forall_lookup _ _) Hhelp j t Hj) as Hh.
        clear -Ht Hh. simpl in Ht, Hh.
        destruct Ht as [<- | [<- | [<- | []]]];
          destruct Hh as [Hh | [Hh | [Hh | [Hh | [Hh | []]]]]]; discriminate. }
      unfold step in Hstep. rewrite Hth in Hstep. simpl in Hstep.
      rewrite Hj in Hstep. simpl in Ht.
      destruct Ht as [<- | [<- | [<- | []]]]; simpl in Hstep.
      * (* in the select *)
        assert (Hst' : exists t', In t' RateRun.workers /\
                  RateRun.holds_wg t' = true /\
                  threads st' = main :: <[j := t']> others /\ wg st' = wg st).
        { destruct tick.
          - injection Hstep as <-. exists (Call DoOnce :: worker).
            split_and!; try done. simpl. tauto.
          - destruct (bool_decide (done ∈ closed st)); [|done].
            injection Hstep as <-. exists [WgDone].
            split_and!; try done. simpl. tauto. }
        destruct Hst' as (t' & Ht' & Hh' & Hth' & Hwg').
        pose proof (live_workers_insert others j worker t' Hj) as Hlive.
        rewrite Hh' in Hlive. simpl in Hlive.
        exists main, (<[j := t']> others). split_and!; [done | |].
        -- apply Forall_insert; [done | by right].
        -- rewrite Hwg'.
           destruct Hcase as [[Hin Hwg] | [(m & -> & Hwg) | [(m & -> & Hwg)
                                                            | [Hin Hhelp]]]].
           ++ left. split; [done | lia].
           ++ right. left. exists m. split; [done | lia].
           ++ right. right. left. exists m. split; [done | lia].
           ++ by destruct Hnot.
      * (* in doOnce *)
        injection Hstep as <-.
        pose proof (live_workers_insert others j (Call DoOnce :: worker)
                      worker Hj) as Hlive.
        simpl in Hlive.
        exists main, (<[j := worker]> others). split_and!; [done | |].
        -- apply Forall_insert; [done|]. right. simpl. tauto.
        -- simpl.
           destruct Hcase as [[Hin Hwg] | [(m & -> & Hwg) | [(m & -> & Hwg)
                                                            | [Hin Hhelp]]]].
           ++ left. split; [done | lia].
           ++ right. left. exists m. split; [done | lia].
           ++ right. right. left. exists m. split; [done | lia].
           ++ by destruct Hnot.
      * (* wg.Done() *)
        injection Hstep as <-.
        pose proof (live_workers_insert others j [WgDone] [] Hj) as Hlive.
        simpl in Hlive.
        exists main, (<[j := []]> others). split_and!; [done | |].
        -- apply Forall_insert; [done|]. left. simpl. tauto.
        -- simpl.
           destruct Hcase as [[Hin Hwg] | [(m & -> & Hwg) | [(m & -> & Hwg)
                                                            | [Hin Hhelp]]]].
           ++ left. split; [done | lia].
           ++ right. left. exists m. split; [done | lia].
           ++ right. right. left. exists m. split; [done | lia].
           ++ by destruct Hnot.
Qed.

Lemma Counted_exec n sched : forall st st',
  RateRun.Counted n st -> exec st sched = Some st' -> RateRun.Counted n st'.
Proof.
  induction sched as [|[i tick] sched IH]; intros st st' HC Hexec;
    simpl in Hexec.
  - by injection Hexec as <-.
  - destruct (step st i tick) as [st1|] eqn:Hstep; [|done].
    eapply IH; [|exact Hexec]. by eapply Counted_step.
Qed.

(** Once [wg.Wait()] has returned, no step is a call of [doOnce]. *)
Lemma Waited_step st i tick st' :
  RateRun.Waited st -> step st i tick = Some st' ->
  RateRun.Waited st' /\
  exists l, trace st' = trace st ++ l /\ DoOnce ∉ l.
Proof.
  intros (main & others & Hth & Hin & Hhelp) Hstep.
  destruct i as [|j].
  - unfold step in Hstep. rewrite Hth in Hstep. simpl in Hstep.
    simpl in Hin. destruct Hin as [<- | [<- | [<- | [<- | []]]]];
      simpl in Hstep; try done.
    + destruct (bool_decide (chCounterStart ∈ closed st)); [|done].
      injection Hstep as <-. split.
      * exists [Call PsStop; Call Clean], others.
        split_and!; [done | simpl; tauto | done].
      * exists []. rewrite (right_id_L [] (++)).
        split; [done|]. by intros ?%elem_of_nil.
    + injection Hstep as <-. split.
      * exists [Call Clean], others.
        split_and!; [done | simpl; tauto | done].
      * exists [PsStop]. split; [done|].
        by intros [=]%list_elem_of_singleton.
    + injection Hstep as <-. split.
      * exists [], others. split_and!; [done | simpl; tauto | done].
      * exists [Clean]. split; [done|].
        by intros [=]%list_elem_of_singleton.
  - assert (Hj : exists t, others !! j = Some t).
    { unfold step in Hstep. rewrite Hth in Hstep. simpl in Hstep.
      destruct (others !! j) as [t|]; [by exists t | done]. }
    destruct Hj as [t Hj].
    pose proof (proj1 (Forall_lookup _ _) Hhelp j t Hj) as Ht.
    destruct (helper_step st j t tick st' main others Hth Hj Ht Hstep)
      as (t' & l & Ht' & Hth' & _ & Htr & Hl).
    split; [|by exists l].
    exists main, (<[j := t']> others). split_and!; [done | done |].
    by apply Forall_insert.
Qed.

Lemma Waited_exec sched : forall st st',
  RateRun.Waited st -> exec st sched = Some st' ->
  exists l, trace st' = trace st ++ l /\ DoOnce ∉ l.
Proof.
  induction sched as [|[i tick] sched IH]; intros st st' HW Hexec;
    simpl in Hexec.
  - injection Hexec as <-. exists []. rewrite (right_id_L [] (++)).
    split; [done|]. by intros ?%elem_of_nil.
  - destruct (step st i tick) as [st1|] eqn:Hstep; [|done].
    destruct (Waited_step st i tick st1 HW Hstep) as (HW1 & l1 & Htr1 & Hl1).
    destruct (IH st1 st' HW1 Hexec) as (l2 & Htr2 & Hl2).
    exists (l1 ++ l2). rewrite Htr2, Htr1, (assoc_L (++)).
    split; [done|]. intros [?|?]%elem_of_app; tauto.
Qed.

(** A run whose main goroutine stands right after [wg.Wait()] has no worker
    left. *)
Lemma Counted_after_wait n st :
  RateRun.Counted n st ->
  threads st !! 0%nat = Some RateRun.after_wait ->
  RateRun.Waited st.
Proof.
  intros (main & others & Hth & Hall & Hcase) Hmain.
  rewrite Hth in Hmain. simpl in Hmain. injection Hmain as ->.
  exists RateRun.after_wait, others.
  destruct Hcase as [[Hin Hwg] | [(m & Hm & Hwg) | [(m & Hm & Hwg)
                                                   | [Hin Hhelp]]]].
  - simpl in Hin. destruct Hin as [Hin | [Hin | [Hin | []]]]; discriminate Hin.
  - destruct m; discriminate Hm.
  - discriminate Hm.
  - split_and!; [done | simpl; tauto | done].
Qed.

(** What a step adds to the events. *)
Lemma step_trace st i tick st' :
  step st i tick = Some st' ->
  trace st' = trace st \/
  exists x rest lab,
    threads st !! i = Some (x :: rest) /\ emits x = Some lab /\
    trace st' = trace st ++ [lab].
Proof.
  unfold step. destruct (threads st !! i) as [[|x rest]|]; try done.
  destruct x; simpl; intros Hstep;
    repeat match type of Hstep with
    | (if ?c then _ else _) = _ => destruct c; try done
    end;
    injection Hstep as <-; simpl; eauto 10.
Qed.

(** The sampler is stopped only after [wg.Wait()] has returned. *)
Lemma PsStop_Waited n st i tick st' :
  RateRun.Counted n st -> (PsStop ∈ trace st -> RateRun.Waited st) ->
  step st i tick = Some st' ->
  PsStop ∈ trace st' -> RateRun.Waited st'.
Proof.
  intros HC HW Hstep Hin.
  enough (RateRun.Waited st) as H by exact (proj1 (Waited_step _ _ _ _ H Hstep)).
  destruct (step_trace _ _ _ _ Hstep)
    as [Htr | (x & rest & lab & Hi & Hx & Htr)]; rewrite Htr in Hin.
  { by apply HW. }
  apply elem_of_app in Hin as [Hin | Hin]; [by apply HW|].
  apply list_elem_of_singleton in Hin as <-.
  assert (x = Call PsStop) as ->.
  { destruct x; simpl in Hx; try done. by injection Hx as ->. }
  destruct HC as (main & others & Hth & Hall & Hcase).
  rewrite Hth in Hi. destruct i as [|j]; simpl in Hi.
  - injection Hi as ->.
    destruct Hcase as [[Hm Hwg] | [(m & Hm & Hwg) | [(m & Hm & Hwg)
                                                   | [Hm Hhelp]]]].
    + simpl in Hm. destruct Hm as [Hm | [Hm | [Hm | []]]]; discriminate Hm.
    + destruct m; discriminate Hm.
    + discriminate Hm.
    + by exists (Call PsStop :: rest), others.
  - pose proof (proj1 (Forall_lookup _ _) Hall j _ Hi) as [Ht|Ht];
      simpl in Ht.
    + destruct Ht as [Ht | [Ht | [Ht | [Ht | [Ht | []]]]]]; discriminate Ht.
    + destruct Ht as [Ht | [Ht | [Ht | []]]]; discriminate Ht.
Qed.

Lemma no_DoOnce_after_PsStop n sched : forall st st',
  RateRun.Counted n st -> (PsStop ∈ trace st -> RateRun.Waited st) ->
  (forall t1 t2, trace st = t1 ++ DoOnce :: t2 -> PsStop ∉ t1) ->
  exec st sched = Some st' ->
  forall t1 t2, trace st' = t1 ++ DoOnce :: t2 -> PsStop ∉ t1.
Proof.
  induction sched as [|[i tick] sched IH]; intros st st' HC HW HN Hexec;
    simpl in Hexec.
  - by injection Hexec as <-.
  - destruct (step st i tick) as [st1|] eqn:Hstep; [|done].
    apply (IH st1 st'); [by eapply Counted_step | by eapply PsStop_Waited | |
                         exact Hexec].
    intros t1 t2 Htr Hstop.
    destruct (step_trace _ _ _ _ Hstep)
      as [Htr1 | (x & rest & lab & _ & _ & Htr1)]; rewrite Htr1 in Htr.
    { by apply (HN t1 t2). }
    induction t2 as [|y t2 _] using rev_ind.
    + apply (app_inj_tail (trace st) t1 lab DoOnce) in Htr as [<- ->].
      destruct (Waited_step st i tick st1 (HW Hstop) Hstep)
        as (_ & l & Hl & Hno).
      rewrite Htr1 in Hl. apply app_inv_head in Hl as <-.
      apply Hno, list_elem_of_singleton. done.
    + change (t1 ++ DoOnce :: t2 ++ [y]) with (t1 ++ (DoOnce :: t2) ++ [y])
        in Htr.
      rewrite (assoc_L (++)) in Htr.
      apply app_inj_tail in Htr as [Htr _]. by apply (HN t1 t2).
Qed.

(** C5, as the claim states it, fails in both modes: there are schedules on
    which the measurement begins while the sampler goroutine has not even
    started, so before any interval has elapsed. In echo mode the main
    goroutine runs [init], the warmup, starts the sampler goroutine and enters
    [Benchmark]; in rate mode it starts one worker, whose first tick calls
    [doOnce]. *)
Lemma Run_measures_before_the_interval :
  (trace <$> exec (start echo_Run) (replicate 4 (0%nat, false))
     = Some [Init; Warmup; Benchmark_begin]
   /\ ~ precedes Slept Benchmark_begin [Init; Warmup; Benchmark_begin])
  /\ (trace <$> exec (start (rate_Run 1))
         (replicate 5 (0%nat, false) ++ [(3%nat, true); (3%nat, false)])
     = Some [Init; DoOnce]
   /\ ~ precedes Slept DoOnce [Init; DoOnce]).
Proof.
  split; (split; [reflexivity|]).
  - intros H. specialize (H [Init; Warmup] [] eq_refl).
    exact (proj1 (bool_decide_eq_false (Slept ∈ [Init; Warmup])) eq_refl H).
  - intros H. specialize (H [Init] [] eq_refl).
    exact (proj1 (bool_decide_eq_false (Slept ∈ [Init])) eq_refl H).
Qed.

(** A complete run of the echo mode, for reference: the sampler goroutine is
    scheduled after [Benchmark] has been entered. *)
Example echo_Run_complete :
  trace <$> exec (start echo_Run)
    (replicate 4 (0%nat, false) ++ [(1%nat, false); (0%nat, false)]
     ++ replicate 2 (1%nat, false) ++ replicate 3 (0%nat, false))
  = Some [Init; Warmup; Benchmark_begin; PsStart; Benchmark_end; Slept;
          PsStop; Clean].
Proof. reflexivity. Qed.

(** C5, amended. In both modes [Run] starts the sampler in a goroutine of its
    own and does not wait for it before measuring; it waits for the end of
    the first interval only after the measurement, before it stops the
    sampler. On every schedule the sampler starts before the interval has
    elapsed, and the interval has elapsed before the sampler is stopped. In
    echo mode [Benchmark] has returned before the sampler is stopped. In
    rate mode, with any number of workers, once [wg.Wait()] has returned
    and [Run] stands at the receive from [chCounterStart], no worker calls
    [doOnce] any more: whatever happens afterwards adds no [doOnce] to the
    events, so every [doOnce] comes before the sampler is stopped. *)
Theorem Run_stops_sampler_after_the_interval :
  (forall sched st,
      exec (start echo_Run) sched = Some st ->
      precedes PsStart Slept (trace st) /\
      precedes Slept PsStop (trace st) /\
      precedes Benchmark_end PsStop (trace st))
  /\ (forall concurrency sched st,
      exec (start (rate_Run concurrency)) sched = Some st ->
      precedes PsStart Slept (trace st) /\
      precedes Slept PsStop (trace st))
  /\ (forall concurrency sched st sched' st',
      exec (start (rate_Run concurrency)) sched = Some st ->
      threads st !! 0%nat
        = Some [Recv chCounterStart; Call PsStop; Call Clean] ->
      exec st sched' = Some st' ->
      exists l, trace st' = trace st ++ l /\ DoOnce ∉ l)
  /\ (forall concurrency sched st t1 t2,
      exec (start (rate_Run concurrency)) sched = Some st ->
      trace st = t1 ++ DoOnce :: t2 -> PsStop ∉ t1).
Proof.
  split_and!.
  - intros sched st Hexec. split_and!.
    + apply (check_sound PsStart Slept chCounterStart echo_Run sched);
        [reflexivity | exact Hexec].
    + apply (check_sound Slept PsStop chCounterStart echo_Run sched);
        [reflexivity | exact Hexec].
    + apply (check_sound Benchmark_end PsStop done echo_Run sched);
        [reflexivity | exact Hexec].
  - intros n sched st Hexec. split.
    + apply (check_sound PsStart Slept chCounterStart (rate_Run n) sched);
        [|exact Hexec].
      apply rate_Run_checks; reflexivity.
    + apply (check_sound Slept PsStop chCounterStart (rate_Run n) sched);
        [|exact Hexec].
      apply rate_Run_checks; reflexivity.
  - intros n sched st sched' st' Hexec Hmain Hexec'.
    apply (Waited_exec sched' st st'); [|exact Hexec'].
    apply (Counted_after_wait n); [|exact Hmain].
    apply (Counted_exec n sched (start (rate_Run n))); [|exact Hexec].
    apply Counted_start.
  - intros n sched st t1 t2 Hexec.
    apply (no_DoOnce_after_PsStop n sched (start (rate_Run n)) st);
      [apply Counted_start | | | exact Hexec].
    + by intros ?%elem_of_nil.
    + by intros [|??] ? ?.
Qed.

End RunOrder.

(** ** [init] in open-loop mode *)

Section RateInit.
Import BenchRate Examples.

Variable EncodeClientMessage : Z -> list byte -> list byte.
Variable BatchBuffers : list byte -> Z -> Z -> list byte * Z * Z.

Abbreviation init := (BenchRate.init EncodeClientMessage BatchBuffers).
Abbreviation init_batch :=
  (BenchRate.init_batch EncodeClientMessage BatchBuffers).


(** What a successful [init] leaves in the session. *)
Lemma rate_init_Ok env br br' :
  init env br = Ok br' ->
  (batchBuffer br', batch br', tickRate br') = init_batch env br /\
  0 < tickRate br' /\ batchBuffer br' <> [] /\
  0 < Payload br' /\
  limitFn br' = (if SendLimit br >? 0
                 then LimiterWait Background (SendLimit br) else limitFn br).
Proof.
  unfold BenchRate.init, BenchRate.init_batch.
  destruct (BatchBuffers _ _ _) as [[bbuf b] rate].
  destruct (rate <=? 0) eqn:Hrate; [done|]. apply Z.leb_gt in Hrate.
  destruct (Z.of_nat (length bbuf) =? 0) eqn:Hlen; [done|].
  apply Z.eqb_neq in Hlen. simpl.
  destruct (GetFrameworkPid env) as [e|pid]; [done|].
  destruct (NewPSCounter env pid); [done|].
  intros [= <-]. simpl. split_and!; try done.
  - intros ->. by apply Hlen.
  - destruct (Payload br <=? 0) eqn:Hp; [done|]. by apply Z.leb_gt in Hp.
Qed.


End RateInit.


(** [init] on a sound and on an unsatisfiable configuration. *)
Example init_rate_example :
  exists br',
    BenchRate.init Examples.frame_example Examples.batch_example
      Examples.env_example (BenchRate.New [0; 1]%nat) = Ok br'
    /\ BenchRate.tickRate br' = 1
    /\ BenchRate.batchBuffer br' = Examples.frame_example BinaryMessage
                                     (replicate 1024 x2a).
Proof. eexists. split; [reflexivity|]. split; reflexivity. Qed.

Example init_rate_wrong_batch_example :
  BenchRate.init Examples.frame_example (fun _ _ _ => ([], 0, 0))
    Examples.env_example (BenchRate.New [0; 1]%nat)
  = Fatalf (WrongBatch 0 0).
Proof. reflexivity. Qed.

(** ** Closed-loop mode *)

Section EchoCall.
Import BenchEcho Examples.

(** *** The read loop *)

Lemma received_split data err rest n :
  received ((data, err) :: rest)
  = take n data ++ received ((drop n data, err) :: rest).
Proof.
  destruct err; simpl; by rewrite ?(assoc_L (++)), take_drop.
Qed.

Lemma read_error_split data err rest n :
  read_error ((data, err) :: rest) = read_error ((drop n data, err) :: rest).
Proof. by destruct err. Qed.

(** One [Read] hands over no more than the space it is given, and what it
    hands over and leaves is what the reader had. *)
Lemma Read_spec reader space data err reader' :
  Read reader space = (data, err, reader') ->
  (length data <= space)%nat /\
  (err = RNil ->
     received reader = data ++ received reader' /\
     read_error reader = read_error reader' /\
     ((0 < space)%nat -> (reader_size reader' < reader_size reader)%nat)) /\
  (err = REOF -> received reader = data /\ read_error reader = None) /\
  (forall e, err = RErr e ->
     received reader = data /\ read_error reader = Some e).
Proof.
  unfold Read. destruct reader as [|[d e0] rest].
  - intros [= <- <- <-]. simpl. split_and!; try done. lia.
  - destruct (length d <=? space)%nat eqn:Hfit.
    + apply Nat.leb_le in Hfit. intros [= <- <- <-].
      split_and!; try done.
      * intros ->. simpl. split_and!; try done. lia.
      * by intros ->.
      * by intros e ->.
    + apply Nat.leb_gt in Hfit. intros [= <- <- <-].
      split_and!; try done.
      * rewrite length_take. lia.
      * intros _. split_and!.
        -- apply received_split.
        -- apply read_error_split.
        -- intros Hpos. simpl. rewrite length_drop. lia.
Qed.

(** Writing [data] at offset [nread] of a buffer with room for it. *)
Lemma write_at_prefix (buf data : list byte) (nread : nat) :
  (nread + length data <= length buf)%nat ->
  length (take nread buf ++ data ++ drop (nread + length data) buf)
    = length buf /\
  take (nread + length data)
       (take nread buf ++ data ++ drop (nread + length data) buf)
    = take nread buf ++ data.
Proof.
  intros Hroom. split.
  - rewrite !length_app, length_take, length_drop. lia.
  - rewrite (assoc_L (++)). apply take_app_length'.
    rewrite length_app, length_take. lia.
Qed.

(** With a pooled buffer that is not empty the loop ends on every reader,
    with the reader's error if it has one, and [readBuffer[:nread]] holds
    what was there before followed by the bytes the reader handed over. *)
Lemma read_loop_spec fuel : forall rlen reader buf nread,
  (0 < rlen)%nat -> (rlen <= length buf)%nat -> (nread <= length buf)%nat ->
  (reader_size reader < fuel)%nat ->
  exists buf' nread',
    read_loop fuel rlen reader buf nread
      = Some (read_error reader, buf', nread') /\
    take nread' buf' = take nread buf ++ received reader.
Proof.
  induction fuel as [|fuel IH]; intros rlen reader buf nread Hrlen Hbuf Hn Hfuel;
    [lia|].
  simpl.
  set (buf1 := if (nread =? length buf)%nat then buf ++ take rlen buf else buf).
  assert (Hlen1 : (nread < length buf1)%nat /\ (rlen <= length buf1)%nat).
  { unfold buf1. destruct (nread =? length buf)%nat eqn:Hfull.
    - apply Nat.eqb_eq in Hfull. rewrite length_app, length_take. lia.
    - apply Nat.eqb_neq in Hfull. lia. }
  assert (Hpre1 : take nread buf1 = take nread buf).
  { unfold buf1. destruct (nread =? length buf)%nat; [|done].
    by apply take_app_le. }
  destruct Hlen1 as [Hroom Hrlen1].
  destruct (Read reader (length buf1 - nread)) as [[data err] reader'] eqn:HR.
  apply Read_spec in HR as (Hfit & Hnil & Heof & Herr).
  destruct (write_at_prefix buf1 data nread) as [Hlen2 Hpre2]; [lia|].
  destruct err as [| |e].
  - destruct Hnil as (Hrecv & Hre & Hsize); [done|].
    destruct (IH rlen reader'
                (take nread buf1 ++ data ++ drop (nread + length data) buf1)
                (nread + length data)%nat)
      as (buf' & nread' & Hloop & Htake); try lia.
    exists buf', nread'. rewrite Hloop, Hre. split; [done|].
    by rewrite Htake, Hpre2, Hpre1, Hrecv, (assoc_L (++)).
  - destruct Heof as [Hrecv Hre]; [done|].
    eexists _, _. rewrite Hre. split; [done|].
    by rewrite Hpre2, Hpre1, Hrecv.
  - destruct (Herr e) as [Hrecv Hre]; [done|].
    eexists _, _. rewrite Hre. split; [done|].
    by rewrite Hpre2, Hpre1, Hrecv.
Qed.

(** *** One call *)

Lemma differ_in_one_byte_neq x y : differ_in_one_byte x y -> x <> y.
Proof. intros (_ & i & Hi & _) ->. by apply Hi. Qed.

(** [doOnce] returns what [call_result] says, has written the frame once and
    has put the connection back at the end of the queue. *)
Lemma doOnce_returns bm env conn waiting p w :
  chConns bm = conn :: waiting ->
  getBuffers bm (Intn env) = Some (p, w) ->
  (0 < length (rbuffer env))%nat ->
  doOnce bm env
  = (Returned (call_result p w env), [w], set_chConns bm (waiting ++ [conn])).
Proof.
  intros Hch Hbuf Hr. unfold doOnce, call_result. rewrite Hch, Hbuf.
  destruct (Write env w) as [e|]; [done|].
  destruct (NextReader env) as [e|[mt reader]]; [done|].
  destruct (read_loop_spec (S (reader_size reader)) (length (rbuffer env))
              reader (rbuffer env) 0) as (buf' & n' & Hloop & Htake);
    try lia.
  rewrite Hloop. simpl in Htake.
  destruct (read_error reader) as [e|]; [done|].
  destruct (negb (mt =? BinaryMessage)); [done|].
  rewrite Htake. by destruct (negb (bytes_Equal p (received reader))).
Qed.

Lemma call_result_fails p w env : call_result p w env <> None <-> call_fails p w env.
Proof.
  unfold call_result, call_fails.
  destruct (Write env w) as [e|]; [by split; auto|].
  destruct (NextReader env) as [e|[mt reader]]; [by split; auto|].
  destruct (read_error reader) as [e|]; [by split; auto|].
  destruct (mt =? BinaryMessage) eqn:Hmt; simpl.
  - apply Z.eqb_eq in Hmt.
    destruct (bytes_Equal p (received reader)) eqn:Heq; simpl.
    + apply bytes_Equal_true in Heq. split; [done|].
      intros [?|[?|[?|?]]]; congruence.
    + apply bytes_Equal_false in Heq. split; [|done].
      intros _. right. right. right. congruence.
  - apply Z.eqb_neq in Hmt. split; [|done]. auto.
Qed.


(** *** The calls the calculator counts *)

Import EchoMore.

(** With the same tables and a connection to take, a call ends the same
    whatever the queue holds, and puts its connection back. *)
Lemma doOnce_in_run bm bm0 env :
  pbuffers bm0 = pbuffers bm -> wbuffers bm0 = wbuffers bm ->
  chConns bm <> [] -> chConns bm0 <> [] -> ready bm env ->
  exists r conn waiting log,
    chConns bm0 = conn :: waiting /\
    doOnce bm0 env = (Returned r, log, set_chConns bm0 (waiting ++ [conn])) /\
    (doOnce bm env).1.1 = Returned r.
Proof.
  intros Hp Hw Hne Hne0 [[[p w] Hget] Hrb].
  assert (Hget0 : getBuffers bm0 (Intn env) = Some (p, w)).
  { rewrite <- Hget. unfold getBuffers. by rewrite Hp, Hw. }
  destruct (chConns bm0) as [|conn0 waiting0] eqn:Hch0; [done|].
  destruct (chConns bm) as [|conn1 waiting1] eqn:Hch; [done|].
  exists (call_result p w env), conn0, waiting0, [w].
  rewrite (doOnce_returns bm0 env conn0 waiting0 p w Hch0 Hget0 Hrb).
  rewrite (doOnce_returns bm env conn1 waiting1 p w Hch Hget Hrb).
  by split_and!.
Qed.

(** The tally of a run of calls: every call is counted once. *)
Lemma Benchmark_counts (float64 : Type) bm envs :
  forall (calc : Calculator float64) bm0,
  pbuffers bm0 = pbuffers bm -> wbuffers bm0 = wbuffers bm ->
  chConns bm <> [] -> chConns bm0 ≡ₚ chConns bm ->
  in_int64 (Success float64 calc) -> in_int64 (Failed float64 calc) ->
  Forall (ready bm) envs ->
  Failed float64 (Benchmark float64 calc bm0 envs).1
    = wrap64 (Failed float64 calc + Z.of_nat (failures bm envs)) /\
  Success float64 (Benchmark float64 calc bm0 envs).1
    = wrap64 (Success float64 calc
              + (Z.of_nat (length envs) - Z.of_nat (failures bm envs))) /\
  chConns (Benchmark float64 calc bm0 envs).2 ≡ₚ chConns bm.
Proof.
  unfold failures.
  induction envs as [|env envs IH]; intros calc bm0 Hp Hw Hne Hperm HS HF Hready.
  - simpl. rewrite !Z.add_0_r, !wrap64_id by done. by split_and!.
  - apply Forall_cons in Hready as [Hr Hready].
    assert (Hne0 : chConns bm0 <> []).
    { intros H0. rewrite H0 in Hperm. symmetry in Hperm.
      by apply Permutation_nil_r in Hperm. }
    destruct (doOnce_in_run bm bm0 env Hp Hw Hne Hne0 Hr)
      as (r & conn & waiting & log & Hch0 & Hdo & Hout).
    cbn [Benchmark]. rewrite Hdo.
    destruct (IH (count float64 calc r) (set_chConns bm0 (waiting ++ [conn])))
      as (IH1 & IH2 & IH3); try done.
    { simpl. rewrite <- Hperm, Hch0. symmetry. apply Permutation_cons_append. }
    { destruct r; simpl; [done | apply wrap64_range]. }
    { destruct r; simpl; [apply wrap64_range | done]. }
    rewrite IH1, IH2. split_and!; [| | exact IH3].
    + cbn [List.filter]. unfold fails. rewrite Hout.
      destruct r as [e|]; cbn [count Failed length].
      * unfold add64. rewrite wrap64_add_l. f_equal. lia.
      * done.
    + cbn [List.filter]. unfold fails. rewrite Hout.
      destruct r as [e|]; cbn [count Success length].
      * f_equal. lia.
      * unfold add64. rewrite wrap64_add_l. f_equal. lia.
Qed.

(** C2. A call of [doOnce] that holds a connection and a payload returns,
    and it returns an error exactly when the write fails, the read fails
    (in [NextReader] or in a [Read]), the message is not binary, or the bytes
    received are not the payload chosen for the call; in particular a
    response that differs from the payload in exactly one byte makes the
    call return an error. The calculator counts the call once, in [Failed]
    and not in [Success] exactly in these four cases, in [Success] and not
    in [Failed] otherwise. A failure is not fatal: the connection is back in
    the queue, [Benchmark] goes on with the calls that follow, and the
    report's [Failed] and [Success] are the numbers of calls that returned
    an error and that returned nil. *)
Theorem doOnce_fails_exactly_on_four_errors
    (float64 : Type) (calc : Calculator float64) (ps : PSCounter float64)
    (bm : BenchEcho) (env : CallEnv) (conn : nat) (waiting : list nat)
    (p w : list byte) (envs : list CallEnv) :
  chConns bm = conn :: waiting ->
  getBuffers bm (Intn env) = Some (p, w) ->
  (0 < length (rbuffer env))%nat ->
  in_int64 (Success float64 calc) -> in_int64 (Failed float64 calc) ->
  Forall (ready bm) envs ->
  exists r,
    doOnce bm env = (Returned r, [w], set_chConns bm (waiting ++ [conn])) /\
    (r <> None <-> call_fails p w env) /\
    (forall mt reader,
        NextReader env = inr (mt, reader) ->
        differ_in_one_byte p (received reader) -> r <> None) /\
    (call_fails p w env ->
       Failed float64 (count float64 calc r)
         = add64 (Failed float64 calc) 1 /\
       Success float64 (count float64 calc r) = Success float64 calc) /\
    (~ call_fails p w env ->
       Success float64 (count float64 calc r)
         = add64 (Success float64 calc) 1 /\
       Failed float64 (count float64 calc r) = Failed float64 calc) /\
    (forall mt reader,
        NextReader env = inr (mt, reader) ->
        differ_in_one_byte p (received reader) ->
        Failed float64 (count float64 calc r)
          = add64 (Failed float64 calc) 1 /\
        Success float64 (count float64 calc r) = Success float64 calc) /\
    (fails bm env = true <-> call_fails p w env) /\
    r_Failed float64
      (Report float64 (Benchmark float64 calc bm (env :: envs)).2
         (Benchmark float64 calc bm (env :: envs)).1 ps)
      = wrap64 (Failed float64 calc
                + Z.of_nat (failures bm (env :: envs))) /\
    r_Success float64
      (Report float64 (Benchmark float64 calc bm (env :: envs)).2
         (Benchmark float64 calc bm (env :: envs)).1 ps)
      = wrap64 (Success float64 calc
                + (Z.of_nat (length (env :: envs))
                   - Z.of_nat (failures bm (env :: envs)))) /\
    chConns (Benchmark float64 calc bm (env :: envs)).2 ≡ₚ chConns bm.
Proof.
  intros Hch Hbuf Hr HS HF Hready. exists (call_result p w env).
  pose proof (doOnce_returns bm env conn waiting p w Hch Hbuf Hr) as Hdo.
  pose proof (call_result_fails p w env) as Hiff.
  assert (Hdiff : forall mt reader,
             NextReader env = inr (mt, reader) ->
             differ_in_one_byte p (received reader) ->
             call_fails p w env).
  { intros mt reader Hnext Hdiff. unfold call_fails. rewrite Hnext.
    right. right. right. intros Heq. by eapply differ_in_one_byte_neq. }
  assert (Hcount : call_fails p w env ->
             Failed float64 (count float64 calc (call_result p w env))
               = add64 (Failed float64 calc) 1 /\
             Success float64 (count float64 calc (call_result p w env))
               = Success float64 calc).
  { intros Hf. apply Hiff in Hf.
    by destruct (call_result p w env). }
  assert (Hne : chConns bm <> []) by (by rewrite Hch).
  assert (Hall : Forall (ready bm) (env :: envs)).
  { apply Forall_cons. split; [|done]. split; [by eexists | done]. }
  destruct (Benchmark_counts float64 bm (env :: envs) calc bm eq_refl eq_refl
              Hne (reflexivity _) HS HF Hall) as (B1 & B2 & B3).
  split_and!.
  - exact Hdo.
  - exact Hiff.
  - intros mt reader Hnext Hd. apply Hiff. by eapply Hdiff.
  - exact Hcount.
  - intros Hf.
    destruct (call_result p w env) as [e|] eqn:Hres; [|done].
    destruct Hf. apply Hiff. done.
  - intros mt reader Hnext Hd. apply Hcount. by eapply Hdiff.
  - unfold fails. rewrite Hdo. simpl. rewrite <- Hiff.
    destruct (call_result p w env); split; done.
  - exact B1.
  - exact B2.
  - exact B3.
Qed.

Lemma doOnce_fails_exactly_on_four_errors_witness :
  exists r,
    doOnce bm_example one_byte_off
      = (Returned r, [[x82; x01; x2a]], set_chConns bm_example [0%nat]) /\
    (r <> None <-> call_fails [x2a] [x82; x01; x2a] one_byte_off) /\
    Failed Z (count Z (mkCalculator Z 0 0 0 0 0 0 0 (fun _ => 0)) r)
      = add64 0 1 /\
    r_Failed Z
      (Report Z
         (Benchmark Z (mkCalculator Z 0 0 0 0 0 0 0 (fun _ => 0)) bm_example
            [one_byte_off; one_byte_off]).2
         (Benchmark Z (mkCalculator Z 0 0 0 0 0 0 0 (fun _ => 0)) bm_example
            [one_byte_off; one_byte_off]).1
         (mkPSCounter Z 0 0 0 0 0 0))
      = wrap64 (0 + Z.of_nat (failures bm_example
                                [one_byte_off; one_byte_off])).
Proof.
  assert (H0 : in_int64 0) by (unfold in_int64, int64_min, int64_max; lia).
  assert (Hrb : (0 < length (rbuffer one_byte_off))%nat) by (simpl; lia).
  assert (Hready : Forall (ready bm_example) [one_byte_off]).
  { apply Forall_singleton. split; [by eexists | exact Hrb]. }
  destruct (doOnce_fails_exactly_on_four_errors Z
              (mkCalculator Z 0 0 0 0 0 0 0 (fun _ => 0))
              (mkPSCounter Z 0 0 0 0 0 0)
              bm_example one_byte_off 0%nat [] [x2a] [x82; x01; x2a]
              [one_byte_off] eq_refl eq_refl Hrb H0 H0 Hready)
    as (r & H1 & H2 & H3 & H4 & _ & _ & _ & H8 & _).
  exists r. split; [exact H1|]. split; [exact H2|]. split; [|exact H8].
  apply H4, H2.
  apply (H3 BinaryMessage [([x2b], REOF)] eq_refl).
  split; [done|]. exists 0%nat. split; [done|]. by intros [|j] ?.
Defined.

Example doOnce_one_byte_off :
  differ_in_one_byte [x2a] [x2b] /\
  (doOnce bm_example one_byte_off).1.1
  = Returned (Some "respons data is not equal to origin"%string).
Proof.
  split; [|reflexivity].
  split; [done|]. exists 0%nat. split; [done|]. by intros [|j] ?.
Qed.

End EchoCall.

(** ** [init] in closed-loop mode *)

Section EchoInit.
Import BenchEcho Examples.

Variable EncodeClientMessage : Z -> list byte -> list byte.

Abbreviation init := (BenchEcho.init EncodeClientMessage).
Abbreviation fill_buffers := (BenchEcho.fill_buffers EncodeClientMessage).

(** The filling loop sets the entries from [i] on, pairwise, and leaves the
    ones below [i]. *)
Lemma fill_buffers_spec stream payload n : forall i pb wb,
  length pb = length wb -> (i + n <= length pb)%nat ->
  length (fill_buffers stream payload n i pb wb).1 = length pb /\
  length (fill_buffers stream payload n i pb wb).2 = length wb /\
  (forall j, (i <= j < i + n)%nat ->
     (fill_buffers stream payload n i pb wb).1 !! j
       = Some (rand_Read stream (j * payload) payload) /\
     (fill_buffers stream payload n i pb wb).2 !! j
       = Some (EncodeClientMessage BinaryMessage
                 (rand_Read stream (j * payload) payload))) /\
  (forall j, (j < i)%nat ->
     (fill_buffers stream payload n i pb wb).1 !! j = pb !! j /\
     (fill_buffers stream payload n i pb wb).2 !! j = wb !! j).
Proof.
  induction n as [|n IH]; intros i pb wb Hlen Hroom; simpl.
  - split_and!; try done. intros j Hj. lia.
  - destruct (IH (S i)
               (<[i := rand_Read stream (i * payload) payload]> pb)
               (<[i := EncodeClientMessage BinaryMessage
                         (rand_Read stream (i * payload) payload)]> wb))
      as (Hl1 & Hl2 & Hset & Hkeep).
    { by rewrite !length_insert. }
    { rewrite length_insert. lia. }
    rewrite length_insert in Hl1, Hl2.
    split_and!; try done.
    + intros j Hj. destruct (decide (j = i)) as [->|Hne].
      * destruct (Hkeep i) as [H1 H2]; [lia|]. rewrite H1, H2.
        rewrite !list_lookup_insert_eq by lia. done.
      * apply Hset. lia.
    + intros j Hj. destruct (Hkeep j) as [H1 H2]; [lia|].
      rewrite H1, H2. by rewrite !list_lookup_insert_ne by lia.
Qed.

(** What a successful [init] leaves in the session. *)
Lemma echo_init_Ok env bm bm' :
  init env bm = Ok bm' ->
  WarmupTimes bm' =
    (if WarmupTimes bm <=? 0 then
       if mul64 (Z.of_nat (length (ConnsMap bm))) 5 >? 2000000 then 2000000
       else mul64 (Z.of_nat (length (ConnsMap bm))) 5
     else WarmupTimes bm) /\
  Percents bm' =
    (if (length (Percents bm) =? 0)%nat then [50; 75; 90; 95; 99]
     else Percents bm) /\
  limitFn bm' =
    (if Limit bm >? 0 then LimiterWait Background (Limit bm) else limitFn bm) /\
  chConns bm' = ConnsMap bm /\
  0 < Payload bm' /\
  (pbuffers bm', wbuffers bm') =
    fill_buffers (rand_stream env) (Z.to_nat (Payload bm')) 1024 0
      (replicate 1024 []) (replicate 1024 []).
Proof.
  unfold BenchEcho.init.
  match goal with
  | |- context [BenchEcho.fill_buffers ?f ?s ?n ?k ?i ?a ?b] =>
      set (fb := BenchEcho.fill_buffers f s n k i a b);
      assert (Hfill : BenchEcho.fill_buffers f s n k i a b = fb)
        by (unfold fb; exact eq_refl);
      clearbody fb
  end.
  destruct fb as [pb wb].
  destruct (GetFrameworkPid env) as [e|pid]; [discriminate|].
  destruct (NewPSCounter env pid); [discriminate|].
  intros Heq. inversion Heq as [Hbm]; clear Heq.
  cbn [WarmupTimes Percents limitFn chConns Payload pbuffers wbuffers].
  split_and!; try reflexivity.
  - destruct (Payload bm <=? 0) eqn:Hp; [reflexivity|].
    by apply Z.leb_gt in Hp.
  - by rewrite Hfill.
Qed.

(** After [init] both tables have 1024 entries, and entry [i] of the frame
    table is the encoding of entry [i] of the payload table. *)
Lemma init_buffers env bm bm' :
  init env bm = Ok bm' ->
  length (pbuffers bm') = 1024%nat /\ length (wbuffers bm') = 1024%nat /\
  forall i, (i < 1024)%nat ->
    exists p, pbuffers bm' !! i = Some p /\
              wbuffers bm' !! i = Some (EncodeClientMessage BinaryMessage p) /\
              length p = Z.to_nat (Payload bm').
Proof.
  intros Hinit. apply echo_init_Ok in Hinit as (_ & _ & _ & _ & _ & Hfill).
  pose proof (fill_buffers_spec (rand_stream env) (Z.to_nat (Payload bm'))
                1024 0 (replicate 1024 []) (replicate 1024 []))
    as (Hl1 & Hl2 & Hset & _).
  { by rewrite !length_replicate. }
  { rewrite length_replicate. lia. }
  rewrite <- Hfill in Hl1, Hl2, Hset.
  cbn [fst snd] in Hl1, Hl2, Hset.
  rewrite length_replicate in Hl1, Hl2.
  split; [exact Hl1|]. split; [exact Hl2|].
  intros i Hi. destruct (Hset i) as [H1 H2]; [lia|].
  eexists. split; [exact H1|]. split; [exact H2|].
  unfold rand_Read. by rewrite length_map, length_seq.
Qed.


(** C10. In closed-loop mode, when the warmup count is not configured
    ([WarmupTimes <= 0]) [init] sets it to five times the number of
    connections, and to 2,000,000 when that is more; a configured positive
    count is left as it is. (The product is taken where [int] does not
    wrap.) *)
Theorem init_sets_default_warmup (env : Env) (bm bm' : BenchEcho) :
  init env bm = Ok bm' ->
  Z.of_nat (length (ConnsMap bm)) * 5 <= int64_max ->
  WarmupTimes bm' =
    if WarmupTimes bm <=? 0
    then Z.min (5 * Z.of_nat (length (ConnsMap bm))) 2000000
    else WarmupTimes bm.
Proof.
  intros Hinit Hn. apply echo_init_Ok in Hinit as (Hw & _). rewrite Hw.
  destruct (WarmupTimes bm <=? 0); [|done].
  rewrite mul64_exact by int_range.
  destruct (Z.of_nat (length (ConnsMap bm)) * 5 >? 2000000) eqn:Hc.
  - apply Z.gtb_lt in Hc. lia.
  - rewrite Z.gtb_ltb in Hc. apply Z.ltb_ge in Hc. lia.
Qed.



End EchoInit.

Lemma init_configured_Ok :
  exists bm', BenchEcho.init Examples.frame_example Examples.env_example
                Examples.bm_configured = Ok bm'.
Proof. vm_compute. eexists. reflexivity. Defined.

Lemma init_sets_default_warmup_witness :
  exists bm',
    BenchEcho.init Examples.frame_example Examples.env_example Examples.bm_configured
      = Ok bm' /\
    Z.of_nat (length (BenchEcho.ConnsMap Examples.bm_configured)) * 5 <= int64_max /\
    BenchEcho.WarmupTimes bm' = 15.
Proof.
  destruct init_configured_Ok as [bm' Hinit]. exists bm'.
  assert (Hn : Z.of_nat (length (BenchEcho.ConnsMap Examples.bm_configured)) * 5
               <= int64_max) by (vm_compute; discriminate).
  split; [exact Hinit|]. split; [exact Hn|].
  exact (init_sets_default_warmup Examples.frame_example Examples.env_example
           Examples.bm_configured bm' Hinit Hn).
Defined.


(** ** The report of the closed-loop mode *)

Section EchoReport.
Import BenchEcho Examples.

(** C9, as the claim states it, fails: a session configured with the single
    percentile 10 keeps it through [init], and its report holds no value of
    rank 10, whatever the calculator computed. *)
Lemma Report_lacks_requested_percentile :
  exists bm',
    BenchEcho.init Examples.frame_example Examples.env_example bm_p10 = Ok bm' /\
    Percents bm' = [10] /\
    forall (calc : Calculator Z) (ps : PSCounter Z) (v : Z),
      (10, v) ∉ report_percentiles Z (Report Z bm' calc ps).
Proof.
  assert (Hinit : exists bm', BenchEcho.init Examples.frame_example
                                Examples.env_example bm_p10 = Ok bm')
    by (vm_compute; eexists; reflexivity).
  destruct Hinit as [bm' Hinit]. exists bm'. split; [exact Hinit|].
  split.
  - by apply echo_init_Ok in Hinit as (_ & -> & _).
  - intros calc ps v Hin. unfold report_percentiles in Hin.
    repeat (apply elem_of_cons in Hin as [Hin|Hin]; [discriminate Hin|]).
    by apply elem_of_nil in Hin.
Qed.

(** C9, amended. The report of the echo mode holds the latency percentiles
    of the five fixed ranks 50, 75, 90, 95 and 99, each as the calculator
    computes it, whatever percentile list the session is configured with;
    they are the ranks [init] puts into [Percents] when none is configured.
    Beside them it holds the calculator's TPS, its min, avg and max latency
    and its success and failure counts. *)
Theorem Report_holds_fixed_percentiles
    (float64 : Type) (bm : BenchEcho) (calc : Calculator float64)
    (ps : PSCounter float64) :
  report_percentiles float64 (Report float64 bm calc ps)
    = [(50, TPN float64 calc 50); (75, TPN float64 calc 75);
       (90, TPN float64 calc 90); (95, TPN float64 calc 95);
       (99, TPN float64 calc 99)]
  /\ r_TPS float64 (Report float64 bm calc ps) = TPS float64 calc
  /\ r_Min float64 (Report float64 bm calc ps) = Min float64 calc
  /\ r_Avg float64 (Report float64 bm calc ps) = Avg float64 calc
  /\ r_Max float64 (Report float64 bm calc ps) = Max float64 calc
  /\ r_Success float64 (Report float64 bm calc ps) = Success float64 calc
  /\ r_Failed float64 (Report float64 bm calc ps) = Failed float64 calc
  /\ (forall EncodeClientMessage env bm0,
        BenchEcho.init EncodeClientMessage env bm0 = Ok bm ->
        Percents bm0 = [] ->
        Percents bm
        = (report_percentiles float64 (Report float64 bm calc ps)).*1).
Proof.
  split_and!; try reflexivity.
  intros Enc env bm0 Hinit Hnone.
  apply echo_init_Ok in Hinit as (_ & -> & _). by rewrite Hnone.
Qed.

End EchoReport.

(** ** The limiter wait and the end of the run *)

Section LimiterWait.
Import Examples.

(** Under [context.Background()] no closed channel moves the return of a
    wait. *)
Lemma WaitN_Background cl burst n now delay :
  WaitN_returns_at cl Background burst n now delay
  = if n >? burst then now else now + delay.
Proof. reflexivity. Qed.

(** C6, as the claim states it, fails: with a send limit configured, a
    worker that calls [limitFn] at instant 0 when its tokens are due at
    instant 100 is released at 100, though the run's done signal fired at
    5. *)
Lemma limiter_wait_outlives_done :
  exists br',
    BenchRate.init frame_example batch_example env_example br_limited = Ok br' /\
    done_at_5 done = Some 5 /\
    BenchRate.limit_tokens br' <= BenchRate.SendLimit br' /\
    call_limitFn (BenchRate.limitFn br') (BenchRate.limit_tokens br')
      done_at_5 0 100 = 100.
Proof.
  eexists. split; [vm_compute; reflexivity|].
  split; [reflexivity|]. split; [vm_compute; discriminate|]. reflexivity.
Qed.

(** C6, amended. When a send limit is configured, [init] builds [limitFn] as
    a wait on the limiter under [context.Background()], in both modes: the
    instant a call returns is the same whatever channel is closed and
    whenever, the run's done signal included; a call that asks for no more
    than the burst returns when its tokens are granted, not before. *)
Theorem limiter_wait_ignores_done :
  (forall EncodeClientMessage BatchBuffers env br br',
      BenchRate.init EncodeClientMessage BatchBuffers env br = Ok br' ->
      0 < BenchRate.SendLimit br ->
      BenchRate.limitFn br' = LimiterWait Background (BenchRate.SendLimit br) /\
      forall n cl now delay,
        call_limitFn (BenchRate.limitFn br') n cl now delay
          = call_limitFn (BenchRate.limitFn br') n (fun _ => None) now delay /\
        (n <= BenchRate.SendLimit br ->
           call_limitFn (BenchRate.limitFn br') n cl now delay = now + delay))
  /\ (forall EncodeClientMessage env bm bm',
      BenchEcho.init EncodeClientMessage env bm = Ok bm' ->
      0 < BenchEcho.Limit bm ->
      BenchEcho.limitFn bm' = LimiterWait Background (BenchEcho.Limit bm) /\
      forall cl now delay,
        call_limitFn (BenchEcho.limitFn bm') 1 cl now delay = now + delay).
Proof.
  split.
  - intros Enc BB env br br' Hinit Hlimit.
    apply rate_init_Ok in Hinit as (_ & _ & _ & _ & Hfn).
    rewrite (proj2 (Z.gtb_lt _ _) Hlimit) in Hfn. rewrite Hfn.
    split; [done|]. intros n cl now delay. simpl.
    rewrite !WaitN_Background. split; [done|].
    intros Hn. destruct (n >? BenchRate.SendLimit br) eqn:Hgt; [|done].
    apply Z.gtb_lt in Hgt. lia.
  - intros Enc env bm bm' Hinit Hlimit.
    apply echo_init_Ok in Hinit as (_ & _ & Hfn & _).
    rewrite (proj2 (Z.gtb_lt _ _) Hlimit) in Hfn. rewrite Hfn.
    split; [done|]. intros cl now delay. simpl.
    rewrite WaitN_Background.
    destruct (1 >? BenchEcho.Limit bm) eqn:Hgt; [|done].
    apply Z.gtb_lt in Hgt. lia.
Qed.

Lemma limiter_wait_ignores_done_witness :
  exists br',
    BenchRate.init frame_example batch_example env_example br_limited = Ok br' /\
    0 < BenchRate.SendLimit br_limited /\
    BenchRate.limitFn br' = LimiterWait Background 10.
Proof.
  assert (Hinit : exists br', BenchRate.init frame_example batch_example
                                env_example br_limited = Ok br')
    by (vm_compute; eexists; reflexivity).
  destruct Hinit as [br' Hinit]. exists br'.
  assert (Hlimit : 0 < BenchRate.SendLimit br_limited) by reflexivity.
  split; [exact Hinit|]. split; [exact Hlimit|].
  exact (proj1 (proj1 limiter_wait_ignores_done frame_example batch_example
                  env_example br_limited br' Hinit Hlimit)).
Defined.

End LimiterWait.

(** * Further properties of the code *)

(** ** The teams of [BenchRate.Run] *)

Section RateTeams.
Import BenchRate RateMore.

Lemma assign_teams_length conns : forall cnt teams,
  length (assign_teams cnt conns teams) = length teams.
Proof.
  induction conns as [|c conns IH]; intros cnt teams; simpl; [done|].
  by rewrite IH, length_alter.
Qed.

(** The size of each team after the assignment. *)
Lemma assign_teams_sizes conns : forall cnt teams i team,
  teams !! i = Some team ->
  exists team',
    assign_teams cnt conns teams !! i = Some team' /\
    length team' = (length team + hits (length teams) i cnt (length conns))%nat.
Proof.
  induction conns as [|c conns IH]; intros cnt teams i team Hi; simpl.
  - exists team. split; [done|]. lia.
  - destruct (decide (S cnt mod length teams = i)%nat) as [Heq|Hne].
    + destruct (IH (S cnt)
                  (alter (fun t => t ++ [c]) (S cnt mod length teams)%nat teams)
                  i (team ++ [c])) as (team' & Hl & Hlen).
      { rewrite Heq, list_lookup_alter_eq, Hi. done. }
      exists team'. split; [done|].
      rewrite Hlen, length_alter, length_app. simpl.
      rewrite (proj2 (Nat.eqb_eq _ _) Heq). lia.
    + destruct (IH (S cnt)
                  (alter (fun t => t ++ [c]) (S cnt mod length teams)%nat teams)
                  i team) as (team' & Hl & Hlen).
      { by rewrite list_lookup_alter_ne. }
      exists team'. split; [done|].
      rewrite Hlen, length_alter.
      rewrite (proj2 (Nat.eqb_neq _ _) Hne). lia.
Qed.

(** Of any [m] successive connections a team gets its share, rounded down or
    up. *)
Lemma hits_closed c i m : forall cnt,
  (0 < c)%nat -> (i < c)%nat ->
  Z.of_nat (hits c i cnt m)
  = (Z.of_nat cnt + Z.of_nat m - Z.of_nat i) / Z.of_nat c
    - (Z.of_nat cnt - Z.of_nat i) / Z.of_nat c.
Proof.
  induction m as [|m IH]; intros cnt Hc Hi; simpl hits.
  - rewrite Z.add_0_r. lia.
  - rewrite Nat2Z.inj_add, IH by done.
    replace (Z.of_nat (S cnt) + Z.of_nat m) with
      (Z.of_nat cnt + Z.of_nat (S m)) by lia.
    assert (Hstep : Z.of_nat (if (S cnt mod c =? i)%nat then 1 else 0)%nat
              = (Z.of_nat (S cnt) - Z.of_nat i) / Z.of_nat c
                - (Z.of_nat cnt - Z.of_nat i) / Z.of_nat c).
    { destruct (S cnt mod c =? i)%nat eqn:Hm.
      - apply Nat.eqb_eq in Hm.
        pose proof (Nat.div_mod (S cnt) c ltac:(lia)) as Hdm.
        rewrite Hm in Hdm.
        replace (Z.of_nat (S cnt) - Z.of_nat i)
          with (Z.of_nat (S cnt / c) * Z.of_nat c) by lia.
        replace (Z.of_nat cnt - Z.of_nat i)
          with (Z.of_nat c - 1 + (Z.of_nat (S cnt / c) - 1) * Z.of_nat c)
          by lia.
        rewrite Z.div_mul, Z.div_add by lia.
        rewrite Z.div_small by lia. lia.
      - apply Nat.eqb_neq in Hm.
        pose proof (Nat.div_mod (S cnt) c ltac:(lia)) as Hdm.
        pose proof (Nat.mod_upper_bound (S cnt) c ltac:(lia)) as Hub.
        set (q := (S cnt / c)%nat) in *. set (r := (S cnt mod c)%nat) in *.
        assert (Hlt : (r < i)%nat \/ (i < r)%nat) by lia.
        destruct Hlt as [Hlt|Hlt].
        + replace (Z.of_nat (S cnt) - Z.of_nat i)
            with (Z.of_nat c + Z.of_nat r - Z.of_nat i
                  + (Z.of_nat q - 1) * Z.of_nat c) by lia.
          replace (Z.of_nat cnt - Z.of_nat i)
            with (Z.of_nat c + Z.of_nat r - Z.of_nat i - 1
                  + (Z.of_nat q - 1) * Z.of_nat c) by lia.
          rewrite !Z.div_add by lia. rewrite !Z.div_small by lia. lia.
        + replace (Z.of_nat (S cnt) - Z.of_nat i)
            with (Z.of_nat r - Z.of_nat i + Z.of_nat q * Z.of_nat c) by lia.
          replace (Z.of_nat cnt - Z.of_nat i)
            with (Z.of_nat r - Z.of_nat i - 1 + Z.of_nat q * Z.of_nat c)
            by lia.
          rewrite !Z.div_add by lia. rewrite !Z.div_small by lia. lia. }
    rewrite Hstep. lia.
Qed.

Lemma div_window a m c :
  0 < c -> 0 <= m ->
  m / c <= (a + m) / c - a / c <= m / c + 1.
Proof.
  intros Hc Hm.
  pose proof (Z.div_mod a c ltac:(lia)).
  pose proof (Z.mod_pos_bound a c Hc).
  pose proof (Z.div_mod m c ltac:(lia)).
  pose proof (Z.mod_pos_bound m c Hc).
  pose proof (Z.div_mod (a + m) c ltac:(lia)).
  pose proof (Z.mod_pos_bound (a + m) c Hc).
  nia.
Qed.

Lemma hits_share c i cnt m :
  (0 < c)%nat -> (i < c)%nat ->
  (m / c <= hits c i cnt m <= m / c + 1)%nat.
Proof.
  intros Hc Hi.
  pose proof (hits_closed c i m cnt Hc Hi) as Hh.
  pose proof (div_window (Z.of_nat cnt - Z.of_nat i) (Z.of_nat m) (Z.of_nat c)
                ltac:(lia) ltac:(lia)) as Hw.
  replace (Z.of_nat cnt - Z.of_nat i + Z.of_nat m)
    with (Z.of_nat cnt + Z.of_nat m - Z.of_nat i) in Hw by lia.
  rewrite <- Hh, <- Nat2Z.inj_div in Hw. lia.
Qed.

(** X1. [Run] makes [Concurrency] teams, and the teams together hold every
    connection of the session exactly once: none is left without a worker
    and none is driven by two. *)
Theorem connTeams_is_partition (concurrency : nat) (conns : list Conn) :
  (0 < concurrency)%nat ->
  length (connTeams concurrency conns) = concurrency /\
  concat (connTeams concurrency conns) ≡ₚ conns.
Proof.
  intros Hc. split; [|by apply connTeams_partition].
  unfold connTeams. by rewrite assign_teams_length, length_replicate.
Qed.

Lemma connTeams_is_partition_witness :
  (0 < 2)%nat /\
  length (connTeams 2 (new_conn <$> [0; 1; 2]%nat)) = 2%nat /\
  concat (connTeams 2 (new_conn <$> [0; 1; 2]%nat))
    ≡ₚ new_conn <$> [0; 1; 2]%nat.
Proof.
  assert (H : (0 < 2)%nat) by lia.
  split; [exact H|].
  exact (connTeams_is_partition 2 (new_conn <$> [0; 1; 2]%nat) H).
Defined.

(** X2. The round-robin assignment of [Run] is balanced: every team gets the
    number of connections divided by the number of teams, rounded down or
    up, so two teams differ by at most one connection. *)
Theorem connTeams_balanced (concurrency : nat) (conns : list Conn)
    (i : nat) (team : list Conn) :
  connTeams concurrency conns !! i = Some team ->
  (length conns / concurrency <= length team
     <= length conns / concurrency + 1)%nat.
Proof.
  intros Hteam. unfold connTeams in Hteam.
  assert (Hi : (i < concurrency)%nat).
  { apply lookup_lt_Some in Hteam.
    by rewrite assign_teams_length, length_replicate in Hteam. }
  destruct (assign_teams_sizes conns 0 (replicate concurrency []) i [])
    as (team' & Hl & Hlen).
  { by apply lookup_replicate_2. }
  rewrite Hl in Hteam. injection Hteam as <-.
  rewrite length_replicate in Hlen. simpl in Hlen. rewrite Hlen.
  apply hits_share; lia.
Qed.

Lemma connTeams_balanced_witness :
  connTeams 2 (new_conn <$> [0; 1; 2]%nat) !! 1%nat
    = Some [new_conn 0; new_conn 2] /\
  (3 / 2 <= 2 <= 3 / 2 + 1)%nat.
Proof.
  assert (H : connTeams 2 (new_conn <$> [0; 1; 2]%nat) !! 1%nat
              = Some [new_conn 0; new_conn 2]) by reflexivity.
  split; [exact H|].
  exact (connTeams_balanced 2 (new_conn <$> [0; 1; 2]%nat) 1
           [new_conn 0; new_conn 2] H).
Defined.

End RateTeams.

(** ** One tick over a team *)

Section RateTick.
Import BenchRate RateMore Examples.

(** X3. The guard of [doOnce] lets a write through exactly when fewer than
    four batches are outstanding: the write is issued while
    [sendCnt - recvCnt < 4 * batch] and skipped from four batches on (the
    fifth batch of the guard's right-hand side is the one about to be
    sent). Counters are taken where they have not wrapped. *)
Theorem doOnce_conn_writes_below_four_batches
    (wr : write_oracle) (br : BenchRate) (conn : Conn) :
  0 <= batch br -> 5 * batch br <= int64_max ->
  in_int64 (sendCnt conn - recvCnt conn) ->
  in_int64 (sendCnt conn - recvCnt conn + batch br) ->
  ((doOnce_conn wr br conn).2 = [mkWrite (conn_id conn) (batchBuffer br)]
     <-> sendCnt conn - recvCnt conn < 4 * batch br) /\
  ((doOnce_conn wr br conn).2 = []
     <-> 4 * batch br <= sendCnt conn - recvCnt conn).
Proof.
  intros Hb H5 H1 H2.
  pose proof (guard_exact (batch br) (sendCnt conn) (recvCnt conn) Hb H5 H1 H2)
    as Hg.
  unfold doOnce_conn. rewrite below_threshold_guard.
  destruct (guard (batch br) (sendCnt conn) (recvCnt conn)).
  - assert (Hlt : sendCnt conn - recvCnt conn < 4 * batch br)
      by (destruct Hg as [Hg _]; specialize (Hg eq_refl); lia).
    destruct (wr (conn_id conn) (batchBuffer br)); simpl;
      (split; split; intros; try done; lia).
  - assert (Hge : 4 * batch br <= sendCnt conn - recvCnt conn).
    { destruct (Z.le_gt_cases (4 * batch br) (sendCnt conn - recvCnt conn))
        as [|Hlt]; [done|].
      assert (Hft : false = true) by (apply Hg; lia). discriminate Hft. }
    simpl. split; split; intros; try done; lia.
Qed.

Lemma doOnce_conn_writes_below_four_batches_witness :
  (doOnce_conn always_ok br_example (mkConn 0 6 0)).2
    = [mkWrite 0 (batchBuffer br_example)]
  /\ (doOnce_conn always_ok br_example (mkConn 0 8 0)).2 = [].
Proof.
  assert (Hb : 0 <= batch br_example) by (simpl; lia).
  assert (H5 : 5 * batch br_example <= int64_max)
    by (unfold int64_max; simpl; lia).
  split.
  - apply (proj1 (doOnce_conn_writes_below_four_batches always_ok br_example
                    (mkConn 0 6 0) Hb H5
                    ltac:(unfold in_int64, int64_min, int64_max; simpl; lia)
                    ltac:(unfold in_int64, int64_min, int64_max; simpl; lia))).
    simpl. lia.
  - apply (proj2 (doOnce_conn_writes_below_four_batches always_ok br_example
                    (mkConn 0 8 0) Hb H5
                    ltac:(unfold in_int64, int64_min, int64_max; simpl; lia)
                    ltac:(unfold in_int64, int64_min, int64_max; simpl; lia))).
    simpl. lia.
Defined.

Lemma doOnce_conn_keeps wr br conn :
  batchBuffer (doOnce_conn wr br conn).1.1 = batchBuffer br /\
  Payload (doOnce_conn wr br conn).1.1 = Payload br /\
  wbuffer (doOnce_conn wr br conn).1.1 = wbuffer br /\
  recvTimes (doOnce_conn wr br conn).1.1 = recvTimes br /\
  recvBytes (doOnce_conn wr br conn).1.1 = recvBytes br /\
  conn_id (doOnce_conn wr br conn).1.2 = conn_id conn /\
  recvCnt (doOnce_conn wr br conn).1.2 = recvCnt conn.
Proof.
  unfold doOnce_conn. destruct (below_threshold br conn); [|done].
  by destruct (wr (conn_id conn) (batchBuffer br)).
Qed.

(** X4. One call of [doOnce] serves its team in order and leaves the team as
    it is but for the send counts: the connections stay the same and in
    place, their receive counts are not touched, at most one write goes to
    each connection, in team order, and every write carries the batch
    buffer. *)
Theorem doOnce_serves_team_in_order
    (wr : write_oracle) (br : BenchRate) (conns : list Conn) :
  conn_id <$> (doOnce wr br conns).1.2 = conn_id <$> conns /\
  recvCnt <$> (doOnce wr br conns).1.2 = recvCnt <$> conns /\
  (w_conn <$> (doOnce wr br conns).2) `sublist_of` (conn_id <$> conns) /\
  Forall (fun call => w_bytes call = batchBuffer br) (doOnce wr br conns).2 /\
  batchBuffer (doOnce wr br conns).1.1 = batchBuffer br.
Proof.
  revert br. induction conns as [|conn rest IH]; intros br; simpl.
  - split_and!; done.
  - pose proof (doOnce_conn_keeps wr br conn)
      as (Hbb & _ & _ & _ & _ & Hid & Hrc).
    assert (Hlog : (doOnce_conn wr br conn).2 = []
                   \/ (doOnce_conn wr br conn).2
                      = [mkWrite (conn_id conn) (batchBuffer br)]).
    { unfold doOnce_conn. destruct (below_threshold br conn); [|by left].
      destruct (wr (conn_id conn) (batchBuffer br)); by right. }
    destruct (doOnce_conn wr br conn) as [[br1 conn1] log1]. simpl in *.
    specialize (IH br1). rewrite Hbb in IH.
    destruct (doOnce wr br1 rest) as [[br2 rest2] log2]. simpl in *.
    destruct IH as (IH1 & IH2 & IH3 & IH4 & IH5).
    split_and!.
    + f_equal; [exact Hid | exact IH1].
    + f_equal; [exact Hrc | exact IH2].
    + destruct Hlog as [-> | ->].
      * apply sublist_cons. exact IH3.
      * apply sublist_skip. exact IH3.
    + destruct Hlog as [-> | ->]; [exact IH4|].
      apply Forall_cons. split; [done | exact IH4].
    + done.
Qed.

End RateTick.

(** ** The session counters and the report of the open-loop mode *)

Section RateAccounting.
Import BenchRate RateMore Examples.

Lemma total_insert (f : Conn -> Z) conns i conn conn' :
  conns !! i = Some conn ->
  total f (<[i := conn']> conns) = total f conns - f conn + f conn'.
Proof.
  unfold total. revert i. induction conns as [|c conns IH]; intros i Hi;
    [done|].
  destruct i as [|i]; simpl in Hi.
  - injection Hi as ->. simpl. lia.
  - specialize (IH i Hi). simpl.
    change (list_fmap Conn Z f ?l) with (f <$> l). lia.
Qed.

Lemma Agree_apply_call s c : Agree s -> Agree (apply_call s c).
Proof.
  destruct s as [br conns]. intros (Hst & Hrt & Hsb & Hrb). simpl in *.
  destruct c as [i wr | i mt b]; simpl.
  - destruct (conns !! i) as [conn|] eqn:Hi; [|done].
    unfold doOnce_conn. destruct (below_threshold br conn); [|simpl].
    + destruct (wr (conn_id conn) (batchBuffer br)); simpl.
      * rewrite list_insert_id by done. done.
      * unfold Agree; simpl. rewrite !(total_insert _ _ _ _ _ Hi). simpl.
        unfold add64, mul64. split_and!.
        -- rewrite Hst, wrap64_add_l, wrap64_add_r. f_equal. lia.
        -- rewrite Hrt. f_equal. lia.
        -- rewrite Hsb, wrap64_add_l, wrap64_add_r, wrap64_mul_r.
           f_equal. lia.
        -- done.
    + rewrite list_insert_id by done. done.
  - destruct (conns !! i) as [conn|] eqn:Hi; [|done].
    unfold onMessage.
    destruct ((mt =? BinaryMessage) && bytes_Equal b (getWriteBuffer br))
      eqn:Hm; simpl.
    + apply andb_true_iff in Hm as [_ Hb]. apply bytes_Equal_true in Hb.
      unfold getWriteBuffer in Hb. subst b.
      unfold Agree; simpl. rewrite !(total_insert _ _ _ _ _ Hi). simpl.
      unfold add64. split_and!.
      * rewrite Hst. f_equal. lia.
      * rewrite Hrt, wrap64_add_l, wrap64_add_r. f_equal. lia.
      * done.
      * rewrite Hrb, wrap64_add_l, wrap64_mul_r. f_equal. lia.
    + rewrite list_insert_id by done. done.
Qed.

Lemma Agree_apply_calls cs : forall s, Agree s -> Agree (apply_calls s cs).
Proof.
  unfold apply_calls. induction cs as [|c cs IH]; intros s Hs; simpl; [done|].
  by apply IH, Agree_apply_call.
Qed.

Lemma total_new ids f : f = sendCnt \/ f = recvCnt -> total f (new_conn <$> ids) = 0.
Proof.
  intros Hf. unfold total.
  induction ids as [|id ids IH]; [done|].
  rewrite !fmap_cons. simpl. rewrite IH. by destruct Hf as [-> | ->].
Qed.

(** X5. The report of a rate session is consistent with its connections.
    Start from a session whose four counters are zero and from the fresh
    connections [Run] makes, and let the loop body of [doOnce] and
    [onMessage] be called any number of times, on any connections, in any
    order, with any write results and any messages. Then, in [int64]
    arithmetic, the reported send and receive counts are the sums of the
    connections' counters, the reported send bytes are [Payload] times the
    send count and the reported receive bytes are the length of [wbuffer]
    times the receive count. [clean], which [Run] defers, changes nothing of
    this. *)
Theorem Report_agrees_with_connections
    (float64 : Type) (ps : BenchEcho.PSCounter float64)
    (br : BenchRate) (ids : list nat) (cs : list call) :
  sendTimes br = 0 -> sendBytes br = 0 ->
  recvTimes br = 0 -> recvBytes br = 0 ->
  let s := apply_calls (br, new_conn <$> ids) cs in
  let r := Report float64 (clean s.1) ps in
  r_SendTimes float64 r = wrap64 (total sendCnt s.2) /\
  r_RecvTimes float64 r = wrap64 (total recvCnt s.2) /\
  r_SendBytes float64 r = wrap64 (r_Payload float64 r * r_SendTimes float64 r) /\
  r_RecvBytes float64 r
    = wrap64 (Z.of_nat (length (wbuffer br)) * r_RecvTimes float64 r) /\
  r_Payload float64 r = Payload br.
Proof.
  intros H1 H2 H3 H4 s r.
  assert (Hs : Agree s).
  { apply Agree_apply_calls. unfold Agree; simpl.
    rewrite !total_new by auto. rewrite H1, H2, H3, H4.
    rewrite !Z.mul_0_r. by split_and!. }
  assert (Hk : forall cs s0, Payload (apply_calls s0 cs).1 = Payload s0.1 /\
                             wbuffer (apply_calls s0 cs).1 = wbuffer s0.1).
  { clear. unfold apply_calls.
    induction cs as [|c cs IH]; intros s0; simpl; [done|].
    destruct (IH (apply_call s0 c)) as [-> ->].
    destruct s0 as [br conns]. destruct c as [i wr|i mt b]; simpl.
    - destruct (conns !! i) as [conn|]; [|done].
      pose proof (doOnce_conn_keeps wr br conn) as (_ & Hp & Hw & _).
      by destruct (doOnce_conn wr br conn) as [[??]?].
    - destruct (conns !! i) as [conn|]; [|done].
      unfold onMessage. by destruct (_ && _). }
  destruct (Hk cs (br, new_conn <$> ids)) as [HP HW]. fold s in HP, HW.
  destruct Hs as (Hst & Hrt & Hsb & Hrb).
  subst r. simpl in *. rewrite <- HW, <- HP. by split_and!.
Qed.

Lemma Report_agrees_with_connections_witness :
  let s := apply_calls (br_example, new_conn <$> [0; 1]%nat)
             [Send 0 always_ok; Message 0 BinaryMessage [x2a];
              Send 1 always_ok; Send 0 always_ok] in
  r_SendTimes Z (Report Z (clean s.1)
                   (BenchEcho.mkPSCounter Z 0 0 0 0 0 0))
  = wrap64 (total sendCnt s.2).
Proof.
  exact (proj1 (Report_agrees_with_connections Z
                  (BenchEcho.mkPSCounter Z 0 0 0 0 0 0) br_example [0; 1]%nat
                  [Send 0 always_ok; Message 0 BinaryMessage [x2a];
                   Send 1 always_ok; Send 0 always_ok]
                  eq_refl eq_refl eq_refl eq_refl)).
Defined.

End RateAccounting.

(** ** A peer that echoes *)

Section RateEcho.
Import BenchRate RateMore Examples.

Lemma onMessage_own_buffer br conn :
  onMessage br conn BinaryMessage (wbuffer br)
  = (set_recv br (add64 (recvTimes br) 1)
       (add64 (recvBytes br) (Z.of_nat (length (wbuffer br)))),
     set_recvCnt conn (add64 (recvCnt conn) 1)).
Proof.
  unfold onMessage, getWriteBuffer.
  by rewrite Z.eqb_refl, (proj2 (bytes_Equal_true _ _) eq_refl).
Qed.

Lemma deliver_echoes k : forall br conn,
  in_int64 (recvCnt conn + Z.of_nat k) -> 0 <= recvCnt conn ->
  let s := deliver br conn
             (replicate k (Server.OnMessage BinaryMessage (wbuffer br))) in
  recvCnt s.2 = recvCnt conn + Z.of_nat k /\
  sendCnt s.2 = sendCnt conn /\ conn_id s.2 = conn_id conn /\
  batch s.1 = batch br /\ wbuffer s.1 = wbuffer br /\
  batchBuffer s.1 = batchBuffer br.
Proof.
  unfold deliver, Server.OnMessage.
  induction k as [|k IH]; intros br conn Hr H0.
  - simpl. split_and!; try done. lia.
  - assert (H1 : in_int64 (recvCnt conn + 1)) by int_range.
    cbn [replicate fold_left fst snd]. rewrite onMessage_own_buffer.
    specialize (IH (set_recv br (add64 (recvTimes br) 1)
                      (add64 (recvBytes br) (Z.of_nat (length (wbuffer br)))))
                   (set_recvCnt conn (add64 (recvCnt conn) 1))).
    cbn [wbuffer set_recv recvCnt set_recvCnt sendCnt conn_id batch
         batchBuffer] in IH.
    rewrite (add64_exact (recvCnt conn) 1) in IH by done.
    destruct IH as (I1 & I2 & I3 & I4 & I5 & I6); [int_range | lia |].
    rewrite (add64_exact (recvCnt conn) 1) by done.
    split_and!; try done. rewrite I1. lia.
Qed.

Lemma echo_round_written br conn :
  below_threshold br conn = true ->
  echo_round always_ok br conn
  = deliver (set_send br (add64 (sendTimes br) (batch br))
               (add64 (sendBytes br) (mul64 (batch br) (Payload br))))
            (set_sendCnt conn (add64 (sendCnt conn) (batch br)))
            (replicate (Z.to_nat (batch br))
               (Server.OnMessage BinaryMessage (wbuffer br))).
Proof.
  intros Hg. unfold echo_round, doOnce_conn, always_ok. by rewrite Hg.
Qed.

(** X6. A connection whose peer echoes every message is never held back.
    With the replies of the echoing server delivered between the ticks and
    every write going through, each tick sends one more batch: after [n]
    rounds the send count and the receive count both stand [n] batches
    higher, for every [n] (short of wrap-around) -- where a peer that stays
    silent stops the connection after four batches. *)
Theorem echo_rounds_never_held_back
    (n : nat) (br : BenchRate) (conn : Conn) :
  1 <= batch br -> 5 * batch br <= int64_max ->
  0 <= recvCnt conn -> sendCnt conn = recvCnt conn ->
  recvCnt conn + Z.of_nat n * batch br <= int64_max ->
  sendCnt (echo_rounds n always_ok br conn).2
    = sendCnt conn + Z.of_nat n * batch br /\
  recvCnt (echo_rounds n always_ok br conn).2
    = recvCnt conn + Z.of_nat n * batch br.
Proof.
  revert br conn. induction n as [|n IH]; intros br conn Hb H5 Hr Heq Hmax.
  - simpl. lia.
  - simpl echo_rounds.
    assert (Hg : below_threshold br conn = true).
    { rewrite below_threshold_guard. apply guard_exact; try int_range. }
    rewrite (echo_round_written br conn Hg).
    assert (Hstep : recvCnt conn + batch br <= int64_max) by nia.
    set (br0 := set_send br (add64 (sendTimes br) (batch br))
                  (add64 (sendBytes br) (mul64 (batch br) (Payload br)))).
    set (conn0 := set_sendCnt conn (add64 (sendCnt conn) (batch br))).
    pose proof (deliver_echoes (Z.to_nat (batch br)) br0 conn0) as Hd.
    cbv zeta in Hd. change (wbuffer br0) with (wbuffer br) in Hd.
    change (recvCnt conn0) with (recvCnt conn) in Hd.
    change (sendCnt conn0) with (add64 (sendCnt conn) (batch br)) in Hd.
    change (batch br0) with (batch br) in Hd.
    rewrite Z2Nat.id in Hd by lia.
    rewrite add64_exact in Hd by int_range.
    revert Hd.
    destruct (deliver br0 conn0 _) as [br1 conn1]. cbn [fst snd].
    intros Hd.
    destruct Hd as (H1 & H2 & _ & H4 & _); [int_range | lia |].
    destruct (IH br1 conn1) as [IH1 IH2]; [lia..|].
    rewrite IH1, IH2, H1, H2, H4. lia.
Qed.

Lemma echo_rounds_never_held_back_witness :
  sendCnt (echo_rounds 9 always_ok br_example (new_conn 0)).2 = 18 /\
  recvCnt (echo_rounds 9 always_ok br_example (new_conn 0)).2 = 18.
Proof.
  apply (echo_rounds_never_held_back 9 br_example (new_conn 0)); simpl;
    unfold int64_max; lia.
Defined.

(** X7. The period of the workers' tickers, [time.Second / tickRate] in whole
    nanoseconds, is between one nanosecond and one second when
    [1 <= tickRate <= 10^9], and [tickRate] periods fall short of a second by
    less than [tickRate] nanoseconds; for a larger tick rate, which [init]
    lets through, the period is zero. *)
Theorem tick_period_bounds (br : BenchRate) :
  (1 <= tickRate br <= Second ->
     1 <= tick_period br <= Second /\
     Second - tickRate br < tick_period br * tickRate br <= Second)
  /\ (Second < tickRate br -> tick_period br = 0).
Proof.
  unfold tick_period, Second. split.
  - intros Ht. rewrite Z.quot_div_nonneg by lia.
    pose proof (Z.div_mod 1000000000 (tickRate br) ltac:(lia)).
    pose proof (Z.mod_pos_bound 1000000000 (tickRate br) ltac:(lia)).
    nia.
  - intros Ht. apply Z.quot_small. lia.
Qed.

End RateEcho.

(** ** The configuration [init] leaves, open-loop mode *)

Section RateConfig.
Import BenchRate RateMore Examples.

Variable EncodeClientMessage : Z -> list byte -> list byte.
Variable BatchBuffers : list byte -> Z -> Z -> list byte * Z * Z.

Lemma length_concat_replicate {A} (k : nat) (l : list A) :
  length (concat (replicate k l)) = (k * length l)%nat.
Proof.
  induction k as [|k IH]; simpl; [done|]. by rewrite length_app, IH.
Qed.

(** X8. Every session [init] completes on has a usable configuration, set or
    defaulted: a positive duration, sampling interval, send rate and
    payload size; a concurrency between 0 and the number of connections,
    and at least 1 when there is a connection, so [Run] never computes a
    team index modulo zero; a send buffer of exactly [Payload] bytes; and
    [SendRate] queued copies of every connection. What was configured with
    a positive value is kept. *)
Theorem rate_init_configuration (env : Env) (br br' : BenchRate) :
  BenchRate.init EncodeClientMessage BatchBuffers env br = Ok br' ->
  (0 < Duration br' /\ 0 < PsInterval br' /\
   1 <= SendRate br' /\ 1 <= Payload br') /\
  (0 <= Concurrency br' <= Z.of_nat (length (ConnsMap br)) /\
   (ConnsMap br <> [] -> 1 <= Concurrency br')) /\
  (Z.of_nat (length (wbuffer br')) = Payload br' /\
   Z.of_nat (length (chConns br'))
     = SendRate br' * Z.of_nat (length (ConnsMap br))) /\
  ((0 < Duration br -> Duration br' = Duration br) /\
   (0 < PsInterval br -> PsInterval br' = PsInterval br) /\
   (0 < SendRate br -> SendRate br' = SendRate br) /\
   (0 < Payload br -> Payload br' = Payload br) /\
   (0 < Concurrency br <= Z.of_nat (length (ConnsMap br)) ->
      Concurrency br' = Concurrency br)).
Proof.
  unfold BenchRate.init.
  destruct (BatchBuffers _ _ _) as [[bbuf b] rate].
  destruct ((rate <=? 0) || (Z.of_nat (length bbuf) =? 0)); [done|].
  destruct (GetFrameworkPid env) as [e|pid]; [done|].
  destruct (NewPSCounter env pid); [done|].
  intros [= <-]. cbn [Duration PsInterval SendRate Payload Concurrency
                      wbuffer chConns].
  assert (Hn : 0 <= Z.of_nat (length (ConnsMap br))) by lia.
  assert (Hne : ConnsMap br <> [] -> 1 <= Z.of_nat (length (ConnsMap br))).
  { destruct (ConnsMap br); [done|]. simpl. lia. }
  unfold rand_Read.
  rewrite length_map, length_seq, length_concat_replicate.
  change (mul64 Second 10) with 10000000000. unfold Second.
  destruct (Concurrency br <=? 0) eqn:?.
  all: repeat match goal with
         | |- context [if ?c then _ else _] => destruct c eqn:?
         end.
  all: repeat match goal with
         | H : (_ <=? _) = true |- _ => apply Z.leb_le in H
         | H : (_ <=? _) = false |- _ => apply Z.leb_gt in H
         | H : (_ >? _) = true |- _ => apply Z.gtb_lt in H
         | H : (_ >? _) = false |- _ =>
             rewrite Z.gtb_ltb in H; apply Z.ltb_ge in H
         end.
  all: split_and!; try lia; try (intros; lia);
    try (intros Hx; specialize (Hne Hx); lia).
Qed.

(** X9. A send limit below the tokens one call asks for limits nothing. A
    call of [limitFn] asks for [len(batchBuffer)/Payload] tokens; when that
    is more than the configured [SendLimit], which is the limiter's burst,
    the wait is refused at once, [limitFn] drops the error, and the write
    follows without delay however long the bucket would take to fill. *)
Theorem limit_below_batch_does_not_limit
    (env : Env) (br br' : BenchRate) (cl : closings) (now delay : Z) :
  BenchRate.init EncodeClientMessage BatchBuffers env br = Ok br' ->
  0 < SendLimit br -> SendLimit br < limit_tokens br' ->
  call_limitFn (limitFn br') (limit_tokens br') cl now delay = now.
Proof.
  intros Hinit Hlimit Hlt.
  apply rate_init_Ok in Hinit as (_ & _ & _ & _ & Hfn).
  rewrite (proj2 (Z.gtb_lt _ _) Hlimit) in Hfn. rewrite Hfn. simpl.
  unfold WaitN_returns_at.
  by rewrite (proj2 (Z.gtb_lt _ _) Hlt).
Qed.

End RateConfig.

Lemma rate_init_configuration_witness :
  exists br',
    BenchRate.init Examples.frame_example Examples.batch_example
      Examples.env_example Examples.br_limited = Ok br' /\
    1 <= BenchRate.Concurrency br'.
Proof.
  assert (Hinit : exists br', BenchRate.init Examples.frame_example
                    Examples.batch_example Examples.env_example
                    Examples.br_limited = Ok br')
    by (vm_compute; eexists; reflexivity).
  destruct Hinit as [br' Hinit]. exists br'. split; [exact Hinit|].
  apply (proj2 (proj1 (proj2 (rate_init_configuration Examples.frame_example
                                Examples.batch_example Examples.env_example
                                Examples.br_limited br' Hinit)))).
  discriminate.
Defined.

(** The limit of 2 is below the 3 tokens the one-frame batch asks for. *)
Lemma limit_below_batch_does_not_limit_witness :
  exists br',
    BenchRate.init Examples.frame_example Examples.batch_example
      Examples.env_example Examples.br_limit2 = Ok br' /\
    call_limitFn (BenchRate.limitFn br') (BenchRate.limit_tokens br')
      Examples.done_at_5 0 100 = 0.
Proof.
  assert (Hinit : exists br', BenchRate.init Examples.frame_example
                    Examples.batch_example Examples.env_example
                    Examples.br_limit2 = Ok br'
                  /\ BenchRate.SendLimit Examples.br_limit2
                     < BenchRate.limit_tokens br')
    by (vm_compute; eexists; split; reflexivity).
  destruct Hinit as (br' & Hinit & Hlt). exists br'. split; [exact Hinit|].
  exact (limit_below_batch_does_not_limit Examples.frame_example
           Examples.batch_example Examples.env_example Examples.br_limit2 br'
           Examples.done_at_5 0 100 Hinit eq_refl Hlt).
Defined.

(** ** The connection queue of the closed-loop mode *)

Section EchoQueue.
Import BenchEcho EchoMore Examples.

(** X10. A call takes the connection at the head of the queue and, whenever
    it comes back -- with a result, an error or a panic -- has put that
    connection at the end: no connection is lost on an error path. With an
    empty queue the call blocks and writes nothing. No call writes more
    than one frame. *)
Theorem doOnce_returns_the_connection (bm : BenchEcho) (env : CallEnv) :
  (chConns bm = [] -> doOnce bm env = (Blocked, [], bm))
  /\ (forall conn waiting,
        chConns bm = conn :: waiting ->
        (doOnce bm env).1.1 <> Blocked ->
        chConns (doOnce bm env).2 = waiting ++ [conn])
  /\ ((doOnce bm env).1.1 <> Blocked ->
        chConns (doOnce bm env).2 ≡ₚ chConns bm)
  /\ (length (doOnce bm env).1.2 <= 1)%nat.
Proof.
  assert (Hmain : forall conn waiting,
             chConns bm = conn :: waiting ->
             ((doOnce bm env).1.1 <> Blocked ->
              chConns (doOnce bm env).2 = waiting ++ [conn])
             /\ (length (doOnce bm env).1.2 <= 1)%nat).
  { intros conn waiting Hch. unfold doOnce. rewrite Hch.
    destruct (getBuffers bm (Intn env)) as [[p w]|]; [|by split; auto].
    destruct (Write env w); [by split; auto|].
    destruct (NextReader env) as [e|[mt reader]]; [by split; auto|].
    destruct (read_loop _ _ _ _ _) as [[[[e|] buf] n]|]; try (by split; auto).
    destruct (negb (mt =? BinaryMessage)); [by split; auto|].
    by destruct (negb (bytes_Equal p (take n buf))); split; auto. }
  split_and!.
  - intros Hch. unfold doOnce. by rewrite Hch.
  - intros conn waiting Hch. by apply Hmain.
  - intros Hout. destruct (chConns bm) as [|conn waiting] eqn:Hch.
    + exfalso. apply Hout. unfold doOnce. by rewrite Hch.
    + rewrite (proj1 (Hmain conn waiting eq_refl) Hout).
      symmetry. apply Permutation_cons_append.
  - destruct (chConns bm) as [|conn waiting] eqn:Hch.
    + unfold doOnce. rewrite Hch. simpl. lia.
    + by apply (Hmain conn waiting).
Qed.

Lemma getBuffers_tables bm1 bm2 r :
  pbuffers bm1 = pbuffers bm2 -> wbuffers bm1 = wbuffers bm2 ->
  getBuffers bm1 r = getBuffers bm2 r.
Proof. unfold getBuffers. by intros -> ->. Qed.

Lemma rotate_next {A} (l : list A) (k : nat) :
  rotate (S k) l
  = match rotate k l with
    | [] => []
    | c :: waiting => waiting ++ [c]
    end.
Proof.
  destruct l as [|a0 l0] eqn:Hl;
    [unfold rotate; by rewrite !drop_nil, !take_nil|].
  rewrite <- Hl. assert (Hn : (0 < length l)%nat) by (subst l; simpl; lia).
  clear Hl. unfold rotate.
  pose proof (Nat.mod_upper_bound k (length l) ltac:(lia)) as Hr.
  pose proof (Nat.div_mod k (length l) ltac:(lia)) as Hk.
  set (r := (k mod length l)%nat) in *.
  destruct (lookup_lt_is_Some_2 l r Hr) as [x Hx].
  rewrite (drop_S l x r Hx). simpl.
  destruct (decide (S r = length l)) as [Hfull|Hmore].
  - replace (S k mod length l)%nat with 0%nat.
    + rewrite (drop_ge l (S r)) by lia.
      rewrite drop_0, take_0, (right_id_L [] (++)), (left_id_L [] (++)).
      by rewrite <- (take_S_r l r x Hx), (take_ge l (S r)) by lia.
    + apply (Nat.mod_unique (S k) (length l) (S (k / length l))); lia.
  - replace (S k mod length l)%nat with (S r).
    + by rewrite (take_S_r l r x Hx), (assoc_L (++)).
    + apply (Nat.mod_unique (S k) (length l) (k / length l)); lia.
Qed.

Lemma rotate_zero {A} (l : list A) : rotate 0 l = l.
Proof.
  unfold rotate. rewrite Nat.Div0.mod_0_l.
  by rewrite drop_0, take_0, (right_id_L [] (++)).
Qed.

Lemma rotate_full {A} (l : list A) : rotate (length l) l = l.
Proof.
  unfold rotate. rewrite Nat.Div0.mod_same.
  by rewrite drop_0, take_0, (right_id_L [] (++)).
Qed.

(** X11. Calls made one after the other go round the connections in queue
    order. When each call finds a payload and a pooled buffer, every call
    returns, the queue after [k] calls is the original queue rotated by [k]
    -- so call number [k] uses the connection at position [k mod n] -- and
    after as many calls as there are connections the queue is as it was. *)
Theorem calls_go_round_the_queue (envs : list CallEnv) (bm : BenchEcho) :
  chConns bm <> [] ->
  Forall (ready bm) envs ->
  Forall (fun out => exists r, out = Returned r) (calls bm envs).1 /\
  length (calls bm envs).1 = length envs /\
  chConns (calls bm envs).2 = rotate (length envs) (chConns bm) /\
  (length envs = length (chConns bm) ->
     chConns (calls bm envs).2 = chConns bm).
Proof.
  intros Hne Hready.
  assert (Hgen : forall envs bm0 k,
            pbuffers bm0 = pbuffers bm -> wbuffers bm0 = wbuffers bm ->
            chConns bm0 = rotate k (chConns bm) ->
            Forall (ready bm) envs ->
            Forall (fun out => exists r, out = Returned r) (calls bm0 envs).1 /\
            length (calls bm0 envs).1 = length envs /\
            chConns (calls bm0 envs).2
              = rotate (k + length envs) (chConns bm)).
  { clear envs Hready.
    induction envs as [|env envs IH]; intros bm0 k Hp Hw Hch Hready; simpl.
    - rewrite Nat.add_0_r. by split_and!.
    - apply Forall_cons in Hready as [[[pw Hget] Hrb] Hready].
      destruct pw as [p w].
      rewrite <- (getBuffers_tables bm0 bm _ Hp Hw) in Hget.
      destruct (chConns bm0) as [|conn waiting] eqn:Hch0.
      { exfalso. apply (f_equal length) in Hch. rewrite length_rotate in Hch.
        destruct (chConns bm); [done|]. simpl in Hch. lia. }
      rewrite (doOnce_returns bm0 env conn waiting p w Hch0 Hget Hrb).
      destruct (IH (set_chConns bm0 (waiting ++ [conn])) (S k))
        as (I1 & I2 & I3); try done.
      { simpl. by rewrite rotate_next, <- Hch. }
      destruct (calls _ envs) as [outs bm2]. simpl in *.
      split_and!.
      + apply Forall_cons. split; [eauto | done].
      + by rewrite I2.
      + rewrite I3. f_equal. lia. }
  destruct (Hgen envs bm 0%nat) as (H1 & H2 & H3); try done.
  { by rewrite rotate_zero. }
  simpl in H3. split_and!; try done.
  intros Hlen. by rewrite H3, Hlen, rotate_full.
Qed.

(** Two calls on a queue of three connections: the queue [0; 1; 2] becomes
    [2; 0; 1]. *)
Lemma calls_go_round_the_queue_witness :
  chConns bm_three <> [] /\
  Forall (ready bm_three) [one_byte_off; one_byte_off] /\
  rotate 2 (chConns bm_three) = [2; 0; 1]%nat /\
  chConns (calls bm_three [one_byte_off; one_byte_off]).2 = [2; 0; 1]%nat /\
  length (calls bm_three [one_byte_off; one_byte_off]).1 = 2%nat.
Proof.
  assert (H1 : chConns bm_three <> []) by discriminate.
  assert (H2 : Forall (ready bm_three) [one_byte_off; one_byte_off]).
  { repeat apply Forall_cons_2; try apply Forall_nil_2;
      (split; [by eexists | simpl; lia]). }
  destruct (calls_go_round_the_queue [one_byte_off; one_byte_off] bm_three
              H1 H2) as (_ & Hlen & Hrot & _).
  exact (conj H1 (conj H2 (conj eq_refl (conj Hrot Hlen)))).
Defined.

End EchoQueue.

(** ** What a closed-loop call depends on *)

Section EchoTransport.
Import BenchEcho EchoMore Examples.

(** X12. The result of a call depends on the message only through its bytes
    and its error: it is the same however the transport cuts the message
    into reads, and whatever buffer the pool hands out, of any positive
    size and with any stale content. *)
Theorem doOnce_ignores_fragmentation_and_pool
    (bm : BenchEcho) (env1 env2 : CallEnv) (mt : Z) (reader1 reader2 : Reader) :
  chConns bm <> [] ->
  ready bm env1 -> ready bm env2 ->
  Intn env1 = Intn env2 ->
  (forall frame, Write env1 frame = Write env2 frame) ->
  NextReader env1 = inr (mt, reader1) ->
  NextReader env2 = inr (mt, reader2) ->
  received reader1 = received reader2 ->
  read_error reader1 = read_error reader2 ->
  doOnce bm env1 = doOnce bm env2.
Proof.
  intros Hne [[[p w] Hget1] Hrb1] [[pw2 Hget2] Hrb2] HI HW H1 H2 Hrecv Herr.
  destruct (chConns bm) as [|conn waiting] eqn:Hch; [done|].
  rewrite <- HI, Hget1 in Hget2. injection Hget2 as <-.
  rewrite (doOnce_returns bm env1 conn waiting p w Hch Hget1 Hrb1).
  rewrite (doOnce_returns bm env2 conn waiting p w Hch) by
    (by rewrite <- ?HI).
  unfold call_result. by rewrite HW, H1, H2, Hrecv, Herr.
Qed.

Lemma doOnce_ignores_fragmentation_and_pool_witness :
  doOnce bm_example
    (mkCallEnv 0 (fun _ => None) [x00]
       (inr (BinaryMessage, [([x2a], RNil); ([], REOF)])))
  = doOnce bm_example
      (mkCallEnv 0 (fun _ => None) [xff; xff; xff]
         (inr (BinaryMessage, [([], RNil); ([x2a], REOF)]))).
Proof.
  apply (doOnce_ignores_fragmentation_and_pool bm_example _ _ BinaryMessage
           [([x2a], RNil); ([], REOF)] [([], RNil); ([x2a], REOF)]);
    try reflexivity.
  - discriminate.
  - split; [by eexists | simpl; lia].
  - split; [by eexists | simpl; lia].
Defined.

Lemma chunked_received chunks :
  received (chunked chunks) = concat chunks /\
  read_error (chunked chunks) = None.
Proof.
  unfold chunked. induction chunks as [|c chunks [IH1 IH2]].
  - done.
  - rewrite fmap_cons, <- app_comm_cons.
    change (received ((c, RNil) :: ?r)) with (c ++ received r).
    change (read_error ((c, RNil) :: ?r)) with (read_error r).
    by rewrite IH1, IH2.
Qed.

(** X13. Against the echoing server a call succeeds. When the write goes
    through and the reply is what the server's handler writes back for the
    binary message carrying the payload, the call returns no error, in
    however many chunks the reply is read. *)
Theorem doOnce_succeeds_on_echo
    (bm : BenchEcho) (env : CallEnv) (conn : nat) (waiting : list nat)
    (p w : list byte) (chunks : list (list byte)) :
  chConns bm = conn :: waiting ->
  getBuffers bm (Intn env) = Some (p, w) ->
  (0 < length (rbuffer env))%nat ->
  Write env w = None ->
  concat chunks = (Server.OnMessage BinaryMessage p).2 ->
  NextReader env
    = inr ((Server.OnMessage BinaryMessage p).1, chunked chunks) ->
  doOnce bm env = (Returned None, [w], set_chConns bm (waiting ++ [conn])).
Proof.
  intros Hch Hget Hrb Hw Hchunks Hnext.
  rewrite (doOnce_returns bm env conn waiting p w Hch Hget Hrb).
  unfold call_result. rewrite Hw, Hnext.
  destruct (chunked_received chunks) as [-> ->]. rewrite Hchunks.
  simpl. by rewrite (proj2 (bytes_Equal_true _ _) eq_refl).
Qed.

Lemma doOnce_succeeds_on_echo_witness :
  doOnce bm_example
    (mkCallEnv 0 (fun _ => None) [x00]
       (inr (BinaryMessage, chunked [[]; [x2a]])))
  = (Returned None, [[x82; x01; x2a]], set_chConns bm_example [0%nat]).
Proof.
  apply (doOnce_succeeds_on_echo bm_example _ 0%nat [] [x2a] [x82; x01; x2a]
           [[]; [x2a]]); try reflexivity.
  simpl. lia.
Defined.

(** The loop never reads past the buffer, fills it from where it stood, and
    grows it only when it is full. *)
Lemma read_loop_length fuel : forall rlen reader buf nread res buf' nread',
  (nread <= length buf)%nat ->
  read_loop fuel rlen reader buf nread = Some (res, buf', nread') ->
  (nread' <= length buf')%nat /\
  (length buf <= length buf')%nat /\
  (length buf' <= max (length buf) (nread + length (received reader) + rlen))%nat /\
  ((nread + length (received reader) < length buf)%nat ->
     length buf' = length buf).
Proof.
  induction fuel as [|fuel IH];
    intros rlen reader buf nread res buf' nread' Hn Hloop; [done|].
  simpl in Hloop.
  set (buf1 := if (nread =? length buf)%nat then buf ++ take rlen buf else buf)
    in *.
  assert (Hb1 : (nread <= length buf1)%nat /\ (length buf <= length buf1)%nat /\
                (length buf1 <= max (length buf) (nread + rlen))%nat /\
                ((nread < length buf)%nat -> buf1 = buf)).
  { unfold buf1. destruct (nread =? length buf)%nat eqn:Hfull.
    - apply Nat.eqb_eq in Hfull. rewrite length_app, length_take.
      split_and!; try lia.
    - apply Nat.eqb_neq in Hfull. split_and!; try done; lia. }
  destruct Hb1 as (Hn1 & Hge1 & Hle1 & Hsame1).
  destruct (Read reader (length buf1 - nread)) as [[data err] reader'] eqn:HR.
  apply Read_spec in HR as (Hfit & Hnil & Heof & Herr).
  destruct (write_at_prefix buf1 data nread) as [Hlen2 _]; [lia|].
  destruct err as [| |e].
  - destruct Hnil as (Hrecv & _ & _); [done|].
    apply IH in Hloop as (I1 & I2 & I3 & I4); [|lia].
    rewrite Hlen2 in I2, I3, I4. rewrite Hrecv, length_app.
    assert (Hnn : (nread + length data + length (received reader')
                   = nread + (length data + length (received reader')))%nat)
      by lia.
    split_and!; try lia.
    intros Hlt. rewrite I4 by lia. by rewrite Hsame1 by lia.
  - destruct Heof as [Hrecv _]; [done|]. simplify_eq. rewrite Hlen2.
    split_and!; try lia. intros Hlt. by rewrite Hsame1 by lia.
  - destruct (Herr e) as [Hrecv _]; [done|]. simplify_eq. rewrite Hlen2.
    split_and!; try lia. intros Hlt. by rewrite Hsame1 by lia.
Qed.

(** X14. The read buffer of a call stays within one pooled buffer of the
    message. Started on a pooled buffer of [rlen > 0] bytes, the loop of
    [doOnce] ends with [nread] the length of the message and a buffer of at
    least [rlen] and at most the message length plus [rlen] bytes; a
    message shorter than the pooled buffer is read without growing it. *)
Theorem read_loop_buffer_bounded (rbuf : list byte) (reader : Reader) :
  (0 < length rbuf)%nat ->
  exists buf' nread',
    read_loop (S (reader_size reader)) (length rbuf) reader rbuf 0
      = Some (read_error reader, buf', nread') /\
    nread' = length (received reader) /\
    take nread' buf' = received reader /\
    (length rbuf <= length buf' <= length (received reader) + length rbuf)%nat /\
    ((length (received reader) < length rbuf)%nat ->
       length buf' = length rbuf).
Proof.
  intros Hpos.
  destruct (read_loop_spec (S (reader_size reader)) (length rbuf) reader rbuf 0)
    as (buf' & nread' & Hloop & Htake); try lia.
  exists buf', nread'. simpl in Htake.
  destruct (read_loop_length _ _ _ _ _ _ _ _ (Nat.le_0_l _) Hloop)
    as (H1 & H2 & H3 & H4).
  assert (Hn : nread' = length (received reader)).
  { rewrite <- Htake, length_take. lia. }
  split_and!; try done; try lia.
Qed.

Lemma read_loop_buffer_bounded_witness :
  exists buf' nread',
    read_loop 7 2 [([x01; x02; x03], RNil); ([x04; x05], REOF)] [x00; x00] 0
      = Some (None, buf', nread') /\
    nread' = 5%nat /\
    take nread' buf' = [x01; x02; x03; x04; x05] /\
    (2 <= length buf' <= 5 + 2)%nat /\
    ((5 < 2)%nat -> length buf' = 2%nat).
Proof.
  apply (read_loop_buffer_bounded [x00; x00]
           [([x01; x02; x03], RNil); ([x04; x05], REOF)]).
  simpl. lia.
Defined.

End EchoTransport.

(** ** The session [init] leaves, closed-loop mode *)

Section EchoConfig.
Import BenchEcho EchoMore Examples.

Variable EncodeClientMessage : Z -> list byte -> list byte.

Lemma getBuffers_total bm r :
  length (pbuffers bm) = 1024%nat -> length (wbuffers bm) = 1024%nat ->
  is_Some (getBuffers bm r).
Proof.
  intros Hl1 Hl2. unfold getBuffers. rewrite Hl2.
  replace (wrapu32 (Z.of_nat 1024)) with 1024 by reflexivity.
  replace (1024 =? 0) with false by reflexivity.
  assert (Hidx : (Z.to_nat (wrapu32 r mod 1024) < 1024)%nat).
  { unfold wrapu32.
    pose proof (Z.mod_pos_bound (r mod 2 ^ 32) 1024 ltac:(lia)). lia. }
  destruct (lookup_lt_is_Some_2 (pbuffers bm) _ ltac:(rewrite Hl1; exact Hidx))
    as [p Hp].
  destruct (lookup_lt_is_Some_2 (wbuffers bm) _ ltac:(rewrite Hl2; exact Hidx))
    as [w Hw].
  rewrite Hp, Hw. by eexists.
Qed.

(** X15. After [init] no call panics, whatever index the random source
    draws: the two tables have the 1024 entries [getBuffers] indexes modulo
    their length. With a connection in the session and a pooled buffer that
    is not empty every call returns, with nil or with an error. *)
Theorem doOnce_after_init_returns (env : Env) (bm bm' : BenchEcho)
    (cenv : CallEnv) :
  BenchEcho.init EncodeClientMessage env bm = Ok bm' ->
  (doOnce bm' cenv).1.1 <> Panicked /\
  (ConnsMap bm <> [] -> (0 < length (rbuffer cenv))%nat ->
     exists r, (doOnce bm' cenv).1.1 = Returned r).
Proof.
  intros Hinit.
  destruct (init_buffers _ env bm bm' Hinit) as (Hl1 & Hl2 & _).
  destruct (getBuffers_total bm' (Intn cenv) Hl1 Hl2) as [[p w] Hget].
  clear Hl1 Hl2.
  apply echo_init_Ok in Hinit as (_ & _ & _ & Hch & _).
  split.
  - unfold doOnce. rewrite Hget.
    destruct (chConns bm') as [|conn0 waiting0]; [done|].
    destruct (Write cenv w); [done|].
    destruct (NextReader cenv) as [e|[mt reader]]; [done|].
    destruct (read_loop _ _ _ _ _) as [[[[e|] buf] n]|]; try done.
    destruct (negb (mt =? BinaryMessage)); [done|].
    by destruct (negb (bytes_Equal p (take n buf))).
  - intros Hne Hrb. rewrite <- Hch in Hne.
    destruct (chConns bm') as [|conn waiting] eqn:Hch'; [done|].
    rewrite (doOnce_returns bm' cenv conn waiting p w Hch' Hget Hrb).
    by eexists.
Qed.

(** X16. Every session [init] completes on has a usable configuration: a
    positive payload size and sampling interval, a percentile list that is
    not empty, a concurrency no larger than the number of connections (and,
    on a machine with at least one and at most a million CPUs, at least 0,
    and at least 1 when there is a connection), every connection queued
    exactly once, in map order, and 1024 payloads of exactly [Payload]
    bytes each. *)
Theorem echo_init_configuration (env : Env) (bm bm' : BenchEcho) :
  BenchEcho.init EncodeClientMessage env bm = Ok bm' ->
  (1 <= Payload bm' /\ 0 < PsInterval bm' /\ Percents bm' <> []) /\
  (Concurrency bm' <= Z.of_nat (length (ConnsMap bm)) /\
   (1 <= NumCPU env <= 1000000 ->
      0 <= Concurrency bm' /\ (ConnsMap bm <> [] -> 1 <= Concurrency bm'))) /\
  (chConns bm' = ConnsMap bm /\ ConnsMap bm' = ConnsMap bm) /\
  (length (pbuffers bm') = 1024%nat /\
   Forall (fun p => Z.of_nat (length p) = Payload bm') (pbuffers bm')).
Proof.
  intros Hinit.
  destruct (init_buffers _ env bm bm' Hinit) as (Hl1 & _ & Hpair).
  assert (Hlens : Forall (fun p => Z.of_nat (length p) = Payload bm')
                    (pbuffers bm')).
  { apply Forall_lookup. intros i p Hp.
    destruct (Hpair i) as (p' & Hp' & _ & Hlen).
    { apply lookup_lt_Some in Hp. by rewrite Hl1 in Hp. }
    rewrite Hp in Hp'. injection Hp' as <-. rewrite Hlen.
    apply echo_init_Ok in Hinit as (_ & _ & _ & _ & Hpos & _). lia. }
  clear Hpair.
  refine ((fun H => conj (proj1 H) (conj (proj1 (proj2 H))
             (conj (proj2 (proj2 H)) (conj Hl1 Hlens)))) _).
  clear Hl1 Hlens.
  split_and!; revert Hinit;
    unfold BenchEcho.init;
    match goal with
    | |- context [BenchEcho.fill_buffers ?f ?s ?n ?k ?i ?a ?b] =>
        generalize (BenchEcho.fill_buffers f s n k i a b)
    end;
    intros [pb wb];
    (destruct (GetFrameworkPid env) as [e|pid]; [discriminate|]);
    (destruct (NewPSCounter env pid); [discriminate|]);
    intros Heq; inversion Heq as [Hbm]; clear Heq;
    cbn [Payload PsInterval Percents Concurrency chConns ConnsMap].
  - destruct (Payload bm <=? 0) eqn:Hp; [lia|]. apply Z.leb_gt in Hp. lia.
  - destruct (PsInterval bm <=? 0) eqn:Hp; [done|]. by apply Z.leb_gt in Hp.
  - destruct (length (Percents bm) =? 0)%nat eqn:Hp; [done|].
    apply Nat.eqb_neq in Hp. by destruct (Percents bm).
  - clear Hbm.
    match goal with
    | |- context [if ?c >? ?n then _ else _] => destruct (c >? n) eqn:Hc
    end; [lia|].
    rewrite Z.gtb_ltb in Hc. by apply Z.ltb_ge in Hc.
  - clear Hbm. intros Hcpu.
    assert (HM : mul64 (NumCPU env) 1000 = NumCPU env * 1000)
      by (apply mul64_exact; int_range).
    rewrite HM.
    assert (Hne : ConnsMap bm <> [] -> 1 <= Z.of_nat (length (ConnsMap bm))).
    { destruct (ConnsMap bm); [done|]. simpl. lia. }
    destruct (Concurrency bm <=? 0) eqn:Hc0;
      [apply Z.leb_le in Hc0 | apply Z.leb_gt in Hc0];
      (match goal with
       | |- context [if ?c >? ?n then _ else _] => destruct (c >? n) eqn:Hc
       end;
       [apply Z.gtb_lt in Hc
       | rewrite Z.gtb_ltb in Hc; apply Z.ltb_ge in Hc]);
      (split; [lia | intros Hx; specialize (Hne Hx); lia]).
  - done.
  - done.
Qed.

(** X17. [clean], which [Run] defers, retires the session without touching
    what the report reads: afterwards a call blocks on the nil queue and
    writes nothing, [getBuffers] would panic on the emptied frame table,
    the report is the one before [clean], and a second [clean] changes
    nothing. *)
Theorem clean_retires_the_session
    (float64 : Type) (bm : BenchEcho) (cenv : CallEnv)
    (calc : Calculator float64) (ps : PSCounter float64) :
  doOnce (clean bm) cenv = (Blocked, [], clean bm) /\
  getBuffers (clean bm) (Intn cenv) = None /\
  Report float64 (clean bm) calc ps = Report float64 bm calc ps /\
  pbuffers (clean bm) = pbuffers bm /\
  clean (clean bm) = clean bm.
Proof. by split_and!. Qed.


End EchoConfig.

Lemma doOnce_after_init_returns_witness :
  exists bm',
    BenchEcho.init Examples.frame_example Examples.env_example
      Examples.bm_configured = Ok bm' /\
    (BenchEcho.doOnce bm' Examples.one_byte_off).1.1 <> BenchEcho.Panicked.
Proof.
  destruct init_configured_Ok as [bm' Hinit]. exists bm'.
  split; [exact Hinit|].
  exact (proj1 (doOnce_after_init_returns Examples.frame_example
                  Examples.env_example Examples.bm_configured bm'
                  Examples.one_byte_off Hinit)).
Defined.

Lemma echo_init_configuration_witness :
  exists bm',
    BenchEcho.init Examples.frame_example Examples.env_example
      Examples.bm_configured = Ok bm' /\
    BenchEcho.chConns bm' = [0; 1; 2]%nat.
Proof.
  destruct init_configured_Ok as [bm' Hinit]. exists bm'.
  split; [exact Hinit|].
  exact (proj1 (proj1 (proj2 (proj2
    (echo_init_configuration Examples.frame_example Examples.env_example
       Examples.bm_configured bm' Hinit))))).
Defined.


(** ** The phases of [Run] and its end *)

Section RunPhases.
Import Sched SchedMore.

(** Once [init] has returned, the rest of [BenchRate.Run] passes the check
    for "[init], then [b]" whatever it does. *)
Lemma rate_Run_checks_after_Init b c n :
  b <> Init ->
  okL Init b c true [Go sampler; AfterFunc [Close done]] = true ->
  okL Init b c true [WgAdd; Go worker] = true ->
  okL Init b c true [WgWait; Recv chCounterStart; Call PsStop; Call Clean]
    = true ->
  okL Init b c false (rate_Run n) = true.
Proof.
  intros Hb H1 H2 H3. unfold rate_Run.
  change ([Call Init; Go sampler; AfterFunc [Close done]] ++ ?r)
    with (Call Init :: ([Go sampler; AfterFunc [Close done]] ++ r)).
  cbn [okL okA gives]. apply andb_true_iff. split.
  - rewrite orb_false_r. apply negb_true_iff, bool_decide_eq_false.
    by intros <-.
  - rewrite (bool_decide_eq_true_2 (Init = Init) eq_refl).
    apply okL_app; [done|]. by apply okL_repeat.
Qed.

(** X19. The phases of [Run] come in program order on every schedule. In
    echo mode [init] is over before the warmup, the warmup before the
    sampler starts and before the measurement, [Benchmark] is entered
    before it returns, and the session is cleaned only after the sampler
    has stopped. In rate mode, with any number of workers, [init] is over
    before any worker's tick calls [doOnce] and before the sampler
    starts. *)
Theorem Run_phases_in_order :
  (forall sched st,
      exec (start echo_Run) sched = Some st ->
      precedes Init Warmup (trace st) /\
      precedes Warmup PsStart (trace st) /\
      precedes Warmup Benchmark_begin (trace st) /\
      precedes Benchmark_begin Benchmark_end (trace st) /\
      precedes PsStop Clean (trace st))
  /\ (forall concurrency sched st,
      exec (start (rate_Run concurrency)) sched = Some st ->
      precedes Init DoOnce (trace st) /\
      precedes Init PsStart (trace st)).
Proof.
  split.
  - intros sched st Hexec. split_and!.
    + apply (check_sound Init Warmup done echo_Run sched);
        [reflexivity | exact Hexec].
    + apply (check_sound Warmup PsStart done echo_Run sched);
        [reflexivity | exact Hexec].
    + apply (check_sound Warmup Benchmark_begin done echo_Run sched);
        [reflexivity | exact Hexec].
    + apply (check_sound Benchmark_begin Benchmark_end done echo_Run sched);
        [reflexivity | exact Hexec].
    + apply (check_sound PsStop Clean done echo_Run sched);
        [reflexivity | exact Hexec].
  - intros n sched st Hexec. split.
    + apply (check_sound Init DoOnce chCounterStart (rate_Run n) sched);
        [|exact Hexec].
      apply rate_Run_checks_after_Init; [discriminate | reflexivity..].
    + apply (check_sound Init PsStart chCounterStart (rate_Run n) sched);
        [|exact Hexec].
      apply rate_Run_checks_after_Init; [discriminate | reflexivity..].
Qed.

(** *** Calls that do not come back *)

Lemma step_ret_ext r1 r2 st i tick :
  (forall l, r1 l = r2 l) -> step_ret r1 st i tick = step_ret r2 st i tick.
Proof.
  intros Hext. unfold step_ret.
  destruct (threads st !! i) as [[|x rest]|]; try done.
  destruct (emits x) as [l|]; [|done]. by rewrite Hext.
Qed.

Lemma exec_ret_ext r1 r2 sched :
  (forall l, r1 l = r2 l) ->
  forall st, exec_ret r1 st sched = exec_ret r2 st sched.
Proof.
  intros Hext. induction sched as [|[i tick] sched IH]; intros st; simpl;
    [done|].
  rewrite (step_ret_ext r1 r2 st i tick Hext).
  destruct (step_ret r2 st i tick); [apply IH | done].
Qed.

Lemma at_call_ext r1 r2 st :
  (forall l, r1 l = r2 l) -> at_call r1 st = at_call r2 st.
Proof.
  intros Hext. unfold at_call. induction (threads st) as [|t ts IH]; [done|].
  simpl. rewrite IH. f_equal.
  destruct t as [|x rest]; [done|].
  destruct (emits x) as [l|]; [|done]. by rewrite Hext.
Qed.

Lemma of_bits_labels returns l : of_bits (map returns labels) l = returns l.
Proof. by destruct l. Qed.

Lemma all_bits_complete n : forall bs, length bs = n -> In bs (all_bits n).
Proof.
  induction n as [|n IH]; intros [|b bs] Hlen; simpl in Hlen; try done.
  - by left.
  - simpl. apply in_flat_map. exists bs. split; [apply IH; lia|].
    destruct b; simpl; tauto.
Qed.

(** Every step is among the successors. *)
Lemma step_in_succs r st i tick st' :
  step_ret r st i tick = Some st' -> st' ∈ succs r st.
Proof.
  intros Hstep. unfold succs.
  assert (Hi : (i < length (threads st))%nat).
  { unfold step_ret in Hstep.
    destruct (threads st !! i) eqn:Hl; [|done].
    by apply lookup_lt_Some in Hl. }
  assert (Hseq : i ∈ seq 0 (length (threads st))).
  { apply elem_of_seq. lia. }
  apply elem_of_app.
  destruct (at_loop st i) eqn:Hloop.
  - destruct tick.
    + right. apply list_elem_of_omap. exists i. by rewrite Hloop.
    + left. apply list_elem_of_omap. by exists i.
  - left. apply list_elem_of_omap. exists i. split; [done|].
    rewrite <- Hstep. unfold step_ret, step, at_loop in *.
    destruct (threads st !! i) as [[|a rest]|]; try done.
    by destruct a, tick.
Qed.

Lemma exec_in_reach r sched : forall st st',
  exec_ret r st sched = Some st' -> st' ∈ reach r (length sched) st.
Proof.
  induction sched as [|[i tick] sched IH]; intros st st' Hexec; simpl in *.
  - injection Hexec as <-. by apply list_elem_of_singleton.
  - destruct (step_ret r st i tick) as [st1|] eqn:Hstep; [|done].
    apply list_elem_of_In, in_flat_map. exists st1.
    split; apply list_elem_of_In; [by eapply step_in_succs | by apply IH].
Qed.

Lemma exec_app r st s1 s2 st' :
  exec_ret r st (s1 ++ s2) = Some st' ->
  exists st1, exec_ret r st s1 = Some st1 /\ exec_ret r st1 s2 = Some st'.
Proof.
  revert st. induction s1 as [|[i tick] s1 IH]; intros st Hexec; simpl in *.
  - by exists st.
  - destruct (step_ret r st i tick) as [st1|]; [|done]. by apply IH.
Qed.

Lemma all_live_reach r k : forall sts j st0 st,
  all_live r k sts = true -> (j <= k)%nat ->
  st0 ∈ sts -> st ∈ reach r j st0 ->
  match succs r st with
  | [] => echo_done st || at_call r st
  | _ => true
  end = true.
Proof.
  induction k as [|k IH]; intros sts j st0 st Hlive Hj Hin Hreach.
  - assert (j = 0)%nat as -> by lia. simpl in *.
    apply list_elem_of_singleton in Hreach as ->.
    apply andb_true_iff in Hlive as [Hlive _].
    rewrite forallb_forall in Hlive. by apply Hlive, list_elem_of_In.
  - simpl in Hlive. apply andb_true_iff in Hlive as [Hnow Hlater].
    destruct j as [|j]; simpl in Hreach.
    + apply list_elem_of_singleton in Hreach as ->.
      rewrite forallb_forall in Hnow. by apply Hnow, list_elem_of_In.
    + apply list_elem_of_In, in_flat_map in Hreach as (st1 & Hs1 & Hr1).
      apply (IH (flat_map (succs r) sts) j st1 st); try done; try lia.
      * apply list_elem_of_In, in_flat_map. exists st0.
        split; [by apply list_elem_of_In | done].
      * by apply list_elem_of_In.
Qed.

Lemma omap_None {A B} (f : A -> option B) (l : list A) :
  (forall x, f x = None) -> omap f l = [].
Proof.
  intros Hf. induction l as [|x l IH]; [done|]. simpl. by rewrite Hf.
Qed.

Lemma stuck_succs r st :
  (forall i tick, step_ret r st i tick = None) -> succs r st = [].
Proof.
  intros Hstuck. unfold succs. rewrite !omap_None; [done | |].
  - intros i. rewrite Hstuck. by destruct (at_loop st i).
  - intros i. apply Hstuck.
Qed.

(** The search of the runs of [BenchEcho.Run], for every way its calls can
    behave. *)
Lemma echo_Run_checked :
  forallb (fun bs => check (of_bits bs)) (all_bits 9) = true.
Proof. vm_compute. reflexivity. Qed.

Lemma echo_Run_check returns : check (of_bits (map returns labels)) = true.
Proof.
  pose proof echo_Run_checked as Hall. rewrite forallb_forall in Hall.
  apply (Hall (map returns labels)). by apply all_bits_complete.
Qed.

(** X20. [BenchEcho.Run] cannot hang on its own synchronisation. Let any of
    its calls -- [init], the warmup, [Benchmark], the sampler's start and
    stop, the sleep, [clean] -- come back or not ([init] ends the process
    on a failed look-up, [Benchmark] hangs with a peer that never
    answers). Whatever the scheduler does, a run takes at most eleven
    steps, and a state in which no goroutine can move is either the end of
    [Run] -- both goroutines have returned, all eight events have
    happened, the sampler's stop and the clean-up last -- or one in which
    a goroutine stands at a call that does not come back. The receive from
    [chCounterStart] never blocks for good unless the sampler's own calls
    do; when every call comes back, [Run] returns. *)
Theorem echo_Run_comes_to_its_end
    (returns : label -> bool) (sched : list (nat * bool)) (st : state) :
  exec_ret returns (start echo_Run) sched = Some st ->
  (length sched <= 11)%nat /\
  ((forall i tick, step_ret returns st i tick = None) ->
     echo_done st = true \/ at_call returns st = true) /\
  ((forall l, returns l = true) ->
   (forall i tick, step_ret returns st i tick = None) ->
     finished st = true /\ length (trace st) = 8%nat /\
     drop 6 (trace st) = [PsStop; Clean]).
Proof.
  intros Hexec.
  set (r := of_bits (map returns labels)).
  assert (Hext : forall l, returns l = r l).
  { intros l. unfold r. by rewrite of_bits_labels. }
  pose proof (echo_Run_check returns) as Hcheck. fold r in Hcheck.
  unfold check in Hcheck. apply andb_true_iff in Hcheck as [Hlive Hend].
  rewrite (exec_ret_ext returns r sched Hext) in Hexec.
  assert (Hlen : (length sched <= 11)%nat).
  { destruct (Nat.le_gt_cases (length sched) 11) as [Hle|Hlong]; [exact Hle|].
    rewrite <- (take_drop 12 sched) in Hexec.
    apply exec_app in Hexec as (st1 & H1 & _).
    apply exec_in_reach in H1.
    rewrite length_take, Nat.min_l in H1 by lia.
    destruct (reach r 12 (start echo_Run)); [|discriminate Hend].
    destruct (proj1 (elem_of_nil _) H1). }
  assert (Hstuck : (forall i tick, step_ret returns st i tick = None) ->
            echo_done st = true \/ at_call returns st = true).
  { intros Hno.
    pose proof (all_live_reach r 11 [start echo_Run] (length sched)
                  (start echo_Run) st Hlive Hlen
                  (list_elem_of_here _ _)
                  (exec_in_reach r _ _ _ Hexec)) as Hst.
    rewrite stuck_succs in Hst.
    - rewrite (at_call_ext returns r st Hext).
      by apply orb_true_iff in Hst.
    - intros i tick. rewrite <- (step_ret_ext returns r st i tick Hext).
      apply Hno. }
  split; [exact Hlen|]. split; [exact Hstuck|].
  intros Hall Hno. destruct (Hstuck Hno) as [Hdone|Hcall].
  - unfold echo_done in Hdone.
    apply andb_true_iff in Hdone as [Hdone H8].
    apply andb_true_iff in Hdone as [Hfin Hlast].
    apply bool_decide_eq_true in H8, Hlast.
    exact (conj Hfin (conj H8 Hlast)).
  - exfalso. unfold at_call in Hcall.
    apply existsb_exists in Hcall as (t & _ & Ht).
    destruct t as [|x rest]; [done|].
    destruct (emits x) as [l|]; [|done]. by rewrite Hall in Ht.
Qed.

(** A complete run when every call comes back, and a run that stops in
    [Benchmark] when it does not. *)
Lemma echo_Run_comes_to_its_end_witness :
  let all := fun _ : label => true in
  let hangs := fun l => negb (bool_decide (l = Benchmark_end)) in
  let sched :=
    replicate 4 (0%nat, false) ++ [(1%nat, false); (0%nat, false)]
    ++ replicate 2 (1%nat, false) ++ replicate 3 (0%nat, false) in
  let st :=
    mkState [[]; []] [chCounterStart] 0
      [Init; Warmup; Benchmark_begin; PsStart; Benchmark_end; Slept;
       PsStop; Clean] in
  let sched' := replicate 4 (0%nat, false) ++ replicate 3 (1%nat, false) in
  let st' :=
    mkState [[Call Benchmark_end; Recv chCounterStart; Call PsStop;
              Call Clean]; []]
      [chCounterStart] 0 [Init; Warmup; Benchmark_begin; PsStart; Slept] in
  (exec_ret all (start echo_Run) sched = Some st /\
   (length sched <= 11)%nat /\
   ((forall i tick, step_ret all st i tick = None) ->
      echo_done st = true \/ at_call all st = true))
  /\ (exec_ret hangs (start echo_Run) sched' = Some st' /\
      ((forall i tick, step_ret hangs st' i tick = None) ->
         echo_done st' = true \/ at_call hangs st' = true) /\
      echo_done st' = false /\ at_call hangs st' = true).
Proof.
  intros all hangs sched st sched' st'.
  assert (Hexec : exec_ret all (start echo_Run) sched = Some st)
    by (vm_compute; reflexivity).
  assert (Hexec' : exec_ret hangs (start echo_Run) sched' = Some st')
    by (vm_compute; reflexivity).
  split.
  - split; [exact Hexec|].
    destruct (echo_Run_comes_to_its_end all sched st Hexec) as (H1 & H2 & _).
    exact (conj H1 H2).
  - split; [exact Hexec'|].
    destruct (echo_Run_comes_to_its_end hangs sched' st' Hexec')
      as (_ & H2 & _).
    split; [exact H2|]. split; vm_compute; reflexivity.
Defined.

End RunPhases.

(** ** Starting the servers *)

Section Servers.
Import Server.

Context {listener : Type}.

Lemma startServers_from_spec (listen : listen_oracle listener) addrs :
  forall lns asked0,
  let s := startServers_from listen addrs lns asked0 in
  match result s with
  | inr out =>
      exists new, out = lns ++ new /\ served s = out /\
                  asked s = asked0 ++ addrs /\
                  Forall2 (fun addr ln => listen addr = inr ln) addrs new
  | inl err =>
      exists before addr after new,
        addrs = before ++ addr :: after /\
        listen addr = inl err /\
        Forall2 (fun addr ln => listen addr = inr ln) before new /\
        served s = lns ++ new /\
        asked s = asked0 ++ before ++ [addr]
  end.
Proof.
  induction addrs as [|addr addrs IH]; intros lns asked0; simpl.
  - exists []. rewrite !(right_id_L [] (++)). by split_and!.
  - destruct (listen addr) as [err|ln] eqn:Hl; simpl.
    + exists [], addr, addrs, []. rewrite (right_id_L [] (++)).
      by split_and!.
    + specialize (IH (lns ++ [ln]) (asked0 ++ [addr])). simpl in IH.
      destruct (result (startServers_from listen addrs (lns ++ [ln])
                          (asked0 ++ [addr]))) as [err|out].
      * destruct IH as (before & a & after & new & -> & Ha & Hall & Hs & Hk).
        exists (addr :: before), a, after, (ln :: new).
        rewrite Hs, Hk, <- !(assoc_L (++)). split_and!; try done.
        by apply Forall2_cons.
      * destruct IH as (new & -> & Hs & Hk & Hall).
        exists (ln :: new). rewrite Hs, Hk, <- !(assoc_L (++)).
        split_and!; try done. by apply Forall2_cons.
Qed.

(** X21. [startServers] of nbio_std listens on the addresses in order. It
    returns one listener per address, in address order, each with a serving
    goroutine, when every [Listen] succeeds; otherwise it stops with the
    fatal error at the first address that fails, having asked for no
    address after it, and the listeners of the addresses before it are
    already being served. *)
Theorem startServers_in_address_order
    (listen : listen_oracle listener) (addrs : list string) :
  match result (startServers listen addrs) with
  | inr lns =>
      Forall2 (fun addr ln => listen addr = inr ln) addrs lns /\
      served (startServers listen addrs) = lns /\
      asked (startServers listen addrs) = addrs
  | inl err =>
      exists before addr after lns,
        addrs = before ++ addr :: after /\
        listen addr = inl err /\
        Forall2 (fun addr ln => listen addr = inr ln) before lns /\
        served (startServers listen addrs) = lns /\
        asked (startServers listen addrs) = before ++ [addr]
  end.
Proof.
  unfold startServers.
  pose proof (startServers_from_spec listen addrs [] []) as H. simpl in H.
  destruct (result (startServers_from listen addrs [] [])) as [err|lns].
  - destruct H as (before & addr & after & new & H1 & H2 & H3 & H4 & H5).
    by exists before, addr, after, new.
  - destruct H as (new & -> & H2 & H3 & H4). by split_and!.
Qed.

End Servers.
